(** * AgentScheduler: the scheduling core, embedded and verified

    The development follows the Go sources:
    - [models]     (models/models.go)       the records exchanged between packages;
    - [scheduler]  (scheduler/scheduler.go) [GenerateSchedule] and
                                            [allocateWithConstraints];
    - [cli]        (main.go)                the validation done before the core runs;
    - [formatter]  (formatter/formatter.go) [prepareScheduleData] and [processHour],
                                            the data all output formats print;
    - [errors], [parser]  (errors/errors.go, parser)  [Parse], [parseTime] and
                                            [getTimezoneLocation].

    The parts of the Go standard library the scheduler calls are modelled
    first: machine integers ([Int64]), IEEE-754 binary64 arithmetic ([F64], on
    top of [SpecFloat]), package [time] ([GoTime]) and [sort.Slice]
    ([GoSort]). *)

From Stdlib Require Import ZArith Lia String Sorted.
From Stdlib Require Import Floats.SpecFloat.
From stdpp Require Import base list strings gmap.

Local Open Scope Z_scope.

(* ===================================================================== *)
(** * Go's [int]: 64-bit two's complement                                 *)
(* ===================================================================== *)

Module Int64.

Definition modulus : Z := 2 ^ 64.
Definition min_int : Z := - 2 ^ 63.
Definition max_int : Z := 2 ^ 63 - 1.

(** The value an [int] holds after an operation whose exact result is [z]. *)
Definition wrap (z : Z) : Z := (z + 2 ^ 63) mod modulus - 2 ^ 63.

Definition add (a b : Z) : Z := wrap (a + b).
Definition sub (a b : Z) : Z := wrap (a - b).

Definition in_range (z : Z) : Prop := min_int <= z <= max_int.

End Int64.

(* ===================================================================== *)
(** * Go's [float64]: IEEE-754 binary64                                   *)
(* ===================================================================== *)

(** Go's [float64] operations [*], [/], [+] and the comparisons are the
    IEEE-754 ones, rounding to nearest even; [SpecFloat] specifies them at
    precision 53 and maximal exponent 1024.  None of the expressions of the
    scheduler has the shape [x*y + z], the only one a Go compiler may fuse. *)

Module F64.

Definition prec : Z := 53.
Definition emax : Z := 1024.

Definition float64 := spec_float.

Definition mul : float64 -> float64 -> float64 := SFmul prec emax.
Definition div : float64 -> float64 -> float64 := SFdiv prec emax.
Definition add : float64 -> float64 -> float64 := SFadd prec emax.
Definition leb : float64 -> float64 -> bool := SFleb.
Definition ltb : float64 -> float64 -> bool := SFltb.

(** [float64(n)] for an integer [n]. *)
Definition of_int (n : Z) : float64 := binary_normalize prec emax n 0 false.

(** [math.Ceil]: the least integer value not below [x]; zeros, infinities
    and NaN are returned unchanged, and a value in (-1, 0) gives -0. *)
Definition ceil (x : float64) : float64 :=
  match x with
  | S754_finite s m e =>
      if 0 <=? e then x
      else
        let q := Z.shiftr (Zpos m) (- e) in
        let exact := Z.shiftl q (- e) =? Zpos m in
        if s then binary_normalize prec emax (- q) 0 true
        else binary_normalize prec emax (if exact then q else q + 1) 0 false
  | _ => x
  end.

(** The conversion [int(x)] truncates towards zero.  For a value that does
    not fit 64 bits, an infinity or a NaN, the language leaves the result to
    the implementation; amd64 gives the "integer indefinite" [-2^63]. *)
Definition int_indefinite : Z := Int64.min_int.

Definition to_int (x : float64) : Z :=
  match x with
  | S754_zero _ => 0
  | S754_finite s m e =>
      let q := if 0 <=? e then Z.shiftl (Zpos m) e else Z.shiftr (Zpos m) (- e) in
      let n := if s then - q else q in
      if (Int64.min_int <=? n) && (n <=? Int64.max_int) then n else int_indefinite
  | _ => int_indefinite
  end.

Definition is_nan (x : float64) : bool :=
  match x with S754_nan => true | _ => false end.

Definition is_finite (x : float64) : bool :=
  match x with S754_zero _ | S754_finite _ _ _ => true | _ => false end.

End F64.

(* ===================================================================== *)
(** * Package [time]                                                      *)
(* ===================================================================== *)

(** A [Time] is an instant, counted in nanoseconds from the Unix epoch,
    together with the [Location] its clock fields are read in.  A [Location]
    is its table of zone transitions: the offset (seconds east of UTC) in
    force before the first transition and, in increasing order, the instants
    (Unix seconds) at which a new offset starts.  Instants are unbounded
    here; [time.Time] covers years far beyond any the scheduler meets. *)

Module GoTime.

(** ** Duration *)

Definition Duration := Z.
Definition Nanosecond : Duration := 1.
Definition Second : Duration := 1000000000.
Definition Hour : Duration := 3600 * Second.
Definition minDuration : Duration := Int64.min_int.
Definition maxDuration : Duration := Int64.max_int.

(** [func (d Duration) Hours() float64]:
    [hour := d / Hour; nsec := d % Hour;
     return float64(hour) + float64(nsec)/(60*60*1e9)]. *)
Definition Hours (d : Duration) : F64.float64 :=
  let hour := Z.quot d Hour in
  let nsec := Z.rem d Hour in
  F64.add (F64.of_int hour) (F64.div (F64.of_int nsec) (F64.of_int (60 * 60 * 1000000000))).

(** ** Location *)

Record Location := mkLocation {
  locName : string;
  firstOffset : Z;
  transitions : list (Z * Z)   (* (when, offset from then on) *)
}.

Definition UTC : Location := mkLocation "UTC" 0 [].

Definition alpha : Z := Int64.min_int.
Definition omega : Z := Int64.max_int.

(** [Location.lookup(sec)]: the offset in force at [sec] and the bounds
    [start <= sec < end] of the period it is in force for. *)
Fixpoint lookupFrom (tx : list (Z * Z)) (sec offset start : Z) : Z * Z * Z :=
  match tx with
  | [] => (offset, start, omega)
  | (when, offset') :: tx =>
      if sec <? when then (offset, start, when)
      else lookupFrom tx sec offset' when
  end.

Definition lookup (l : Location) (sec : Z) : Z * Z * Z :=
  lookupFrom (transitions l) sec (firstOffset l) alpha.

Definition offsetAt (l : Location) (sec : Z) : Z := (lookup l sec).1.1.

(** ** Time *)

Record Time := mkTime {
  unixNano : Z;
  loc : Location
}.

Definition Before (t u : Time) : bool := unixNano t <? unixNano u.
Definition After (t u : Time) : bool := unixNano u <? unixNano t.

Definition Add (t : Time) (d : Duration) : Time :=
  mkTime (unixNano t + d) (loc t).

(** [t.Sub(u)] saturates at the largest and smallest [Duration]. *)
Definition Sub (t u : Time) : Duration :=
  let d := unixNano t - unixNano u in
  if d <? minDuration then minDuration
  else if maxDuration <? d then maxDuration
  else d.

Definition Location_ (t : Time) : Location := loc t.
Definition In (t : Time) (l : Location) : Time := mkTime (unixNano t) l.

Definition unixSec (t : Time) : Z := unixNano t `div` Second.

(** seconds on the wall clock of [t]'s location, counted as if it were UTC *)
Definition wallSec (t : Time) : Z := unixSec t + offsetAt (loc t) (unixSec t).

(** The proleptic Gregorian calendar: day number (0 = 1970-01-01) to
    year, month, day and back. *)
Definition civil_from_days (z : Z) : Z * Z * Z :=
  let z := z + 719468 in
  let era := z `div` 146097 in
  let doe := z - era * 146097 in
  let yoe := (doe - doe `div` 1460 + doe `div` 36524 - doe `div` 146096) `div` 365 in
  let y := yoe + era * 400 in
  let doy := doe - (365 * yoe + yoe `div` 4 - yoe `div` 100) in
  let mp := (5 * doy + 2) `div` 153 in
  let d := doy - (153 * mp + 2) `div` 5 + 1 in
  let m := if mp <? 10 then mp + 3 else mp - 9 in
  (if m <=? 2 then y + 1 else y, m, d).

Definition days_from_civil (y m d : Z) : Z :=
  let y := if m <=? 2 then y - 1 else y in
  let era := y `div` 400 in
  let yoe := y - era * 400 in
  let doy := (153 * (if 2 <? m then m - 3 else m + 9) + 2) `div` 5 + d - 1 in
  let doe := yoe * 365 + yoe `div` 4 - yoe `div` 100 + doy in
  era * 146097 + doe - 719468.

Definition Year (t : Time) : Z := (civil_from_days (wallSec t `div` 86400)).1.1.
Definition Month (t : Time) : Z := (civil_from_days (wallSec t `div` 86400)).1.2.
Definition Day (t : Time) : Z := (civil_from_days (wallSec t `div` 86400)).2.
Definition Hour_ (t : Time) : Z := (wallSec t `mod` 86400) `div` 3600.

(** [time.Date(year, month, day, hour, min, sec, nsec, loc)].  Values out
    of their usual range carry over; the clock reading is then looked up in
    [loc]: when the offset found for it does not hold at the resulting
    instant (the reading falls in a gap or an overlap of the zone), the
    offset in force at that instant is used instead. *)
Definition Date (year month day hour min sec nsec : Z) (l : Location) : Time :=
  let m := month - 1 in
  let year := year + m `div` 12 in
  let month := m `mod` 12 + 1 in
  let days := days_from_civil year month 1 + (day - 1) in
  let total := nsec + Second * (sec + 60 * (min + 60 * (hour + 24 * days))) in
  let unix := total `div` Second in
  let nsec := total `mod` Second in
  let '(offset, start, end_) := lookup l unix in
  let unix :=
    if offset =? 0 then unix
    else
      let utc := unix - offset in
      let offset :=
        if (utc <? start) || (end_ <=? utc) then offsetAt l utc else offset in
      unix - offset in
  mkTime (unix * Second + nsec) l.

End GoTime.

(* ===================================================================== *)
(** * Package [sort]: [sort.Slice]                                        *)
(* ===================================================================== *)

(** [sort.Slice(x, less)] runs the pattern-defeating quicksort of
    sort/zsortfunc.go on the index range [0, len(x)).  The slice is only ever
    changed through [Swap]; [Less i j] is the caller's closure, which here
    reads the two elements of the slice being sorted.  Indices are [nat]:
    every index the algorithm forms lies in [0, len(x)]. *)

Module GoSort.

(** [xorshift.Next]: the generator behind [breakPatterns], on [uint64]. *)
Definition xorshift_next (r : Z) : Z :=
  let r := Z.lxor r (Z.land (Z.shiftl r 13) (Z.ones 64)) in
  let r := Z.lxor r (Z.shiftr r 7) in
  Z.lxor r (Z.land (Z.shiftl r 17) (Z.ones 64)).

(** [bits.Len]: the number of bits needed to write [n]. *)
Definition bits_len (n : nat) : nat := Z.to_nat (Z.log2 (Z.of_nat n) + 1) * (if n is O then 0 else 1).

(** [nextPowerOfTwo] *)
Definition nextPowerOfTwo (length : nat) : Z := Z.shiftl 1 (Z.of_nat (bits_len length)).

Inductive sortedHint := unknownHint | increasingHint | decreasingHint.

Section Sort.
Context {A : Type}.
(** the order the caller's [less] closure puts on two elements *)
Variable lt : A -> A -> bool.

Definition Less (data : list A) (i j : nat) : bool :=
  match data !! i, data !! j with
  | Some x, Some y => lt x y
  | _, _ => false
  end.

Definition Swap (data : list A) (i j : nat) : list A :=
  match data !! i, data !! j with
  | Some x, Some y => <[j := x]> (<[i := y]> data)
  | _, _ => data
  end.

(** [for j := i; j > a && Less(j, j-1); j-- { Swap(j, j-1) }] *)
Fixpoint insertDown (a j : nat) (data : list A) : list A :=
  match j with
  | O => data
  | S j' =>
      if (a <? j)%nat && Less data j j'
      then insertDown a j' (Swap data j j')
      else data
  end.

(** [insertionSort_func(data, a, b)] *)
Definition insertionSort (data : list A) (a b : nat) : list A :=
  foldl (fun data i => insertDown a i data) data (seq (a + 1) (b - (a + 1))).

(** [siftDown_func(data, lo, hi, first)]; the loop runs at most [hi]
    times since [root] at least doubles. *)
Fixpoint siftDownLoop (fuel : nat) (data : list A) (root hi first : nat) : list A :=
  match fuel with
  | O => data
  | S fuel =>
      let child := (2 * root + 1)%nat in
      if (hi <=? child)%nat then data
      else
        let child :=
          if (child + 1 <? hi)%nat && Less data (first + child) (first + child + 1)
          then (child + 1)%nat else child in
        if negb (Less data (first + root) (first + child)) then data
        else siftDownLoop fuel (Swap data (first + root) (first + child)) child hi first
  end.

Definition siftDown (data : list A) (lo hi first : nat) : list A :=
  siftDownLoop hi data lo hi first.

(** [heapSort_func(data, a, b)] *)
Definition heapSort (data : list A) (a b : nat) : list A :=
  let first := a in
  let lo := O in
  let hi := (b - a)%nat in
  (* for i := (hi - 1) / 2; i >= 0; i-- *)
  let data := foldl (fun data i => siftDown data i hi first) data
                    (reverse (seq 0 ((hi - 1) / 2 + 1))) in
  (* for i := hi - 1; i >= 0; i-- *)
  foldl (fun data i => siftDown (Swap data first (first + i)) lo i first) data
        (reverse (seq 0 hi)).

(** The two scanning loops shared by the partition routines:
    [for i <= j && p(i) { i++ }] and [for i <= j && p(j) { j-- }]. *)
Fixpoint scanUp (fuel : nat) (p : nat -> bool) (i j : nat) : nat :=
  match fuel with
  | O => i
  | S fuel => if (i <=? j)%nat && p i then scanUp fuel p (S i) j else i
  end.

Fixpoint scanDown (fuel : nat) (p : nat -> bool) (i j : nat) : nat :=
  match fuel with
  | O => j
  | S fuel => if (i <=? j)%nat && p j then scanDown fuel p i (pred j) else j
  end.

(** The main loop of [partition_func], entered after the first exchange. *)
Fixpoint partitionLoop (fuel : nat) (data : list A) (a i j : nat) : list A * nat :=
  match fuel with
  | O => (data, j)
  | S fuel =>
      let i := scanUp (S j - i) (fun i => Less data i a) i j in
      let j := scanDown (S j - i) (fun j => negb (Less data j a)) i j in
      if (j <? i)%nat then (data, j)
      else partitionLoop fuel (Swap data i j) a (S i) (pred j)
  end.

(** [partition_func(data, a, b, pivot)] returns the slice, the new index
    of the pivot and whether the range was already partitioned. *)
Definition partition (data : list A) (a b pivot : nat) : list A * nat * bool :=
  let data := Swap data a pivot in
  let i := (a + 1)%nat in
  let j := (b - 1)%nat in
  let i := scanUp (S j - i) (fun i => Less data i a) i j in
  let j := scanDown (S j - i) (fun j => negb (Less data j a)) i j in
  if (j <? i)%nat then (Swap data j a, j, true)
  else
    let data := Swap data i j in
    let '(data, j) := partitionLoop (S j - i) data a (S i) (pred j) in
    (Swap data j a, j, false).

(** The loop of [partitionEqual_func]; it returns the final [i]. *)
Fixpoint partitionEqualLoop (fuel : nat) (data : list A) (a i j : nat) : list A * nat :=
  match fuel with
  | O => (data, i)
  | S fuel =>
      let i := scanUp (S j - i) (fun i => negb (Less data a i)) i j in
      let j := scanDown (S j - i) (fun j => Less data a j) i j in
      if (j <? i)%nat then (data, i)
      else partitionEqualLoop fuel (Swap data i j) a (S i) (pred j)
  end.

(** [partitionEqual_func(data, a, b, pivot)] *)
Definition partitionEqual (data : list A) (a b pivot : nat) : list A * nat :=
  let data := Swap data a pivot in
  partitionEqualLoop (b - a) data a (a + 1)%nat (b - 1)%nat.

(** The two shifting loops of [partialInsertionSort_func]:
    [for j := i - 1; j >= 1; j-- { if !Less(j, j-1) { break }; Swap(j, j-1) }]
    and
    [for j := i + 1; j < b; j++ { if !Less(j, j-1) { break }; Swap(j, j-1) }]. *)
Fixpoint shiftLeft (j : nat) (data : list A) : list A :=
  match j with
  | O => data
  | S j' =>
      if (1 <=? j)%nat && Less data j j' then shiftLeft j' (Swap data j j') else data
  end.

Fixpoint shiftRight (fuel : nat) (j b : nat) (data : list A) : list A :=
  match fuel with
  | O => data
  | S fuel =>
      if (j <? b)%nat && Less data j (j - 1)
      then shiftRight fuel (S j) b (Swap data j (j - 1)) else data
  end.

(** [partialInsertionSort_func(data, a, b)]: [steps] counts the remaining
    rounds of [for j := 0; j < maxSteps; j++]. *)
Definition maxSteps : nat := 5.
Definition shortestShifting : nat := 50.

Fixpoint partialInsertionSortLoop (steps : nat) (data : list A) (a b i : nat)
  : list A * bool :=
  match steps with
  | O => (data, false)
  | S steps =>
      let i := scanUp (b - i) (fun i => negb (Less data i (i - 1))) i (b - 1) in
      if (i =? b)%nat then (data, true)
      else if (b - a <? shortestShifting)%nat then (data, false)
      else
        let data := Swap data i (i - 1) in
        let data := if (2 <=? i - a)%nat then shiftLeft (i - 1) data else data in
        let data := if (2 <=? b - i)%nat then shiftRight (b - i) (i + 1) b data else data in
        partialInsertionSortLoop steps data a b i
  end.

Definition partialInsertionSort (data : list A) (a b : nat) : list A * bool :=
  partialInsertionSortLoop maxSteps data a b (a + 1).

(** [breakPatterns_func(data, a, b)] *)
Definition breakPatterns (data : list A) (a b : nat) : list A :=
  let length := (b - a)%nat in
  if (8 <=? length)%nat then
    let modulus := nextPowerOfTwo length in
    let idx := (a + (length / 4) * 2 - 1)%nat in
    let step (st : list A * Z) (i : nat) :=
      let '(data, random) := st in
      let random := xorshift_next random in
      let other := Z.to_nat (Z.land random (modulus - 1)) in
      let other := if (length <=? other)%nat then (other - length)%nat else other in
      (Swap data (idx - 1 + i) (a + other), random) in
    fst (foldl step (data, Z.of_nat length) (seq 0 3))
  else data.

(** [order2_func], [median_func], [medianAdjacent_func]: the swap counter
    is threaded through. *)
Definition order2 (data : list A) (a b : nat) (swaps : nat) : nat * nat * nat :=
  if Less data b a then (b, a, S swaps) else (a, b, swaps).

Definition median (data : list A) (a b c : nat) (swaps : nat) : nat * nat :=
  let '(a, b, swaps) := order2 data a b swaps in
  let '(b, c, swaps) := order2 data b c swaps in
  let '(a, b, swaps) := order2 data a b swaps in
  (b, swaps).

Definition medianAdjacent (data : list A) (a : nat) (swaps : nat) : nat * nat :=
  median data (a - 1) a (a + 1) swaps.

(** [choosePivot_func(data, a, b)] *)
Definition shortestNinther : nat := 50.
Definition maxSwaps : nat := 4 * 3.

Definition choosePivot (data : list A) (a b : nat) : nat * sortedHint :=
  let l := (b - a)%nat in
  let swaps := O in
  let i := (a + l / 4 * 1)%nat in
  let j := (a + l / 4 * 2)%nat in
  let k := (a + l / 4 * 3)%nat in
  let '(j, swaps) :=
    if (8 <=? l)%nat then
      let '(i, j, k, swaps) :=
        if (shortestNinther <=? l)%nat then
          let '(i, swaps) := medianAdjacent data i swaps in
          let '(j, swaps) := medianAdjacent data j swaps in
          let '(k, swaps) := medianAdjacent data k swaps in
          (i, j, k, swaps)
        else (i, j, k, swaps) in
      median data i j k swaps
    else (j, swaps) in
  if (swaps =? 0)%nat then (j, increasingHint)
  else if (swaps =? maxSwaps)%nat then (j, decreasingHint)
  else (j, unknownHint).

(** [reverseRange_func(data, a, b)] *)
Fixpoint reverseLoop (fuel : nat) (data : list A) (i j : nat) : list A :=
  match fuel with
  | O => data
  | S fuel => if (i <? j)%nat then reverseLoop fuel (Swap data i j) (S i) (pred j) else data
  end.

Definition reverseRange (data : list A) (a b : nat) : list A :=
  reverseLoop (b - a) data a (b - 1).

Definition hint_eqb (h1 h2 : sortedHint) : bool :=
  match h1, h2 with
  | unknownHint, unknownHint | increasingHint, increasingHint
  | decreasingHint, decreasingHint => true
  | _, _ => false
  end.

(** [pdqsort_func(data, a, b, limit)].  Every round of its [for] loop and
    every recursive call works on a strictly shorter range, so [fuel]
    above [b - a] is never used up. *)
Definition maxInsertion : nat := 12.

Fixpoint pdqsortLoop (fuel : nat) (data : list A) (a b limit : nat)
         (wasBalanced wasPartitioned : bool) : list A :=
  match fuel with
  | O => data
  | S fuel =>
      let length := (b - a)%nat in
      if (length <=? maxInsertion)%nat then insertionSort data a b
      else if (limit =? 0)%nat then heapSort data a b
      else
        let '(data, limit) :=
          if negb wasBalanced then (breakPatterns data a b, pred limit)
          else (data, limit) in
        let '(pivot, hint) := choosePivot data a b in
        let '(data, pivot, hint) :=
          if hint_eqb hint decreasingHint
          then (reverseRange data a b, ((b - 1) - (pivot - a))%nat, increasingHint)
          else (data, pivot, hint) in
        let '(data, sorted) :=
          if wasBalanced && wasPartitioned && hint_eqb hint increasingHint
          then partialInsertionSort data a b
          else (data, false) in
        if sorted then data
        else if (0 <? a)%nat && negb (Less data (a - 1) pivot) then
          let '(data, mid) := partitionEqual data a b pivot in
          pdqsortLoop fuel data mid b limit wasBalanced wasPartitioned
        else
          let '(data, mid, alreadyPartitioned) := partition data a b pivot in
          let wasPartitioned := alreadyPartitioned in
          let leftLen := (mid - a)%nat in
          let rightLen := (b - mid)%nat in
          let balanceThreshold := (length / 8)%nat in
          if (leftLen <? rightLen)%nat then
            let wasBalanced := (balanceThreshold <=? leftLen)%nat in
            let data := pdqsortLoop fuel data a mid limit true true in
            pdqsortLoop fuel data (mid + 1) b limit wasBalanced wasPartitioned
          else
            let wasBalanced := (balanceThreshold <=? rightLen)%nat in
            let data := pdqsortLoop fuel data (mid + 1) b limit true true in
            pdqsortLoop fuel data a mid limit wasBalanced wasPartitioned
  end.

Definition pdqsort (data : list A) (a b limit : nat) : list A :=
  pdqsortLoop (S (b - a)) data a b limit true true.

(** [sort.Slice(x, less)] *)
Definition Slice (x : list A) : list A :=
  let length := List.length x in
  let limit := bits_len length in
  pdqsort x 0 length limit.

End Sort.
End GoSort.

(* ===================================================================== *)
(** * Package [models]                                                    *)
(* ===================================================================== *)

Module models.

(** [CallData]: one parsed input row. *)
Record CallData := mkCallData {
  CustomerName : string;
  AverageCallDurationSeconds : Z;
  StartTime : GoTime.Time;
  EndTime : GoTime.Time;
  cdLocation : option GoTime.Location;      (* [*time.Location], nil allowed *)
  NumberOfCalls : Z;
  cdPriority : Z
}.

(** [CustomerRequirement]: the agents one customer needs in one hour. *)
Record CustomerRequirement := mkCustomerRequirement {
  Name : string;
  AgentsNeeded : Z;
  Location : option GoTime.Location;
  Priority : Z
}.

(** [ImpactedClient]: a customer whose demand was not fully met. *)
Record ImpactedClient := mkImpactedClient {
  icName : string;
  RequestedAgents : Z;
  icAllocatedAgents : Z;
  icUnmetAgents : Z;
  icPriority : Z
}.

(** [UnmetDemand]: an hour in which capacity was exceeded. *)
Record UnmetDemand := mkUnmetDemand {
  Hour : Z;
  TotalDemand : Z;
  AllocatedAgents : Z;
  UnmetAgents : Z;
  ImpactedClients : list ImpactedClient
}.

(** [Schedule]: [HourlyRequirements] maps the hour (0-23) to its list of
    requirements. *)
Record Schedule := mkSchedule {
  HourlyRequirements : list (list CustomerRequirement);
  UnmetDemands : list UnmetDemand
}.

End models.

(* ===================================================================== *)
(** * Package [scheduler]                                                 *)
(* ===================================================================== *)

Module scheduler.
Import models.

(** ** [allocateWithConstraints] *)

(** [totalDemand := 0; for _, req := range requests { totalDemand += req.AgentsNeeded }] *)
Definition totalDemandOf (requests : list CustomerRequirement) : Z :=
  foldl (fun totalDemand req => Int64.add totalDemand (AgentsNeeded req)) 0 requests.

(** The [less] closure handed to [sort.Slice]:
    [requests[i].Priority < requests[j].Priority]. *)
Definition lessPriority (x y : CustomerRequirement) : bool :=
  Priority x <? Priority y.

(** The variables the allocation loop updates. *)
Record allocState := mkAllocState {
  allocated : list CustomerRequirement;
  impactedClients : list ImpactedClient;
  remaining : Z
}.

(** One round of [for _, req := range requests] in the allocation pass. *)
Definition allocStep (st : allocState) (req : CustomerRequirement) : allocState :=
  if remaining st <=? 0 then
    (* No capacity left - fully unmet *)
    mkAllocState
      (allocated st)
      (impactedClients st ++
         [mkImpactedClient (Name req) (AgentsNeeded req) 0 (AgentsNeeded req) (Priority req)])
      (remaining st)
  else if remaining st >=? AgentsNeeded req then
    (* Full allocation *)
    mkAllocState
      (allocated st ++ [req])
      (impactedClients st)
      (Int64.sub (remaining st) (AgentsNeeded req))
  else
    (* Partial allocation - give what's left *)
    mkAllocState
      (allocated st ++
         [mkCustomerRequirement (Name req) (remaining st) (Location req) (Priority req)])
      (impactedClients st ++
         [mkImpactedClient (Name req) (AgentsNeeded req) (remaining st)
            (Int64.sub (AgentsNeeded req) (remaining st)) (Priority req)])
      0.

Definition allocateWithConstraints (requests : list CustomerRequirement) (capacity : Z)
  : list CustomerRequirement * option UnmetDemand :=
  if (length requests =? 0)%nat then ([], None)
  else
    let totalDemand := totalDemandOf requests in
    (* Fast path: if capacity exceeds demand, no allocation logic needed *)
    if capacity >=? totalDemand then (requests, None)
    else
      let requests := GoSort.Slice lessPriority requests in
      let st := foldl allocStep (mkAllocState [] [] capacity) requests in
      (* Only create UnmetDemand if there are impacted clients *)
      if (0 <? length (impactedClients st))%nat then
        (allocated st,
         Some (mkUnmetDemand 0 totalDemand capacity (Int64.sub totalDemand capacity)
                 (impactedClients st)))
      else (allocated st, None).

(** ** [GenerateSchedule] *)

(** The body of the loop over the hours of one record
    ([for t := startHourBoundary; ...]), at step instant [t]. *)
Definition hourStep (cd : CallData) (utilization : F64.float64)
           (start end_ : GoTime.Time) (callsPerHour : F64.float64)
           (hourlyRequests : list (list CustomerRequirement)) (t : GoTime.Time)
  : list (list CustomerRequirement) :=
  let hourStart := t in
  let hourEnd := GoTime.Add t GoTime.Hour in
  (* Clamp to actual work window *)
  let actualStart := if GoTime.After start hourStart then start else hourStart in
  let actualEnd := if GoTime.Before end_ hourEnd then end_ else hourEnd in
  let hoursUsedInThisSlot := GoTime.Hours (GoTime.Sub actualEnd actualStart) in
  if F64.leb hoursUsedInThisSlot (S754_zero false) then hourlyRequests
  else
    let callsThisHour := F64.mul callsPerHour hoursUsedInThisSlot in
    let agentsNeeded :=
      F64.to_int (F64.ceil
        (F64.div (F64.mul callsThisHour (F64.of_int (AverageCallDurationSeconds cd)))
                 (F64.of_int 3600))) in
    let utilizationMultiplier := F64.div (F64.of_int 1) utilization in
    let agentsNeeded :=
      F64.to_int (F64.ceil (F64.mul (F64.of_int agentsNeeded) utilizationMultiplier)) in
    let localTime :=
      match cdLocation cd with
      | Some l => GoTime.In t l
      | None => t
      end in
    let h := GoTime.Hour_ localTime in
    alter (fun reqs => reqs ++
             [mkCustomerRequirement (CustomerName cd) agentsNeeded (cdLocation cd)
                (cdPriority cd)])
          (Z.to_nat h) hourlyRequests.

(** [for t := startHourBoundary; t.Before(endHourBoundary); t = t.Add(time.Hour)] *)
Fixpoint hourLoop (fuel : nat) (body : list (list CustomerRequirement) -> GoTime.Time ->
                                      list (list CustomerRequirement))
         (endHourBoundary : GoTime.Time)
         (hourlyRequests : list (list CustomerRequirement)) (t : GoTime.Time)
  : list (list CustomerRequirement) :=
  match fuel with
  | O => hourlyRequests
  | S fuel =>
      if GoTime.Before t endHourBoundary
      then hourLoop fuel body endHourBoundary (body hourlyRequests t)
                    (GoTime.Add t GoTime.Hour)
      else hourlyRequests
  end.

(** the number of rounds [hourLoop] makes between two instants *)
Definition hourCount (t endHourBoundary : GoTime.Time) : nat :=
  Z.to_nat ((GoTime.unixNano endHourBoundary - GoTime.unixNano t + GoTime.Hour - 1)
              `div` GoTime.Hour).

(** [end] after the overnight adjustment *)
Definition normalizedEnd (cd : CallData) : GoTime.Time :=
  if GoTime.Before (EndTime cd) (StartTime cd)
  then GoTime.Add (EndTime cd) (24 * GoTime.Hour)
  else EndTime cd.

Definition startHourBoundary (cd : CallData) : GoTime.Time :=
  let start := StartTime cd in
  GoTime.Date (GoTime.Year start) (GoTime.Month start) (GoTime.Day start)
              (GoTime.Hour_ start) 0 0 0 (GoTime.Location_ start).

Definition endHourBoundary (cd : CallData) : GoTime.Time :=
  let end_ := normalizedEnd cd in
  let endHourBoundary :=
    GoTime.Date (GoTime.Year end_) (GoTime.Month end_) (GoTime.Day end_)
                (GoTime.Hour_ end_) 0 0 0 (GoTime.Location_ end_) in
  (* If end time has minutes/seconds, we need to include that hour too *)
  if GoTime.After end_ endHourBoundary
  then GoTime.Add endHourBoundary GoTime.Hour
  else endHourBoundary.

(** The body of [for _, cd := range data]. *)
Definition recordStep (utilization : F64.float64)
           (hourlyRequests : list (list CustomerRequirement)) (cd : CallData)
  : list (list CustomerRequirement) :=
  let start := StartTime cd in
  let end_ := normalizedEnd cd in
  let durationHours := GoTime.Hours (GoTime.Sub end_ start) in
  if F64.leb durationHours (S754_zero false) then hourlyRequests
  else
    let callsPerHour := F64.div (F64.of_int (NumberOfCalls cd)) durationHours in
    hourLoop (hourCount (startHourBoundary cd) (endHourBoundary cd))
             (hourStep cd utilization start end_ callsPerHour)
             (endHourBoundary cd) hourlyRequests (startHourBoundary cd).

(** The first half of [GenerateSchedule]: the 24 buckets before any
    capacity constraint. *)
Definition hourlyRequestsOf (data : list CallData) (utilization : F64.float64)
  : list (list CustomerRequirement) :=
  foldl (recordStep utilization) (replicate 24 []) data.

(** One round of [for h := range 24] in the second half.  [hourlyRequests]
    and [schedule.HourlyRequirements] are one and the same slice, so the
    bucket is read from the schedule being built. *)
Definition capacityStep (capacityPerHour : Z) (schedule : Schedule) (h : nat) : Schedule :=
  let '(allocated, unmet) :=
    allocateWithConstraints (default [] (HourlyRequirements schedule !! h))
                            capacityPerHour in
  let hourly := <[h := allocated]> (HourlyRequirements schedule) in
  match unmet with
  | Some unmet =>
      mkSchedule hourly
        (UnmetDemands schedule ++
           [mkUnmetDemand (Z.of_nat h) (TotalDemand unmet) (AllocatedAgents unmet)
              (UnmetAgents unmet) (ImpactedClients unmet)])
  | None => mkSchedule hourly (UnmetDemands schedule)
  end.

Definition applyCapacity (hourlyRequests : list (list CustomerRequirement))
           (capacityPerHour : Z) : Schedule :=
  let schedule := mkSchedule hourlyRequests [] in
  (* Apply capacity constraints if capacityPerHour > 0 *)
  if capacityPerHour >? 0
  then foldl (capacityStep capacityPerHour) schedule (seq 0 24)
  else schedule.

Definition GenerateSchedule (data : list CallData) (utilization : F64.float64)
           (capacityPerHour : Z) : Schedule :=
  applyCapacity (hourlyRequestsOf data utilization) capacityPerHour.

End scheduler.

(* ===================================================================== *)
(** * Package [main]: what runs before the core                           *)
(* ===================================================================== *)

(** [main] checks its flags, reads and parses the input file, calls
    [scheduler.GenerateSchedule] and prints the schedule in the chosen
    format.  Opening and parsing the file is the parameter [readInput]
    (nothing when either fails); the metrics server and the final push of the
    metrics do not touch the schedule and are left out. *)

Module cli.
Import models.

Inductive outcome :=
| Exit (code : Z)                                   (* [os.Exit(code)] *)
| Printed (format : string) (schedule : Schedule).  (* the schedule was formatted and printed *)

Definition validFormats (format : string) : bool :=
  String.eqb format "text" || String.eqb format "json" || String.eqb format "csv".

Section Main.
Variable readInput : string -> option (list CallData).

Definition main (input format : string) (utilization : F64.float64) (capacity : Z)
  : outcome :=
  (* Validate required input flag *)
  if String.eqb input EmptyString then Exit 1
  (* Validate format enum *)
  else if negb (validFormats format) then Exit 1
  (* Validate utilization range:
     [if *utilization < 0 || *utilization > 1 { ...; os.Exit(1) }] *)
  else if F64.ltb utilization (F64.of_int 0) || F64.ltb (F64.of_int 1) utilization
  then Exit 1
  else
    match readInput input with
    | None => Exit 1
    | Some data =>
        Printed format (scheduler.GenerateSchedule data utilization capacity)
    end.
End Main.
End cli.

(* ===================================================================== *)
(** * Package [formatter]: the data every output format is made from      *)
(* ===================================================================== *)

(** [prepareScheduleData] and [processHour] turn a schedule into the
    per-hour data the text, JSON and CSV writers print.  The Go maps are
    finite maps; a [*LocationGroup] stored in a map is updated through the
    pointer, which is an update of the map entry.  A value of [None] stands
    for a run-time panic (an index out of range). *)

Module formatter.
Import models.

(** [LocationGroup] holds customer data for a location *)
Record LocationGroup := mkLocationGroup {
  lgTotal : Z;
  Customers : gmap string Z
}.

(** [UnmetDemandInfo] represents unmet demand for a specific hour *)
Record UnmetDemandInfo := mkUnmetDemandInfo {
  udiTotalDemand : Z;
  udiAllocatedAgents : Z;
  udiUnmetAgents : Z;
  udiImpactedClients : list ImpactedClient
}.

(** [HourlyData] groups requirements by location for an hour *)
Record HourlyData := mkHourlyData {
  hdHour : Z;
  hdTotal : Z;
  LocationData : gmap string LocationGroup;
  hdUnmetDemand : option UnmetDemandInfo
}.

(** [ScheduleData] holds prepared schedule data used by all formatters *)
Record ScheduleData := mkScheduleData {
  Hours : list HourlyData;
  UnmetByHour : gmap Z UnmetDemand
}.

(** [req.Location.String()]: the name of the zone; a nil [*Location]
    stands for UTC. *)
Definition locationString (l : option GoTime.Location) : string :=
  match l with
  | Some l => GoTime.locName l
  | None => "UTC"
  end.

(** The body of [for _, req := range requirements] in [processHour]. *)
Definition processStep (data : HourlyData) (req : CustomerRequirement) : HourlyData :=
  let locName := locationString (Location req) in
  let groups :=
    match LocationData data !! locName with
    | Some _ => LocationData data
    | None => <[locName := mkLocationGroup 0 ∅]> (LocationData data)
    end in
  (* data.LocationData[locName].Customers[req.Name] = req.AgentsNeeded *)
  let groups :=
    alter (fun g => mkLocationGroup (lgTotal g)
                      (<[Name req := AgentsNeeded req]> (Customers g)))
          locName groups in
  (* data.LocationData[locName].Total += req.AgentsNeeded *)
  let groups :=
    alter (fun g => mkLocationGroup (Int64.add (lgTotal g) (AgentsNeeded req))
                      (Customers g))
          locName groups in
  (* data.Total += req.AgentsNeeded *)
  mkHourlyData (hdHour data) (Int64.add (hdTotal data) (AgentsNeeded req)) groups
               (hdUnmetDemand data).

(** [processHour] groups requirements by location for a given hour *)
Definition processHour (schedule : Schedule) (hour : Z) : option HourlyData :=
  let data := mkHourlyData hour 0 ∅ None in
  if hour >=? Z.of_nat (length (HourlyRequirements schedule)) then Some data
  else
    (* requirements := schedule.HourlyRequirements[hour] *)
    if hour <? 0 then None
    else
      match HourlyRequirements schedule !! Z.to_nat hour with
      | Some requirements => Some (foldl processStep data requirements)
      | None => None
      end.

(** the copy of an impacted client made for the output *)
Definition copyClient (client : ImpactedClient) : ImpactedClient :=
  mkImpactedClient (icName client) (RequestedAgents client) (icAllocatedAgents client)
                   (icUnmetAgents client) (icPriority client).

Definition infoOf (unmet : UnmetDemand) : UnmetDemandInfo :=
  mkUnmetDemandInfo (TotalDemand unmet) (AllocatedAgents unmet) (UnmetAgents unmet)
                    (copyClient <$> ImpactedClients unmet).

(** [for i := range schedule.UnmetDemands
       { unmetByHour[schedule.UnmetDemands[i].Hour] = &schedule.UnmetDemands[i] }] *)
Definition unmetByHourOf (schedule : Schedule) : gmap Z UnmetDemand :=
  foldl (fun unmetByHour ud => <[Hour ud := ud]> unmetByHour) ∅ (UnmetDemands schedule).

(** One round of [for h := range 24] in [prepareScheduleData]. *)
Definition hourData (schedule : Schedule) (unmetByHour : gmap Z UnmetDemand) (h : nat)
  : option HourlyData :=
  match processHour schedule (Z.of_nat h) with
  | Some data =>
      (* Add unmet demand info if exists *)
      match unmetByHour !! Z.of_nat h with
      | Some unmet =>
          Some (mkHourlyData (hdHour data) (hdTotal data) (LocationData data)
                             (Some (infoOf unmet)))
      | None => Some data
      end
  | None => None
  end.

(** [prepareScheduleData] extracts and organizes schedule data for
    formatting *)
Definition prepareScheduleData (schedule : Schedule) : option ScheduleData :=
  let unmetByHour := unmetByHourOf schedule in
  match mapM (hourData schedule unmetByHour) (seq 0 24) with
  | Some hours => Some (mkScheduleData hours unmetByHour)
  | None => None
  end.

End formatter.

(* ===================================================================== *)
(** * Packages [errors] and [parser]: reading the input                   *)
(* ===================================================================== *)

(** The sentinel errors of [errors/errors.go]. *)
Module errors.

Inductive sentinel :=
| ErrInvalidFieldCount
| ErrInvalidDuration
| ErrInvalidStartTime
| ErrInvalidEndTime
| ErrInvalidNumberOfCalls
| ErrInvalidPriority
| ErrEmptyRecord.

(** [ParseError] wraps a specific error with context about where it
    occurred; [Err] is a sentinel, alone or wrapped around the error the
    library reported ([fmt.Errorf] with the verb for wrapping). *)
Record ParseError (cause : Type) := mkParseError {
  Line : Z;
  Record_ : list string;
  Err : sentinel;
  Cause : option cause
}.
Arguments mkParseError {cause}.
Arguments Line {cause}.
Arguments Record_ {cause}.
Arguments Err {cause}.
Arguments Cause {cause}.

(** [func (e *ParseError) Unwrap() error] *)
Definition Unwrap {cause} (e : ParseError cause) : sentinel * option cause :=
  (Err e, Cause e).

End errors.

(** More of package [time], for the parser. *)
Module GoClock.
Import GoTime.

Definition Minute (t : Time) : Z := (wallSec t `mod` 3600) `div` 60.
Definition Second_ (t : Time) : Z := wallSec t `mod` 60.
Definition Nanosecond (t : Time) : Z := unixNano t `mod` Second.

(** [time.Time{}]: January 1, year 1, 00:00:00 UTC *)
Definition zeroTime : Time := mkTime (-62135596800 * Second) UTC.

End GoClock.

(** [Parse] reads the records a [csv.Reader] delivers; the reader, the zone
    database ([time.LoadLocation]), the clock ([time.Now]) and the
    conversions of package [strings], [strconv] and [time] are parameters:
    what is said of [Parse] holds whatever they do.  The input is the
    sequence of results of [reader.Read()] up to the end of the file, each a
    record or an error; the clock is the sequence of the instants that
    successive calls of [time.Now] return. *)
Module parser.
Import models errors.

Section Parse.
Variable libError : Type.
Variable LoadLocation : string -> libError + GoTime.Location.
Variable TrimSpace : string -> string.
Variable Atoi : string -> libError + Z.
Variable ParseInLocation : string -> string -> GoTime.Location -> libError + GoTime.Time.
Variable Now : nat -> GoTime.Time.

(** [strings.HasPrefix] and [strings.TrimPrefix] *)
Definition HasPrefix (s prefix : string) : bool := String.prefix prefix s.

Definition TrimPrefix (s prefix : string) : string :=
  if HasPrefix s prefix
  then String.substring (String.length prefix) (String.length s - String.length prefix) s
  else s.

Definition getTimezoneLocation (code : string) : libError + GoTime.Location :=
  let code := TrimSpace code in
  (* First, try common US timezone abbreviations *)
  if String.eqb code "PT" then LoadLocation "America/Los_Angeles"
  else if String.eqb code "ET" then LoadLocation "America/New_York"
  else if String.eqb code "CT" then LoadLocation "America/Chicago"
  else if String.eqb code "MT" then LoadLocation "America/Denver"
  else if String.eqb code "UTC" then inr GoTime.UTC
  else
    (* If not a known abbreviation, try to load it as a full IANA timezone name *)
    match LoadLocation code with
    | inr loc => inr loc
    | inl _ =>
        (* If that fails too, default to Pacific Time *)
        LoadLocation "America/Los_Angeles"
    end.

(** The loop of [parseTime] over the layouts, [now] being read already;
    the error is [None] for Go's [nil]. *)
Fixpoint parseTimeLoop (value : string) (layouts : list string) (loc : GoTime.Location)
         (now : GoTime.Time) (lastErr : option libError)
  : GoTime.Time * option libError :=
  match layouts with
  | [] => (GoClock.zeroTime, lastErr)
  | layout :: layouts =>
      match ParseInLocation layout value loc with
      | inr t =>
          (* Normalize to today's date *)
          (GoTime.Date (GoTime.Year now) (GoTime.Month now) (GoTime.Day now)
                       (GoTime.Hour_ t) (GoClock.Minute t) (GoClock.Second_ t)
                       (GoClock.Nanosecond t) loc,
           None)
      | inl err => parseTimeLoop value layouts loc now (Some err)
      end
  end.

(** [parseTime]; [clock] counts the calls of [time.Now] made so far. *)
Definition parseTime (value : string) (layouts : list string) (loc : GoTime.Location)
           (clock : nat) : GoTime.Time * option libError :=
  let now := GoTime.In (Now clock) loc in
  parseTimeLoop value layouts loc now None.

Inductive outcome :=
| Parsed (data : list CallData)
| LoadError (err : libError)                 (* "error loading location" *)
| ReadError (lineNum : Z) (err : libError)   (* "error reading CSV at line" *)
| RowError (err : ParseError libError).

Definition field (record : list string) (i : nat) : string :=
  default EmptyString (record !! i).

(** a record whose first field starts with the comment mark *)
Definition isHeader (record : list string) : bool :=
  (0 <? length record)%nat && HasPrefix (field record 0) "#".

(** the zone in force after a header record *)
Definition headerZone (record : list string) (loc : GoTime.Location) : GoTime.Location :=
  if (4 <=? length record)%nat then
    let headerTime := TrimSpace (field record 2) in
    if HasPrefix headerTime "StartTime" then
      let tzCode := TrimPrefix headerTime "StartTime" in
      match getTimezoneLocation tzCode with
      | inr newLoc => newLoc
      | inl _ => loc
      end
    else loc
  else loc.

Definition layouts : list string := ["3:04PM"; "3PM"].

(** The part of the loop body that turns a record of data into a
    [CallData]. *)
Definition parseRow (record : list string) (loc : GoTime.Location) (lineNum : Z)
           (clock : nat) : ParseError libError + CallData :=
  if negb (length record =? 6)%nat
  then inl (mkParseError lineNum record ErrInvalidFieldCount None)
  else
    let CustomerName := TrimSpace (field record 0) in
    match Atoi (TrimSpace (field record 1)) with
    | inl err => inl (mkParseError lineNum record ErrInvalidDuration (Some err))
    | inr AverageCallDurationSeconds =>
        match parseTime (TrimSpace (field record 2)) layouts loc clock with
        | (_, Some parseErr) =>
            inl (mkParseError lineNum record ErrInvalidStartTime (Some parseErr))
        | (StartTime, None) =>
            match parseTime (TrimSpace (field record 3)) layouts loc (S clock) with
            | (_, Some parseErr) =>
                inl (mkParseError lineNum record ErrInvalidEndTime (Some parseErr))
            | (EndTime, None) =>
                match Atoi (TrimSpace (field record 4)) with
                | inl err =>
                    inl (mkParseError lineNum record ErrInvalidNumberOfCalls (Some err))
                | inr NumberOfCalls =>
                    match Atoi (TrimSpace (field record 5)) with
                    | inl err =>
                        inl (mkParseError lineNum record ErrInvalidPriority (Some err))
                    | inr Priority =>
                        inr (mkCallData CustomerName AverageCallDurationSeconds
                                        StartTime EndTime (Some loc) NumberOfCalls
                                        Priority)
                    end
                end
            end
        end
    end.

(** [for { record, err := reader.Read(); lineNum++; ... }] *)
Fixpoint parseLoop (reads : list (libError + list string)) (loc : GoTime.Location)
         (data : list CallData) (lineNum : Z) (clock : nat) : outcome :=
  match reads with
  | [] => Parsed data
  | inl err :: _ => ReadError (lineNum + 1) err
  | inr record :: reads =>
      let lineNum := lineNum + 1 in
      if isHeader record
      then parseLoop reads (headerZone record loc) data lineNum clock
      else
        match parseRow record loc lineNum clock with
        | inl err => RowError err
        | inr cd => parseLoop reads loc (data ++ [cd]) lineNum (2 + clock)
        end
  end.

Definition Parse (reads : list (libError + list string)) : outcome :=
  (* Set default location to Pacific Time *)
  match LoadLocation "America/Los_Angeles" with
  | inl err => LoadError err
  | inr loc => parseLoop reads loc [] 0 0
  end.

End Parse.
End parser.

(* ===================================================================== *)
(** * Vocabulary of the statements                                        *)
(* ===================================================================== *)

Module props.
Import models.

(** the exact (unbounded) sum of the agents of a list *)
Definition sumAgents (l : list CustomerRequirement) : Z :=
  foldr (fun r acc => AgentsNeeded r + acc) 0 l.

(** how far the negative entries of a list (negative call counts produce
    them) can push a running remainder upwards *)
Definition negLoad (l : list CustomerRequirement) : Z :=
  foldr (fun r acc => Z.max 0 (- AgentsNeeded r) + acc) 0 l.

(** the [ImpactedClient] recorded for a request that receives nothing *)
Definition fullyUnmet (req : CustomerRequirement) : ImpactedClient :=
  mkImpactedClient (Name req) (AgentsNeeded req) 0 (AgentsNeeded req) (Priority req).

Definition impactedOf (unmet : option UnmetDemand) : list ImpactedClient :=
  from_option ImpactedClients [] unmet.

(** [unmetDemand?.unmetAgents ?? 0] for the record of hour [h] *)
Definition unmetAgentsAt (s : Schedule) (h : nat) : Z :=
  match List.find (fun ud => Hour ud =? Z.of_nat h) (UnmetDemands s) with
  | Some ud => UnmetAgents ud
  | None => 0
  end.

Definition bucket (hourly : list (list CustomerRequirement)) (h : nat)
  : list CustomerRequirement :=
  default [] (hourly !! h).

(** an [ImpactedClient] and an [UnmetDemand] whose figures add up *)
Definition impactedExact (ic : ImpactedClient) : Prop :=
  icUnmetAgents ic = RequestedAgents ic - icAllocatedAgents ic.

Definition unmetExact (ud : UnmetDemand) : Prop :=
  UnmetAgents ud = TotalDemand ud - AllocatedAgents ud /\
  Forall impactedExact (ImpactedClients ud).

(** non-decreasing priorities *)
Definition byPriority (l : list CustomerRequirement) : Prop :=
  forall i j x y, (i < j)%nat -> l !! i = Some x -> l !! j = Some y ->
                  Priority x <= Priority y.

(** the requests of priority [p] are all served in full: the entries of
    priority [p] of the allocated list are those requests, with the agents
    they asked for, and nothing else *)
Definition servedInFull (p : Z) (requests allocated : list CustomerRequirement) : Prop :=
  filter (fun a => Priority a = p) allocated ≡ₚ filter (fun r => Priority r = p) requests.

(** the zone the hours of a record are labelled in: its [Location], or,
    without one, the zone of its start time *)
Definition homeZone (cd : CallData) : GoTime.Location :=
  from_option id (GoTime.loc (StartTime cd)) (cdLocation cd).

(** In zone [l] the clocks go forward by an hour at the instant [T]
    (Unix seconds), from the offset [offset], on the hour; no other change
    of offset within 23 hours. *)
Definition springForwardAt (l : GoTime.Location) (T offset : Z) : Prop :=
  (forall sec, T - 82800 <= sec < T -> GoTime.offsetAt l sec = offset) /\
  (forall sec, T <= sec < T + 82800 -> GoTime.offsetAt l sec = offset + 3600) /\
  (T + offset) `mod` 3600 = 0.

(** the hour the clocks skip: the one that would have started at [T] *)
Definition skippedHour (T offset : Z) : nat :=
  Z.to_nat (((T + offset) `mod` 86400) `div` 3600).

(** every bucket of [after] is the bucket of [before] followed by
    entries that satisfy [P] *)
Definition addsOnly (P : CustomerRequirement -> Prop)
           (before after : list (list CustomerRequirement)) : Prop :=
  Forall2 (fun old new => exists added, new = old ++ added /\ Forall P added)
          before after.

(** ** The shape of an allocation *)

(** what a request that is served in part leaves in the allocated list
    and in the list of impacted clients, when [given] agents were left *)
Definition partlyServed (req : CustomerRequirement) (given : Z) : CustomerRequirement :=
  mkCustomerRequirement (Name req) given (Location req) (Priority req).

Definition partlyUnmet (req : CustomerRequirement) (given : Z) : ImpactedClient :=
  mkImpactedClient (Name req) (AgentsNeeded req) given
                   (Int64.sub (AgentsNeeded req) given) (Priority req).

(** requests for a number of agents that is an [int] and not negative *)
Definition nonNegative (l : list CustomerRequirement) : Prop :=
  Forall (fun r => 0 <= AgentsNeeded r <= Int64.max_int) l.

(** the entries a record contributes carry its name, zone and priority *)
Definition entryOf (cd : CallData) (r : CustomerRequirement) : Prop :=
  Name r = CustomerName cd /\ Location r = cdLocation cd /\ Priority r = cdPriority cd.

(** ** The hours of a window *)

(** an instant on a full second that its zone's wall clock shows as a
    full hour *)
Definition onTheHour (t : GoTime.Time) : Prop :=
  GoTime.unixNano t `mod` GoTime.Second = 0 /\ GoTime.wallSec t `mod` 3600 = 0.

(** a zone whose offset never changes *)
Definition fixedZone (l : GoTime.Location) : Prop := GoTime.transitions l = [].

(** the clock hours, in the home zone, of the hours the walk over a
    record goes through: consecutive hours from that of the first hour
    boundary, one for each hour up to the last boundary *)
Definition hoursTouched (cd : CallData) : list nat :=
  (fun k => Z.to_nat ((GoTime.Hour_ (GoTime.In (scheduler.startHourBoundary cd) (homeZone cd))
                       + Z.of_nat k) `mod` 24))
    <$> seq 0 (scheduler.hourCount (scheduler.startHourBoundary cd)
                                   (scheduler.endHourBoundary cd)).

(** ** What the formatter groups *)

(** the entries of a bucket in the zone named [n], and those of them for
    the customer [c] *)
Definition atLocation (n : string) (b : list CustomerRequirement)
  : list CustomerRequirement :=
  filter (fun r => formatter.locationString (Location r) = n) b.

Definition ofCustomer (c : string) (b : list CustomerRequirement)
  : list CustomerRequirement :=
  filter (fun r => Name r = c) b.

(** the unmet-demand records of a schedule for hour [h] *)
Definition unmetOfHour (s : Schedule) (h : Z) : list UnmetDemand :=
  filter (fun ud => Hour ud = h) (UnmetDemands s).

(** ** What the parser delivers *)

(** a record of data, not a comment or header line *)
Definition isData (record : list string) : Prop := parser.isHeader record = false.

(** the times of a record are instants in the zone of the record *)
Definition inItsZone (cd : CallData) : Prop :=
  exists l, cdLocation cd = Some l /\ GoTime.loc (StartTime cd) = l /\
            GoTime.loc (EndTime cd) = l.

(** the zone codes [getTimezoneLocation] knows by itself *)
Definition zoneAbbreviations : list string := ["PT"; "ET"; "CT"; "MT"; "UTC"].

(** the date and the time of day an instant shows in its zone *)
Definition dateOf (t : GoTime.Time) : Z * Z * Z :=
  (GoTime.Year t, GoTime.Month t, GoTime.Day t).

Definition clockOf (t : GoTime.Time) : Z * Z * Z * Z :=
  (GoTime.Hour_ t, GoClock.Minute t, GoClock.Second_ t, GoClock.Nanosecond t).

(** the agents the loop body asks for when a record with [callsPerHour]
    calls an hour uses [d] of an hour slot: the two roundings *)
Definition agentsFor (cd : CallData) (utilization callsPerHour : F64.float64)
           (d : GoTime.Duration) : Z :=
  let callsThisHour := F64.mul callsPerHour (GoTime.Hours d) in
  let agentsNeeded :=
    F64.to_int (F64.ceil
      (F64.div (F64.mul callsThisHour (F64.of_int (AverageCallDurationSeconds cd)))
               (F64.of_int 3600))) in
  F64.to_int (F64.ceil (F64.mul (F64.of_int agentsNeeded)
                                (F64.div (F64.of_int 1) utilization))).

(** what a record asks for in an hour that lies within its window *)
Definition fullHourAgents (cd : CallData) (utilization : F64.float64) : Z :=
  agentsFor cd utilization
    (F64.div (F64.of_int (NumberOfCalls cd))
             (GoTime.Hours (GoTime.Sub (scheduler.normalizedEnd cd) (StartTime cd))))
    GoTime.Hour.

(** the entries of each priority are in [output] in the order they have
    in [input] *)
Definition keepsTies (input output : list CustomerRequirement) : Prop :=
  forall p, filter (fun r => Priority r = p) output = filter (fun r => Priority r = p) input.

End props.

(* ===================================================================== *)
(** * What the proofs keep track of                                       *)
(* ===================================================================== *)

Module invariants.
Import models scheduler props.

(** ** Allocation *)

Definition needsInRange (l : list CustomerRequirement) : Prop :=
  Forall (fun r => Int64.in_range (AgentsNeeded r)) l.

Definition bucketsInRange (hourly : list (list CustomerRequirement)) : Prop :=
  Forall needsInRange hourly.

(** The three outcomes of a step, in the exact integers. *)
Inductive stepCase (st : allocState) (req : CustomerRequirement) (st' : allocState) : Prop :=
| stepUnmet :
    remaining st <= 0 ->
    st' = mkAllocState (allocated st) (impactedClients st ++ [fullyUnmet req]) (remaining st) ->
    stepCase st req st'
| stepFull :
    0 < remaining st -> AgentsNeeded req <= remaining st ->
    st' = mkAllocState (allocated st ++ [req]) (impactedClients st)
                       (remaining st - AgentsNeeded req) ->
    stepCase st req st'
| stepPartial :
    0 < remaining st < AgentsNeeded req ->
    st' = mkAllocState
            (allocated st ++
               [mkCustomerRequirement (Name req) (remaining st) (Location req) (Priority req)])
            (impactedClients st ++
               [mkImpactedClient (Name req) (AgentsNeeded req) (remaining st)
                  (AgentsNeeded req - remaining st) (Priority req)])
            0 ->
    stepCase st req st'.

(** the record hour [h] contributes to [UnmetDemands] *)
Definition unmetRecord (capacity : Z) (hourly : list (list CustomerRequirement)) (h : nat)
  : option UnmetDemand :=
  (fun unmet => mkUnmetDemand (Z.of_nat h) (TotalDemand unmet) (AllocatedAgents unmet)
                  (UnmetAgents unmet) (ImpactedClients unmet))
    <$> (allocateWithConstraints (bucket hourly h) capacity).2.

(** ** Output *)

(** what [prepareScheduleData] makes of hour [h] *)
Definition preparedHour (schedule : Schedule) (h : nat) : formatter.HourlyData :=
  formatter.mkHourlyData
    (Z.of_nat h)
    (totalDemandOf (bucket (HourlyRequirements schedule) h))
    (formatter.LocationData
       (foldl formatter.processStep (formatter.mkHourlyData (Z.of_nat h) 0 ∅ None)
              (bucket (HourlyRequirements schedule) h)))
    (formatter.infoOf <$> last (unmetOfHour schedule (Z.of_nat h))).

(** ** Floats *)

(** [x] is a zero or a finite float of magnitude below [2^B] *)
Definition below (B : Z) (x : spec_float) : Prop :=
  match x with
  | S754_zero _ => True
  | S754_finite _ m e => Zdigits2 (Zpos m) + e <= B
  | _ => False
  end.

(** [x] is positive, of magnitude [2^(L-1)] at least (an infinity
    included) *)
Definition positiveAbove (L : Z) (x : spec_float) : Prop :=
  match x with
  | S754_finite false m e => L <= Zdigits2 (Zpos m) + e
  | S754_infinity false => True
  | _ => False
  end.

(** ** Sorting by an integer key *)

(** ** The sign of a float *)

(** a float with the sign bit [s]; a zero or a NaN counts for either *)
Definition signIs (s : bool) (x : spec_float) : Prop :=
  match x with
  | S754_zero _ | S754_nan => True
  | S754_infinity s' | S754_finite s' _ _ => s' = s
  end.

(** not above zero: a zero, a negative number, minus infinity; or a NaN *)
Definition notPositive (x : spec_float) : Prop := signIs true x.

(** not below zero: a zero, a positive number, plus infinity; or a NaN *)
Definition notNegative (x : spec_float) : Prop := signIs false x.

(** what the test [x <= 0] is false for: a positive number, plus
    infinity, or a NaN *)
Definition aboveZero (x : spec_float) : Prop :=
  match x with
  | S754_zero _ => False
  | S754_nan => True
  | S754_infinity s | S754_finite s _ _ => s = false
  end.

Section Keyed.
Context {A : Type}.
Variable key : A -> Z.

Definition ltKey (x y : A) : bool := key x <? key y.

(** the key at an index *)
Definition K (data : list A) (i : nat) : Z := from_option key 0 (data !! i).

Definition sortedRange (data : list A) (a b : nat) : Prop :=
  forall i j, (a <= i)%nat -> (i <= j)%nat -> (j < b)%nat -> K data i <= K data j.

(** [data'] is [data] with the range [a, b) permuted *)
Definition within (a b : nat) (data data' : list A) : Prop :=
  length data' = length data /\
  (forall i, (i < a \/ b <= i)%nat -> data' !! i = data !! i) /\
  data' ≡ₚ data.

(** the element just below a range is not above any element of it: what
    [pdqsort] knows of every range to the right of a pivot *)
Definition lowBound (data : list A) (a b : nat) : Prop :=
  (0 < a)%nat -> forall k, (a <= k < b)%nat -> K data (a - 1) <= K data k.

(** node [i] of the heap laid out from index [first] is not below its
    children, as far as they lie under [hi] *)
Definition heapAt (data : list A) (first hi i : nat) : Prop :=
  ((2 * i + 1 < hi)%nat -> K data (first + (2 * i + 1)) <= K data (first + i)) /\
  ((2 * i + 2 < hi)%nat -> K data (first + (2 * i + 2)) <= K data (first + i)).

End Keyed.

End invariants.

(* ===================================================================== *)
(** * Inputs used as examples                                             *)
(* ===================================================================== *)

Module examples.
Import models GoTime.

(** America/New_York around 2024: EST until 2024-03-10 07:00 UTC, EDT
    until 2024-11-03 06:00 UTC, EST again. *)
Definition NewYork : Location :=
  mkLocation "America/New_York" (-14400)
    [(1699164000, -18000); (1710054000, -14400);
     (1730613600, -18000); (1741503600, -14400)].

Definition utilization1 : F64.float64 := F64.of_int 1.

(** the two records of [TestGenerateSchedule_PriorityAndCapacity], on
    2024-05-01 *)
Definition highPriority : CallData :=
  mkCallData "HighPriority" 3600
    (Date 2024 5 1 10 0 0 0 UTC) (Date 2024 5 1 11 0 0 0 UTC) (Some UTC) 10 1.

Definition lowPriority : CallData :=
  mkCallData "LowPriority" 3600
    (Date 2024 5 1 10 0 0 0 UTC) (Date 2024 5 1 11 0 0 0 UTC) (Some UTC) 10 2.

(** the record of the test case [DST_SpringForward] *)
Definition springForward : CallData :=
  mkCallData "SpringForwardTest" 3600
    (Date 2024 3 10 1 0 0 0 NewYork) (Date 2024 3 10 4 0 0 0 NewYork) (Some NewYork) 6 1.

(** 1:59AM to 1:58AM on the day the clocks go forward: the end is before
    the start, so it is moved 24 hours on, to 2:58AM of the next day *)
Definition aroundTheClock : CallData :=
  mkCallData "AroundTheClock" 3600
    (Date 2024 3 10 1 59 0 0 NewYork) (Date 2024 3 10 1 58 0 0 NewYork) (Some NewYork) 24 1.

(** a record with a negative call count *)
Definition negativeCalls : CallData :=
  mkCallData "Negative" 3600
    (Date 2024 5 1 10 0 0 0 UTC) (Date 2024 5 1 11 0 0 0 UTC) (Some UTC) (-10) 1.

(** a record with no calls *)
Definition noCalls : CallData :=
  mkCallData "Idle" 3600
    (Date 2024 5 1 9 30 0 0 UTC) (Date 2024 5 1 11 0 0 0 UTC) (Some UTC) 0 1.

(** three records for the hour from 10:00, with call counts far beyond
    any real load, the first of them negative *)
Definition credit : CallData :=
  mkCallData "Credit" 3600
    (Date 2024 5 1 10 0 0 0 UTC) (Date 2024 5 1 11 0 0 0 UTC) (Some UTC) (- 2 ^ 62) 1.

Definition bulk : CallData :=
  mkCallData "Bulk" 3600
    (Date 2024 5 1 10 0 0 0 UTC) (Date 2024 5 1 11 0 0 0 UTC) (Some UTC) (2 ^ 62) 2.

Definition bulkier : CallData :=
  mkCallData "Bulkier" 3600
    (Date 2024 5 1 10 0 0 0 UTC) (Date 2024 5 1 11 0 0 0 UTC) (Some UTC) (3 * 2 ^ 61) 3.

(** three requests for one hour *)
Definition threeRequests : list CustomerRequirement :=
  [mkCustomerRequirement "A" 10 None 1;
   mkCustomerRequirement "B" 10 None 2;
   mkCustomerRequirement "C" 4 None 3].

(** thirteen requests of one agent each: "A" of priority 2, then "B" to
    "M" of priority 1 *)
Definition thirteenRequests : list CustomerRequirement :=
  [mkCustomerRequirement "A" 1 None 2; mkCustomerRequirement "B" 1 None 1;
   mkCustomerRequirement "C" 1 None 1; mkCustomerRequirement "D" 1 None 1;
   mkCustomerRequirement "E" 1 None 1; mkCustomerRequirement "F" 1 None 1;
   mkCustomerRequirement "G" 1 None 1; mkCustomerRequirement "H" 1 None 1;
   mkCustomerRequirement "I" 1 None 1; mkCustomerRequirement "J" 1 None 1;
   mkCustomerRequirement "K" 1 None 1; mkCustomerRequirement "L" 1 None 1;
   mkCustomerRequirement "M" 1 None 1].

(** a zone database that knows Pacific Time only, conversions that accept
    everything, and a clock that stands still: enough to run the parser *)
Definition onlyPacific (name : string) : unit + Location :=
  if String.eqb name "America/Los_Angeles"
  then inr (mkLocation "America/Los_Angeles" (-28800) [])
  else inl tt.

Definition anyNumber (s : string) : unit + Z := inr 7.

Definition noon (layout value : string) (l : Location) : unit + Time :=
  inr (Date 0 1 1 12 0 0 0 l).

Definition epoch (n : nat) : Time := mkTime 0 UTC.

End examples.

(* ===================================================================== *)
(** * Facts on 64-bit integers                                            *)
(* ===================================================================== *)

Module Int64Facts.
Import Int64.

Lemma wrap_in_range z : in_range (wrap z).
Proof.
  unfold in_range, wrap, min_int, max_int, modulus.
  pose proof (Z.mod_pos_bound (z + 2 ^ 63) (2 ^ 64) ltac:(lia)). lia.
Qed.

Lemma wrap_id z : in_range z -> wrap z = z.
Proof.
  unfold in_range, wrap, min_int, max_int, modulus. intros H.
  rewrite Z.mod_small by lia. lia.
Qed.

Lemma wrap_add_l a b : wrap (wrap a + b) = wrap (a + b).
Proof.
  unfold wrap, modulus. f_equal.
  replace ((a + 2 ^ 63) mod 2 ^ 64 - 2 ^ 63 + b + 2 ^ 63)
    with ((a + 2 ^ 63) mod 2 ^ 64 + b) by lia.
  rewrite Zplus_mod_idemp_l. f_equal. lia.
Qed.

Lemma wrap_add_r a b : wrap (a + wrap b) = wrap (a + b).
Proof. rewrite (Z.add_comm a), wrap_add_l. f_equal. lia. Qed.

Lemma add_exact a b : in_range (a + b) -> add a b = a + b.
Proof. apply wrap_id. Qed.

Lemma sub_exact a b : in_range (a - b) -> sub a b = a - b.
Proof. apply wrap_id. Qed.

End Int64Facts.

(* ===================================================================== *)
(** * The allocation pass                                                 *)
(* ===================================================================== *)

Module AllocFacts.
Import models scheduler props invariants Int64Facts.

(** The sum the code computes is the exact sum, wrapped once. *)
Lemma totalDemand_from l acc :
  Int64.in_range acc ->
  foldl (fun totalDemand req => Int64.add totalDemand (AgentsNeeded req)) acc l
  = Int64.wrap (acc + sumAgents l).
Proof.
  revert acc. induction l as [|r l IH]; intros acc Hacc; simpl.
  - rewrite Z.add_0_r. symmetry. by apply wrap_id.
  - rewrite IH by apply wrap_in_range. unfold Int64.add.
    rewrite wrap_add_l. f_equal. lia.
Qed.

Lemma totalDemandOf_wrap l : totalDemandOf l = Int64.wrap (sumAgents l).
Proof.
  unfold totalDemandOf. rewrite totalDemand_from; [done |].
  unfold Int64.in_range, Int64.min_int, Int64.max_int. lia.
Qed.

Lemma totalDemandOf_in_range l : Int64.in_range (totalDemandOf l).
Proof. rewrite totalDemandOf_wrap. apply wrap_in_range. Qed.

Lemma sumAgents_app l k : sumAgents (l ++ k) = sumAgents l + sumAgents k.
Proof. induction l; simpl; lia. Qed.

Lemma negLoad_app l k : negLoad (l ++ k) = negLoad l + negLoad k.
Proof. induction l; simpl; lia. Qed.

Lemma negLoad_nonneg l : 0 <= negLoad l.
Proof. induction l; simpl; lia. Qed.

Lemma sumAgents_lower l : - negLoad l <= sumAgents l.
Proof. induction l; simpl; lia. Qed.

Lemma sumAgents_Permutation l k : l ≡ₚ k -> sumAgents l = sumAgents k.
Proof. induction 1; simpl; lia. Qed.

Lemma negLoad_Permutation l k : l ≡ₚ k -> negLoad l = negLoad k.
Proof. induction 1; simpl; lia. Qed.

Lemma totalDemandOf_Permutation l k : l ≡ₚ k -> totalDemandOf l = totalDemandOf k.
Proof. intros H. rewrite !totalDemandOf_wrap. f_equal. by apply sumAgents_Permutation. Qed.

(** *** One step *)

(** Once nothing remains, a step records the request as fully unmet. *)
Lemma allocStep_exhausted st req :
  remaining st <= 0 ->
  allocStep st req
  = mkAllocState (allocated st) (impactedClients st ++ [fullyUnmet req]) (remaining st).
Proof.
  intros H. unfold allocStep. destruct (Z.leb_spec (remaining st) 0); [done | lia].
Qed.

Lemma foldl_allocStep_exhausted l st :
  remaining st <= 0 ->
  foldl allocStep st l
  = mkAllocState (allocated st) (impactedClients st ++ (fullyUnmet <$> l)) (remaining st).
Proof.
  revert st. induction l as [|r l IH]; intros st H; simpl.
  - rewrite app_nil_r. by destruct st.
  - rewrite allocStep_exhausted by done. rewrite IH by done. simpl.
    by rewrite <- app_assoc.
Qed.

Lemma allocStep_cases st req :
  Int64.in_range (AgentsNeeded req) ->
  remaining st + Z.max 0 (- AgentsNeeded req) <= Int64.max_int ->
  stepCase st req (allocStep st req).
Proof.
  intros Hr Hb. unfold allocStep.
  destruct (Z.leb_spec (remaining st) 0) as [H0|H0].
  - by apply stepUnmet.
  - destruct (Z.geb_spec (remaining st) (AgentsNeeded req)) as [H1|H1].
    + apply stepFull; [done | lia |]. rewrite sub_exact; [done |].
      unfold Int64.in_range, Int64.min_int, Int64.max_int in *. lia.
    + apply stepPartial; [lia |]. rewrite sub_exact; [done |].
      unfold Int64.in_range, Int64.min_int, Int64.max_int in *. lia.
Qed.

(** *** The whole pass *)

(** What is handed out and what remains always add up to the capacity the
    pass started with; the pass either serves every request in full or
    ends with nothing left. *)
Lemma allocLoop_spec l st :
  needsInRange l ->
  0 <= remaining st ->
  remaining st + negLoad l <= Int64.max_int ->
  let st' := foldl allocStep st l in
  0 <= remaining st' /\
  sumAgents (allocated st') + remaining st' = sumAgents (allocated st) + remaining st /\
  ((impactedClients st' = impactedClients st /\ remaining st' = remaining st - sumAgents l) \/
   ((length (impactedClients st) < length (impactedClients st'))%nat /\ remaining st' = 0)).
Proof.
  revert st. induction l as [|r l IH]; intros st Hr H0 Hb; simpl.
  - split; [done |]. split; [done |]. left. split; [done | lia].
  - apply Forall_cons in Hr as [Hr Hl]. simpl in Hb.
    pose proof (negLoad_nonneg l) as Hn.
    destruct (allocStep_cases st r Hr ltac:(lia)) as [Hle Heq | Hpos Hle Heq | Hlt Heq].
    + rewrite Heq. rewrite foldl_allocStep_exhausted by (simpl; lia). simpl.
      split; [lia |]. split; [done |]. right.
      rewrite !length_app. simpl. split; lia.
    + rewrite Heq.
      match goal with |- context [foldl allocStep ?s l] => specialize (IH s Hl) end.
      simpl in IH. destruct IH as (I1 & I2 & I3); [lia | lia |].
      split; [done |]. split.
      * rewrite I2, sumAgents_app. simpl. lia.
      * destruct I3 as [[-> ->] | [? ->]]; [left | right]; split; try done; lia.
    + rewrite Heq. rewrite foldl_allocStep_exhausted by (simpl; lia). simpl.
      split; [lia |]. split.
      * rewrite sumAgents_app. simpl. lia.
      * right. rewrite !length_app. simpl. split; lia.
Qed.

(** Every record the pass adds has figures that add up exactly. *)
Lemma allocStep_impactedExact st req :
  Int64.in_range (AgentsNeeded req) ->
  Forall impactedExact (impactedClients st) ->
  Forall impactedExact (impactedClients (allocStep st req)).
Proof.
  intros Hr Hst. unfold allocStep.
  destruct (Z.leb_spec (remaining st) 0) as [H0|H0]; simpl.
  - apply Forall_app. split; [done |]. constructor; [|done].
    unfold impactedExact. simpl. lia.
  - destruct (Z.geb_spec (remaining st) (AgentsNeeded req)) as [H1|H1]; simpl; [done |].
    apply Forall_app. split; [done |]. constructor; [|done].
    unfold impactedExact. simpl. apply sub_exact.
    unfold Int64.in_range, Int64.min_int, Int64.max_int in *. lia.
Qed.

Lemma allocLoop_impactedExact l st :
  needsInRange l ->
  Forall impactedExact (impactedClients st) ->
  Forall impactedExact (impactedClients (foldl allocStep st l)).
Proof.
  revert st. induction l as [|r l IH]; intros st Hr Hst; simpl; [done |].
  apply Forall_cons in Hr as [Hr Hl]. apply IH; [done |].
  by apply allocStep_impactedExact.
Qed.

(** Where a record of the result comes from: the step that wrote it left
    nothing to allocate. *)
Lemma allocStep_impacted_new st req ic :
  ic ∈ impactedClients (allocStep st req) ->
  ic ∈ impactedClients st \/
  (icPriority ic = Priority req /\ remaining (allocStep st req) <= 0).
Proof.
  unfold allocStep.
  destruct (Z.leb_spec (remaining st) 0) as [H0|H0]; simpl.
  - intros [?| ->%list_elem_of_singleton]%elem_of_app; [by left | right]. simpl. lia.
  - destruct (Z.geb_spec (remaining st) (AgentsNeeded req)) as [H1|H1]; simpl.
    + by left.
    + intros [?| ->%list_elem_of_singleton]%elem_of_app; [by left | right]. simpl. lia.
Qed.

Lemma impacted_origin l st ic :
  ic ∈ impactedClients (foldl allocStep st l) ->
  ic ∈ impactedClients st \/
  exists l1 e l2, l = l1 ++ e :: l2 /\ icPriority ic = Priority e /\
                  remaining (foldl allocStep st (l1 ++ [e])) <= 0.
Proof.
  revert st. induction l as [|r l IH]; intros st Hin; simpl in *; [by left |].
  destruct (IH _ Hin) as [Hin' | (l1 & e & l2 & -> & Hp & Hrem)].
  - destruct (allocStep_impacted_new _ _ _ Hin') as [? | [Hp Hrem]]; [by left |].
    right. exists [], r, l. done.
  - right. exists (r :: l1), e, l2. done.
Qed.

(** Priorities are copied, never invented. *)
Lemma allocLoop_priorities (P : Z -> Prop) l st :
  Forall (fun r => P (Priority r)) l ->
  Forall (fun a => P (Priority a)) (allocated st) ->
  Forall (fun ic => P (icPriority ic)) (impactedClients st) ->
  Forall (fun a => P (Priority a)) (allocated (foldl allocStep st l)) /\
  Forall (fun ic => P (icPriority ic)) (impactedClients (foldl allocStep st l)).
Proof.
  revert st. induction l as [|r l IH]; intros st Hl Ha Hi; simpl; [done |].
  apply Forall_cons in Hl as [Hr Hl]. apply IH; [done | |]; unfold allocStep;
    destruct (remaining st <=? 0); simpl; try done;
    destruct (remaining st >=? AgentsNeeded r); simpl; try done;
    apply Forall_app; split; try done; by constructor.
Qed.

Lemma filter_none {A} (P : A -> Prop) `{forall x, Decision (P x)} (l : list A) :
  Forall (fun x => ~ P x) l -> filter P l = [].
Proof.
  induction 1 as [|x l Hx Hl IH]; [done |].
  rewrite filter_cons. by destruct (decide (P x)).
Qed.

Lemma byPriority_prefix l1 e l2 :
  byPriority (l1 ++ e :: l2) ->
  Forall (fun r => Priority r <= Priority e) (l1 ++ [e]) /\
  Forall (fun r => Priority e <= Priority r) l2.
Proof.
  intros Hs. split.
  - apply Forall_app. split; [|constructor; [lia | done]].
    apply Forall_lookup. intros i x Hi.
    apply (Hs i (length l1) x e).
    + by apply lookup_lt_Some in Hi.
    + by rewrite lookup_app_l by (by apply lookup_lt_Some in Hi).
    + by rewrite list_lookup_middle.
  - apply Forall_lookup. intros i x Hi.
    apply (Hs (length l1) (length l1 + S i)%nat e x); [lia | |].
    + by rewrite list_lookup_middle.
    + rewrite lookup_app_r by lia.
      replace (length l1 + S i - length l1)%nat with (S i) by lia. done.
Qed.

(** Priority monotonicity on a list in priority order: below the priority
    of any record of the result, everything allocated; above it, everything
    fully unmet. *)
Lemma shortfall_blocks sorted capacity ic :
  byPriority sorted ->
  let st := foldl allocStep (mkAllocState [] [] capacity) sorted in
  ic ∈ impactedClients st ->
  Forall (fun a => Priority a <= icPriority ic) (allocated st) /\
  filter (fun ic' => icPriority ic < icPriority ic') (impactedClients st)
  = fullyUnmet <$> filter (fun r => icPriority ic < Priority r) sorted.
Proof.
  intros Hs st Hin. subst st.
  destruct (impacted_origin _ _ _ Hin) as [Hin' | (l1 & e & l2 & -> & Hp & Hrem)].
  { simpl in Hin'. by apply elem_of_nil in Hin'. }
  destruct (byPriority_prefix _ _ _ Hs) as [Hpre Hpost].
  clear Hin Hs.
  replace (l1 ++ e :: l2) with ((l1 ++ [e]) ++ l2) by (by rewrite <- app_assoc).
  rewrite foldl_app.
  set (st1 := foldl allocStep (mkAllocState [] [] capacity) (l1 ++ [e])) in *.
  rewrite foldl_allocStep_exhausted by done. simpl.
  destruct (allocLoop_priorities (fun p => p <= Priority e) (l1 ++ [e])
              (mkAllocState [] [] capacity) Hpre) as [Ha Hi]; [constructor.. |].
  fold st1 in Ha, Hi. rewrite Hp. split; [done |].
  rewrite (filter_app _ (impactedClients st1)), (filter_app _ (l1 ++ [e]) l2).
  assert (filter (fun ic' => Priority e < icPriority ic') (impactedClients st1) = []) as ->.
  { apply filter_none. eapply Forall_impl; [exact Hi |]. simpl. lia. }
  assert (filter (fun r => Priority e < Priority r) (l1 ++ [e]) = []) as ->.
  { apply filter_none. eapply Forall_impl; [exact Hpre |]. simpl. lia. }
  simpl. clear. induction l2 as [|r l2 IH]; [done |].
  rewrite fmap_cons, !filter_cons. simpl.
  destruct (decide (Priority e < Priority r)); [rewrite fmap_cons|]; by rewrite IH.
Qed.

End AllocFacts.

(* ===================================================================== *)
(** * The 24 buckets and the capacity loop                                *)
(* ===================================================================== *)

Module AssembleFacts.
Import models scheduler props invariants Int64Facts AllocFacts.

(** *** The buckets [GenerateSchedule] builds *)

Lemma in_range_indefinite : Int64.in_range F64.int_indefinite.
Proof. split; by vm_compute. Qed.

Lemma in_range_0 : Int64.in_range 0.
Proof. split; by vm_compute. Qed.

Lemma to_int_in_range x : Int64.in_range (F64.to_int x).
Proof.
  destruct x as [| | |s m e]; simpl.
  - apply in_range_0.
  - apply in_range_indefinite.
  - apply in_range_indefinite.
  - match goal with |- context [if ?c then _ else _] => destruct c eqn:Hc end.
    + apply andb_prop in Hc as [H1%Z.leb_le H2%Z.leb_le]. by split.
    + apply in_range_indefinite.
Qed.

Lemma hourStep_length cd u start end_ cph hourly t :
  length (hourStep cd u start end_ cph hourly t) = length hourly.
Proof.
  unfold hourStep. destruct (F64.leb _ _); [done |]. by rewrite length_alter.
Qed.

Lemma alter_snoc_inRange (hourly : list (list CustomerRequirement)) i r :
  bucketsInRange hourly -> Int64.in_range (AgentsNeeded r) ->
  bucketsInRange (alter (fun reqs => reqs ++ [r]) i hourly).
Proof.
  intros Hh Hr. apply Forall_lookup. intros j b Hj.
  destruct (decide (i = j)) as [->|Hne].
  - rewrite list_lookup_alter_eq in Hj.
    destruct (hourly !! j) as [b0|] eqn:Hb; simplify_eq/=.
    apply Forall_app. split; [|by constructor].
    by eapply (Forall_lookup_1 _ _ _ _ Hh).
  - rewrite list_lookup_alter_ne in Hj by done.
    by eapply (Forall_lookup_1 _ _ _ _ Hh).
Qed.

Lemma hourStep_inRange cd u start end_ cph hourly t :
  bucketsInRange hourly -> bucketsInRange (hourStep cd u start end_ cph hourly t).
Proof.
  intros Hh. unfold hourStep. destruct (F64.leb _ _); [done |].
  apply alter_snoc_inRange; [done |]. simpl. apply to_int_in_range.
Qed.

Lemma hourLoop_invariant (P : list (list CustomerRequirement) -> Prop) body :
  (forall hourly t, P hourly -> P (body hourly t)) ->
  forall fuel e hourly t, P hourly -> P (hourLoop fuel body e hourly t).
Proof.
  intros Hbody. induction fuel as [|fuel IH]; intros e hourly t HP; simpl; [done |].
  destruct (GoTime.Before t e); [|done]. apply IH. by apply Hbody.
Qed.

Lemma recordStep_invariant (P : list (list CustomerRequirement) -> Prop) u :
  (forall cd start end_ cph hourly t, P hourly -> P (hourStep cd u start end_ cph hourly t)) ->
  forall hourly cd, P hourly -> P (recordStep u hourly cd).
Proof.
  intros Hstep hourly cd HP. unfold recordStep.
  destruct (F64.leb _ _); [done |].
  apply hourLoop_invariant; [|done]. intros. by apply Hstep.
Qed.

Lemma hourlyRequestsOf_invariant (P : list (list CustomerRequirement) -> Prop) u :
  (forall cd start end_ cph hourly t, P hourly -> P (hourStep cd u start end_ cph hourly t)) ->
  P (replicate 24 []) ->
  forall data, P (hourlyRequestsOf data u).
Proof.
  intros Hstep H0 data. unfold hourlyRequestsOf.
  generalize dependent (replicate 24 (@nil CustomerRequirement)).
  induction data as [|cd data IH]; intros hourly HP; simpl; [done |].
  apply IH. by apply recordStep_invariant.
Qed.

Lemma hourlyRequestsOf_length data u : length (hourlyRequestsOf data u) = 24%nat.
Proof.
  apply (hourlyRequestsOf_invariant (fun hourly => length hourly = 24%nat)); [|done].
  intros. by rewrite hourStep_length.
Qed.

Lemma hourlyRequestsOf_inRange data u : bucketsInRange (hourlyRequestsOf data u).
Proof.
  apply (hourlyRequestsOf_invariant bucketsInRange).
  - intros. by apply hourStep_inRange.
  - apply Forall_replicate. constructor.
Qed.

(** *** The capacity loop *)

Lemma capacityLoop_spec capacity hourly n :
  (n <= length hourly)%nat ->
  let s := foldl (capacityStep capacity) (mkSchedule hourly []) (seq 0 n) in
  HourlyRequirements s
  = ((fun b => (allocateWithConstraints b capacity).1) <$> take n hourly) ++ drop n hourly /\
  UnmetDemands s = omap (unmetRecord capacity hourly) (seq 0 n).
Proof.
  induction n as [|n IH]; intros Hn.
  - simpl. by rewrite drop_0.
  - cbv zeta. rewrite seq_S, foldl_snoc. change (0 + n)%nat with n.
    destruct IH as [IH1 IH2]; [lia |].
    set (s := foldl (capacityStep capacity) (mkSchedule hourly []) (seq 0 n)) in *.
    destruct (lookup_lt_is_Some_2 hourly n ltac:(lia)) as [b Hb].
    assert (HourlyRequirements s !! n = Some b) as Hsb.
    { rewrite IH1, lookup_app_r; rewrite length_fmap, length_take; [|lia].
      rewrite lookup_drop. replace (n `min` length hourly)%nat with n by lia.
      by replace (n + (n - n))%nat with n by lia. }
    unfold capacityStep. rewrite Hsb. simpl.
    rewrite omap_app. simpl.
    unfold unmetRecord at 2. unfold bucket. rewrite Hb. simpl.
    destruct (allocateWithConstraints b capacity) as [alloc unmet] eqn:Ha. simpl.
    assert (<[n := alloc]> (HourlyRequirements s)
            = ((fun b => (allocateWithConstraints b capacity).1) <$> take (S n) hourly)
                ++ drop (S n) hourly) as Hins.
    { rewrite IH1. rewrite (take_S_r _ _ _ Hb), fmap_app. simpl. rewrite Ha. simpl.
      rewrite <- app_assoc. simpl.
      rewrite insert_app_r_alt; rewrite length_fmap, length_take; [|lia].
      replace (n - n `min` length hourly)%nat with 0%nat by lia.
      rewrite (drop_S _ _ _ Hb). done. }
    destruct unmet as [unmet|]; simpl; rewrite Hins, IH2; [done |].
    by rewrite app_nil_r.
Qed.

Lemma find_app_first {A} (p : A -> bool) (l k : list A) :
  List.find p (l ++ k) = match List.find p l with Some x => Some x | None => List.find p k end.
Proof. induction l as [|x l IH]; simpl; [done |]. by destruct (p x). Qed.

Lemma find_unmetRecord capacity hourly n h :
  List.find (fun ud => Hour ud =? Z.of_nat h) (omap (unmetRecord capacity hourly) (seq 0 n))
  = if decide (h < n)%nat then unmetRecord capacity hourly h else None.
Proof.
  induction n as [|n IH]; [done |].
  rewrite seq_S, omap_app. simpl.
  rewrite find_app_first, IH.
  destruct (decide (h < n)%nat) as [Hlt|Hge].
  - destruct (decide (h < S n)%nat); [|lia].
    destruct (unmetRecord capacity hourly h) eqn:Hu; [done |].
    destruct (unmetRecord capacity hourly n) as [ud|] eqn:Hn; simpl; [|done].
    unfold unmetRecord in Hn.
    destruct (allocateWithConstraints _ _).2; simplify_eq/=.
    destruct (Z.eqb_spec (Z.of_nat n) (Z.of_nat h)); [lia | done].
  - destruct (unmetRecord capacity hourly n) as [ud|] eqn:Hn; simpl.
    + unfold unmetRecord in Hn.
      destruct (allocateWithConstraints _ _).2 eqn:Hal; simplify_eq/=.
      destruct (Z.eqb_spec (Z.of_nat n) (Z.of_nat h)) as [Heq|Hne].
      * assert (h = n) as -> by lia. destruct (decide (n < S n)%nat); [|lia].
        unfold unmetRecord. by rewrite Hal.
      * destruct (decide (h < S n)%nat); [lia | done].
    + destruct (decide (h < S n)%nat); [|done].
      assert (h = n) as -> by lia. by rewrite Hn.
Qed.

(** What [GenerateSchedule] returns for hour [h] when a capacity is set. *)
Lemma GenerateSchedule_constrained data u capacity h :
  0 < capacity -> (h < 24)%nat ->
  let hourly := hourlyRequestsOf data u in
  let s := GenerateSchedule data u capacity in
  bucket (HourlyRequirements s) h = (allocateWithConstraints (bucket hourly h) capacity).1 /\
  unmetAgentsAt s h
  = from_option UnmetAgents 0 (allocateWithConstraints (bucket hourly h) capacity).2 /\
  UnmetDemands s = omap (unmetRecord capacity hourly) (seq 0 24).
Proof.
  intros Hc Hh hourly s. subst s. unfold GenerateSchedule, applyCapacity. fold hourly.
  destruct (Z.gtb_spec capacity 0); [|lia].
  pose proof (hourlyRequestsOf_length data u) as Hlen. fold hourly in Hlen.
  destruct (capacityLoop_spec capacity hourly 24 ltac:(lia)) as [H1 H2].
  split; [|split; [|done]].
  - unfold bucket. rewrite H1.
    rewrite take_ge, drop_ge, app_nil_r by lia.
    rewrite list_lookup_fmap.
    destruct (lookup_lt_is_Some_2 hourly h ltac:(lia)) as [b ->]. done.
  - unfold unmetAgentsAt. rewrite H2, find_unmetRecord.
    destruct (decide (h < 24)%nat); [|lia].
    unfold unmetRecord. by destruct (allocateWithConstraints _ _).2.
Qed.

Lemma GenerateSchedule_unconstrained data u capacity :
  capacity <= 0 ->
  GenerateSchedule data u capacity = mkSchedule (hourlyRequestsOf data u) [].
Proof.
  intros Hc. unfold GenerateSchedule, applyCapacity.
  destruct (Z.gtb_spec capacity 0); [lia | done].
Qed.

End AssembleFacts.

(* ===================================================================== *)
(** * [sort.Slice] sorts                                                  *)
(* ===================================================================== *)

(** The order handed to [sort.Slice] compares an integer key of the
    elements.  Every routine of the sort changes the slice by exchanges
    inside the range [a, b) it is called on, and [pdqsort] leaves that range
    in order. *)

Module SortFacts.
Import GoSort invariants.

Section Keyed.
Context {A : Type}.
Variable key : A -> Z.

Local Abbreviation ltKey := (ltKey key).
Local Abbreviation K := (K key).
Local Abbreviation Less := (GoSort.Less ltKey).
Local Abbreviation Swap := (@GoSort.Swap A).
Local Abbreviation within := (@within A).
Local Abbreviation sortedRange := (sortedRange key).

(** *** Exchanges *)

Lemma Less_K data i j :
  (i < length data)%nat -> (j < length data)%nat ->
  Less data i j = (K data i <? K data j).
Proof.
  intros Hi Hj. unfold GoSort.Less, K.
  destruct (lookup_lt_is_Some_2 data i Hi) as [x ->].
  destruct (lookup_lt_is_Some_2 data j Hj) as [y ->]. done.
Qed.

Lemma Swap_length data i j : length (Swap data i j) = length data.
Proof.
  unfold GoSort.Swap. destruct (data !! i), (data !! j); try done.
  by rewrite !length_insert.
Qed.

Lemma Swap_lookup data i j k :
  (i < length data)%nat -> (j < length data)%nat ->
  Swap data i j !! k
  = if decide (k = j) then data !! i else if decide (k = i) then data !! j else data !! k.
Proof.
  intros Hi Hj. unfold GoSort.Swap.
  destruct (lookup_lt_is_Some_2 data i Hi) as [x Hx].
  destruct (lookup_lt_is_Some_2 data j Hj) as [y Hy]. rewrite Hx, Hy.
  destruct (decide (k = j)) as [->|Hkj].
  - by rewrite list_lookup_insert_eq by (by rewrite length_insert).
  - rewrite list_lookup_insert_ne by done.
    destruct (decide (k = i)) as [->|Hki].
    + by rewrite list_lookup_insert_eq.
    + by rewrite list_lookup_insert_ne.
Qed.

Lemma K_Swap data i j k :
  (i < length data)%nat -> (j < length data)%nat ->
  K (Swap data i j) k
  = if decide (k = j) then K data i else if decide (k = i) then K data j else K data k.
Proof.
  intros Hi Hj. unfold K. rewrite Swap_lookup by done.
  by repeat case_decide.
Qed.

Lemma insert_Permutation (l : list A) j x y :
  l !! j = Some y -> y :: <[j := x]> l ≡ₚ x :: l.
Proof.
  revert j. induction l as [|z l IH]; intros [|j] Hj; simplify_eq/=.
  - apply Permutation_swap.
  - rewrite (Permutation_swap z y), (IH j Hj). apply Permutation_swap.
Qed.

Lemma Swap_Permutation data i j : Swap data i j ≡ₚ data.
Proof.
  unfold GoSort.Swap.
  destruct (data !! i) as [x|] eqn:Hx; [|done].
  destruct (data !! j) as [y|] eqn:Hy; [|done].
  revert i j Hx Hy. induction data as [|z l IH]; intros [|i] [|j] Hx Hy; simplify_eq/=.
  - done.
  - by apply insert_Permutation.
  - by apply insert_Permutation.
  - by rewrite IH.
Qed.

(** *** Ranges *)

Lemma within_refl a b data : within a b data data.
Proof. done. Qed.

Lemma within_trans a b l1 l2 l3 :
  within a b l1 l2 -> within a b l2 l3 -> within a b l1 l3.
Proof.
  intros (L1 & F1 & P1) (L2 & F2 & P2). split; [congruence |]. split.
  - intros i Hi. rewrite F2, F1; done.
  - by rewrite P2.
Qed.

Lemma within_weaken a b a' b' l1 l2 :
  (a' <= a)%nat -> (b <= b')%nat -> within a b l1 l2 -> within a' b' l1 l2.
Proof.
  intros Ha Hb (L & F & P). split; [done |]. split; [|done].
  intros i Hi. apply F. lia.
Qed.

Lemma within_Swap a b data i j :
  (a <= i < b)%nat -> (a <= j < b)%nat -> (b <= length data)%nat ->
  within a b data (Swap data i j).
Proof.
  intros Hi Hj Hb. split; [apply Swap_length |]. split; [|apply Swap_Permutation].
  intros k Hk. rewrite Swap_lookup by lia. repeat case_decide; try lia. done.
Qed.

Lemma within_K a b l1 l2 i :
  within a b l1 l2 -> (i < a \/ b <= i)%nat -> K l2 i = K l1 i.
Proof. intros (_ & F & _) Hi. unfold K. by rewrite F. Qed.

Lemma within_length a b l1 l2 : within a b l1 l2 -> length l2 = length l1.
Proof. by intros (L & _). Qed.

(** the elements of the range stay the same, up to their order *)
Lemma within_sub a b l1 l2 :
  within a b l1 l2 -> (a <= b)%nat ->
  take (b - a) (drop a l2) ≡ₚ take (b - a) (drop a l1).
Proof.
  intros (L & F & P) Hab.
  assert (take a l2 = take a l1) as Ht.
  { apply list_eq. intros i. rewrite !lookup_take.
    case_decide; [|done]. apply F. lia. }
  assert (drop b l2 = drop b l1) as Hd.
  { apply list_eq. intros i. rewrite !lookup_drop. apply F. lia. }
  assert (forall l : list A, l = take a l ++ take (b - a) (drop a l) ++ drop b l) as Hsplit.
  { intros l. rewrite <- (take_drop a l) at 1. f_equal.
    rewrite <- (take_drop (b - a) (drop a l)) at 1. f_equal.
    rewrite drop_drop. f_equal. lia. }
  rewrite (Hsplit l1), (Hsplit l2), Ht, Hd in P.
  apply Permutation_app_inv_l in P. by apply Permutation_app_inv_r in P.
Qed.

Lemma K_range_elem a b l i :
  (a <= i < b)%nat -> (b <= length l)%nat ->
  exists x, x ∈ take (b - a) (drop a l) /\ K l i = key x.
Proof.
  intros Hi Hb. destruct (lookup_lt_is_Some_2 l i ltac:(lia)) as [x Hx].
  exists x. split; [|by unfold K; rewrite Hx].
  apply list_elem_of_lookup. exists (i - a)%nat.
  rewrite lookup_take_lt by lia. rewrite lookup_drop.
  by replace (a + (i - a))%nat with i by lia.
Qed.

Lemma elem_range_K a b l x :
  x ∈ take (b - a) (drop a l) -> exists i, (a <= i < b)%nat /\ K l i = key x.
Proof.
  intros (i & Hi)%list_elem_of_lookup.
  apply lookup_take_Some in Hi as [Hi Hlt]. rewrite lookup_drop in Hi.
  exists (a + i)%nat. split; [lia |]. by unfold K; rewrite Hi.
Qed.

Lemma within_rangeAll (P : Z -> Prop) a b l1 l2 :
  within a b l1 l2 -> (a <= b <= length l1)%nat ->
  (forall i, (a <= i < b)%nat -> P (K l1 i)) ->
  forall i, (a <= i < b)%nat -> P (K l2 i).
Proof.
  intros Hw Hab HP i Hi.
  destruct (K_range_elem a b l2 i Hi) as (x & Hx & ->).
  { rewrite (within_length _ _ _ _ Hw). lia. }
  rewrite (within_sub _ _ _ _ Hw) in Hx by lia.
  destruct (elem_range_K _ _ _ _ Hx) as (j & Hj & <-). by apply HP.
Qed.

(** a smaller range inside: the rest of the outer range is untouched *)
Lemma within_rangeAll_out (P : Z -> Prop) a b a' b' l1 l2 :
  within a b l1 l2 ->
  (b <= a' \/ b' <= a)%nat ->
  (forall i, (a' <= i < b')%nat -> P (K l1 i)) ->
  forall i, (a' <= i < b')%nat -> P (K l2 i).
Proof.
  intros Hw Hd HP i Hi. rewrite (within_K _ _ _ _ _ Hw) by lia. by apply HP.
Qed.

Lemma sortedRange_out a b a' b' l1 l2 :
  within a b l1 l2 -> (b <= a' \/ b' <= a)%nat ->
  sortedRange l1 a' b' -> sortedRange l2 a' b'.
Proof.
  intros Hw Hd Hs i j Hi Hij Hj.
  rewrite !(within_K _ _ _ _ _ Hw) by lia. by apply Hs.
Qed.

(** *** Insertion sort *)

(** [insertDown a j] sinks the element at [j] into the ordered run below
    it; the run above [j] stays in place. *)
Lemma insertDown_spec a i j data :
  (a <= j <= i)%nat -> (i < length data)%nat ->
  sortedRange data a j -> sortedRange data j (S i) ->
  (forall p q, (a <= p < j)%nat -> (j < q <= i)%nat -> K data p <= K data q) ->
  within a (S j) data (insertDown ltKey a j data) /\
  sortedRange (insertDown ltKey a j data) a (S i).
Proof.
  revert data. induction j as [|j IH]; intros data Haj Hi Hlo Hhi Hcross; simpl.
  - split; [done |]. assert (a = 0)%nat as -> by lia. done.
  - destruct (a <? S j)%nat eqn:Ha; simpl.
    + apply Nat.ltb_lt in Ha. rewrite Less_K by lia.
      destruct (Z.ltb_spec (K data (S j)) (K data j)) as [Hlt|Hge].
      * destruct (IH (Swap data (S j) j)) as [Hw Hs].
        -- lia.
        -- by rewrite Swap_length.
        -- intros p q ? ? ?. rewrite !K_Swap by lia.
           repeat case_decide; try lia. apply Hlo; lia.
        -- intros p q ? ? ?. rewrite !K_Swap by lia.
           repeat case_decide; try lia.
           ++ apply Hhi; lia.
           ++ apply Hcross; lia.
           ++ apply Hhi; lia.
        -- intros p q ? ?. rewrite !K_Swap by lia.
           repeat case_decide; try lia.
           ++ apply Hlo; lia.
           ++ apply Hcross; lia.
        -- split; [|done].
           eapply within_trans; [apply (within_Swap a (S (S j)) data (S j) j); lia |].
           eapply within_weaken; [| |exact Hw]; lia.
      * split; [done |]. intros p q Hp Hpq Hq.
        destruct (decide (q <= j)%nat); [apply Hlo; lia |].
        destruct (decide (S j <= p)%nat); [apply Hhi; lia |].
        destruct (decide (q = S j)) as [->|].
        -- transitivity (K data j); [apply Hlo; lia | lia].
        -- apply Hcross; lia.
    + apply Nat.ltb_ge in Ha. split; [done |].
      assert (a = S j) as -> by lia. done.
Qed.

Lemma insertionSort_from a n data :
  (a + n < length data)%nat ->
  let data' := foldl (fun data i => insertDown ltKey a i data) data (seq (a + 1) n) in
  within a (a + 1 + n) data data' /\ sortedRange data' a (a + 1 + n).
Proof.
  induction n as [|n IH]; intros Hn.
  - simpl. split; [done |]. intros i j ? ? ?. assert (i = j) as -> by lia. lia.
  - cbv zeta in *. rewrite seq_S, foldl_snoc.
    destruct IH as [Hw Hs]; [lia |].
    set (d := foldl _ data (seq (a + 1) n)) in *.
    destruct (insertDown_spec a (a + 1 + n) (a + 1 + n) d) as [Hw' Hs'].
    + lia.
    + rewrite (within_length _ _ _ _ Hw). lia.
    + done.
    + intros i j ? ? ?. assert (i = j) as -> by lia. lia.
    + intros; lia.
    + split.
      * eapply within_trans; [eapply within_weaken; [| |exact Hw]; lia |].
        eapply within_weaken; [| |exact Hw']; lia.
      * replace (a + 1 + S n)%nat with (S (a + 1 + n)) by lia. done.
Qed.

Lemma insertionSort_spec a b data :
  (a <= b <= length data)%nat ->
  within a b data (insertionSort ltKey data a b) /\
  sortedRange (insertionSort ltKey data a b) a b.
Proof.
  intros Hab. unfold insertionSort.
  destruct (decide (b <= a + 1)%nat) as [Hle|Hgt].
  - replace (b - (a + 1))%nat with 0%nat by lia. simpl. split; [done |].
    intros i j ? ? ?. assert (i = j) as -> by lia. lia.
  - destruct (insertionSort_from a (b - (a + 1)) data ltac:(lia)) as [Hw Hs].
    replace (a + 1 + (b - (a + 1)))%nat with b in * by lia. done.
Qed.

(** Insertion sort only ever exchanges two neighbours whose keys differ:
    the elements of one key keep their order. *)
Lemma Swap_adjacent data j x y :
  data !! j = Some x -> data !! S j = Some y ->
  Swap data (S j) j = take j data ++ y :: x :: drop (S (S j)) data.
Proof.
  revert data. induction j as [|j IH]; intros [|z [|z' data]] Hx Hy; simplify_eq/=.
  - unfold GoSort.Swap. simpl. by rewrite drop_0.
  - specialize (IH (z' :: data) Hx Hy). unfold GoSort.Swap in *. simpl in *.
    rewrite Hx, Hy in *. simpl. by rewrite <- IH.
Qed.

Lemma Swap_adjacent_stable p data j :
  (S j < length data)%nat -> Less data (S j) j = true ->
  filter (fun x => key x = p) (Swap data (S j) j) = filter (fun x => key x = p) data.
Proof.
  intros Hj Hless.
  destruct (lookup_lt_is_Some_2 data j ltac:(lia)) as [x Hx].
  destruct (lookup_lt_is_Some_2 data (S j) Hj) as [y Hy].
  unfold GoSort.Less, ltKey in Hless. rewrite Hx, Hy in Hless. apply Z.ltb_lt in Hless.
  rewrite (Swap_adjacent _ _ _ _ Hx Hy).
  rewrite <- (take_drop_middle data j x Hx) at 3.
  rewrite (drop_S data y (S j) Hy).
  rewrite !filter_app, !filter_cons.
  destruct (decide (key y = p)), (decide (key x = p)); try done. lia.
Qed.

Lemma insertDown_stable p a j data :
  (j < length data)%nat ->
  filter (fun x => key x = p) (insertDown ltKey a j data)
  = filter (fun x => key x = p) data.
Proof.
  revert data. induction j as [|j IH]; intros data Hj; simpl; [done |].
  destruct ((a <? S j)%nat && Less data (S j) j) eqn:Hc; [|done].
  apply andb_prop in Hc as [_ Hless].
  rewrite IH by (rewrite Swap_length; lia).
  by apply Swap_adjacent_stable.
Qed.

Lemma insertDown_length a j data : length (insertDown ltKey a j data) = length data.
Proof.
  revert data. induction j as [|j IH]; intros data; simpl; [done |].
  destruct (_ && _); [|done]. by rewrite IH, Swap_length.
Qed.

Lemma insertionSort_stable p a b data :
  (b <= length data)%nat ->
  filter (fun x => key x = p) (insertionSort ltKey data a b)
  = filter (fun x => key x = p) data.
Proof.
  intros Hb. unfold insertionSort.
  assert (forall n s d, (s + n <= length d)%nat ->
            length (foldl (fun data i => insertDown ltKey a i data) d (seq s n)) = length d /\
            filter (fun x => key x = p)
                   (foldl (fun data i => insertDown ltKey a i data) d (seq s n))
            = filter (fun x => key x = p) d) as Hgen.
  { induction n as [|n IH]; intros s d Hn; simpl; [done |].
    destruct (IH (S s) (insertDown ltKey a s d)) as [IH1 IH2].
    { rewrite insertDown_length. lia. }
    rewrite IH1, IH2, insertDown_length. split; [done |].
    apply insertDown_stable. lia. }
  destruct (decide (a + 1 <= b)%nat).
  - apply Hgen. lia.
  - replace (b - (a + 1))%nat with 0%nat by lia. done.
Qed.

(** *** The scanning loops *)

Lemma scanUp_spec fuel p i j :
  (S j - i <= fuel)%nat ->
  (i <= scanUp fuel p i j)%nat /\
  ((i <= S j)%nat -> (scanUp fuel p i j <= S j)%nat) /\
  (forall k, (i <= k < scanUp fuel p i j)%nat -> p k = true) /\
  ((scanUp fuel p i j <= j)%nat -> p (scanUp fuel p i j) = false).
Proof.
  revert i. induction fuel as [|fuel IH]; intros i Hf; simpl.
  - split; [lia |]. split; [lia |]. split; [intros; lia | lia].
  - destruct (Nat.leb_spec i j) as [Hij|Hij]; simpl.
    + destruct (p i) eqn:Hp.
      * destruct (IH (S i) ltac:(lia)) as (I1 & I2 & I3 & I4).
        split; [lia |]. split; [lia |]. split; [|done].
        intros k Hk. destruct (decide (k = i)) as [->|]; [done |]. apply I3. lia.
      * split; [lia |]. split; [lia |]. split; [intros; lia | done].
    + split; [lia |]. split; [lia |]. split; [intros; lia | lia].
Qed.

Lemma scanDown_spec fuel p i j :
  (S j - i <= fuel)%nat -> (1 <= i)%nat ->
  (scanDown fuel p i j <= j)%nat /\
  ((i <= S j)%nat -> (i <= S (scanDown fuel p i j))%nat) /\
  (forall k, (scanDown fuel p i j < k <= j)%nat -> p k = true) /\
  ((i <= scanDown fuel p i j)%nat -> p (scanDown fuel p i j) = false).
Proof.
  revert j. induction fuel as [|fuel IH]; intros j Hf Hi; simpl.
  - split; [lia |]. split; [lia |]. split; [intros; lia | lia].
  - destruct (Nat.leb_spec i j) as [Hij|Hij]; simpl.
    + destruct (p j) eqn:Hp.
      * destruct (IH (pred j) ltac:(lia) Hi) as (I1 & I2 & I3 & I4).
        split; [lia |]. split; [lia |]. split; [|done].
        intros k Hk. destruct (decide (k = j)) as [->|]; [done |]. apply I3. lia.
      * split; [lia |]. split; [lia |]. split; [intros; lia | done].
    + split; [lia |]. split; [lia |]. split; [intros; lia | lia].
Qed.

(** *** [partition] *)

Lemma partitionLoop_spec fuel data a i j b p :
  (a < i)%nat -> (i <= S j)%nat -> (j < b)%nat -> (b <= length data)%nat ->
  (S j - i <= fuel)%nat ->
  K data a = p ->
  (forall k, (a < k < i)%nat -> K data k < p) ->
  (forall k, (j < k < b)%nat -> p <= K data k) ->
  let r := partitionLoop ltKey fuel data a i j in
  within (S a) b data r.1 /\ (a <= r.2 < b)%nat /\
  (forall k, (a < k <= r.2)%nat -> K r.1 k < p) /\
  (forall k, (r.2 < k < b)%nat -> p <= K r.1 k).
Proof.
  revert data i j.
  induction fuel as [|fuel IH]; intros data i j Hai Hij Hjb Hb Hf Hp Hlo Hhi; simpl.
  - repeat split; try done; try lia. intros k Hk. apply Hlo. lia.
  - destruct (scanUp_spec (S j - i) (fun i => Less data i a) i j ltac:(lia))
      as (U1 & U2 & U3 & U4).
    set (i1 := scanUp (S j - i) (fun i => Less data i a) i j) in *.
    destruct (scanDown_spec (S j - i1) (fun j => negb (Less data j a)) i1 j
                ltac:(lia) ltac:(lia)) as (D1 & D2 & D3 & D4).
    set (j1 := scanDown (S j - i1) (fun j => negb (Less data j a)) i1 j) in *.
    assert (forall k, (a < k < i1)%nat -> K data k < p) as Hlo1.
    { intros k Hk. destruct (decide (k < i)%nat); [apply Hlo; lia |].
      specialize (U3 k ltac:(lia)). rewrite Less_K in U3 by lia. lia. }
    assert (forall k, (j1 < k < b)%nat -> p <= K data k) as Hhi1.
    { intros k Hk. destruct (decide (j < k)%nat); [apply Hhi; lia |].
      specialize (D3 k ltac:(lia)). rewrite Less_K in D3 by lia.
      apply negb_true_iff in D3. lia. }
    specialize (U2 ltac:(lia)). specialize (D2 ltac:(lia)).
    destruct (Nat.ltb_spec j1 i1) as [Hlt|Hge]; simpl.
    + repeat split; try done; try lia. intros k Hk. apply Hlo1. lia.
    + specialize (U4 ltac:(lia)). specialize (D4 ltac:(lia)).
      rewrite Less_K in U4, D4 by lia. apply negb_false_iff in D4.
      assert (i1 < j1)%nat as Hlt.
      { destruct (decide (i1 = j1)) as [He|]; [|lia]. rewrite He in U4. lia. }
      destruct (IH (Swap data i1 j1) (S i1) (pred j1)) as (W & R & L & H).
      * lia.
      * lia.
      * lia.
      * by rewrite Swap_length.
      * lia.
      * rewrite K_Swap by lia. repeat case_decide; try lia.
      * intros k Hk. rewrite K_Swap by lia. repeat case_decide; try lia.
        apply Hlo1. lia.
      * intros k Hk. rewrite K_Swap by lia. repeat case_decide; try lia.
        apply Hhi1. lia.
      * split; [|done].
        eapply within_trans; [apply (within_Swap (S a) b data i1 j1); lia | done].
Qed.

Lemma partition_spec data a b pivot :
  (a <= pivot < b)%nat -> (b <= length data)%nat ->
  let r := partition ltKey data a b pivot in
  within a b data r.1.1 /\ (a <= r.1.2 < b)%nat /\
  K r.1.1 r.1.2 = K data pivot /\
  (forall k, (a <= k < r.1.2)%nat -> K r.1.1 k < K data pivot) /\
  (forall k, (r.1.2 < k < b)%nat -> K data pivot <= K r.1.1 k).
Proof.
  intros Hp Hb. unfold partition.
  pose proof (within_Swap a b data a pivot ltac:(lia) ltac:(lia) Hb) as W0.
  set (d0 := Swap data a pivot) in *.
  assert (length d0 = length data) as L0 by apply Swap_length.
  assert (K d0 a = K data pivot) as Hpa.
  { unfold d0. rewrite K_Swap by lia. repeat case_decide; congruence. }
  set (p := K data pivot) in *.
  destruct (scanUp_spec (S (b - 1) - (a + 1)) (fun i => Less d0 i a) (a + 1) (b - 1)
              ltac:(lia)) as (U1 & U2 & U3 & U4).
  set (i1 := scanUp _ _ (a + 1)%nat (b - 1)%nat) in *.
  destruct (scanDown_spec (S (b - 1) - i1) (fun j => negb (Less d0 j a)) i1 (b - 1)
              ltac:(lia) ltac:(lia)) as (D1 & D2 & D3 & D4).
  set (j1 := scanDown _ _ i1 (b - 1)%nat) in *.
  assert (forall k, (a < k < i1)%nat -> K d0 k < p) as Hlo1.
  { intros k Hk. specialize (U3 k ltac:(lia)). rewrite Less_K in U3 by lia. lia. }
  assert (forall k, (j1 < k < b)%nat -> p <= K d0 k) as Hhi1.
  { intros k Hk. specialize (D3 k ltac:(lia)). rewrite Less_K in D3 by lia.
    apply negb_true_iff in D3. lia. }
  specialize (U2 ltac:(lia)). specialize (D2 ltac:(lia)).
  destruct (Nat.ltb_spec j1 i1) as [Hlt|Hge]; simpl.
  - split; [|split; [lia | split; [|split]]].
    + eapply within_trans; [exact W0 |]. apply within_Swap; lia.
    + rewrite K_Swap by lia. repeat case_decide; try lia; congruence.
    + intros k Hk. rewrite K_Swap by lia. repeat case_decide; try lia.
      * apply Hlo1. lia.
      * apply Hlo1. lia.
    + intros k Hk. rewrite K_Swap by lia. repeat case_decide; try lia.
      apply Hhi1. lia.
  - specialize (U4 ltac:(lia)). specialize (D4 ltac:(lia)).
    rewrite Less_K in U4, D4 by lia. apply negb_false_iff in D4.
    assert (i1 < j1)%nat as Hlt.
    { destruct (decide (i1 = j1)) as [He|]; [|lia]. rewrite He in U4. lia. }
    pose proof (partitionLoop_spec (S j1 - i1) (Swap d0 i1 j1) a (S i1) (pred j1) b p)
      as HL.
    destruct (partitionLoop ltKey (S j1 - i1) (Swap d0 i1 j1) a (S i1) (pred j1))
      as [d3 j3] eqn:E.
    simpl in HL. destruct HL as (W & R & L & H).
    + lia.
    + lia.
    + lia.
    + by rewrite Swap_length, L0.
    + lia.
    + rewrite K_Swap by lia. repeat case_decide; try lia.
    + intros k Hk. rewrite K_Swap by lia. repeat case_decide; try lia.
      apply Hlo1. lia.
    + intros k Hk. rewrite K_Swap by lia. repeat case_decide; try lia.
      apply Hhi1. lia.
    + simpl.
      assert (length d3 = length data) as L3.
      { rewrite (within_length _ _ _ _ W), Swap_length. done. }
      assert (K d3 a = p) as Hpa3.
      { rewrite (within_K _ _ _ _ a W) by lia.
        rewrite K_Swap by lia. repeat case_decide; try lia. }
      split; [|split; [lia | split; [|split]]].
      * eapply within_trans; [exact W0 |].
        eapply within_trans; [apply (within_Swap a b d0 i1 j1); lia |].
        eapply within_trans; [eapply within_weaken; [| |exact W]; lia |].
        apply within_Swap; lia.
      * rewrite K_Swap by lia. repeat case_decide; try lia; congruence.
      * intros k Hk. rewrite K_Swap by lia. repeat case_decide; try lia.
        -- apply L. lia.
        -- apply L. lia.
      * intros k Hk. rewrite K_Swap by lia. repeat case_decide; try lia.
        apply H. lia.
Qed.

End Keyed.
End SortFacts.

Module SortFacts2.
Import GoSort invariants SortFacts.

Section Keyed.
Context {A : Type}.
Variable key : A -> Z.

Local Abbreviation ltKey := (ltKey key).
Local Abbreviation K := (K key).
Local Abbreviation Less := (GoSort.Less ltKey).
Local Abbreviation Swap := (@GoSort.Swap A).
Local Abbreviation within := (@within A).
Local Abbreviation sortedRange := (sortedRange key).

(** *** [partitionEqual] *)

Lemma partitionEqualLoop_spec fuel data a i j b p :
  (a < i)%nat -> (i <= S j)%nat -> (j < b)%nat -> (b <= length data)%nat ->
  (S j - i <= fuel)%nat ->
  K data a = p ->
  (forall k, (a < k < i)%nat -> K data k <= p) ->
  (forall k, (j < k < b)%nat -> p < K data k) ->
  let r := partitionEqualLoop ltKey fuel data a i j in
  within (S a) b data r.1 /\ (a < r.2 <= b)%nat /\
  (forall k, (a < k < r.2)%nat -> K r.1 k <= p) /\
  (forall k, (r.2 <= k < b)%nat -> p < K r.1 k).
Proof.
  revert data i j.
  induction fuel as [|fuel IH]; intros data i j Hai Hij Hjb Hb Hf Hp Hlo Hhi; simpl.
  - split; [done |]. split; [lia |]. split; [done |]. intros k Hk. apply Hhi. lia.
  - destruct (scanUp_spec (S j - i) (fun i => negb (Less data a i)) i j ltac:(lia))
      as (U1 & U2 & U3 & U4).
    set (i1 := scanUp (S j - i) (fun i => negb (Less data a i)) i j) in *.
    destruct (scanDown_spec (S j - i1) (fun j => Less data a j) i1 j
                ltac:(lia) ltac:(lia)) as (D1 & D2 & D3 & D4).
    set (j1 := scanDown (S j - i1) (fun j => Less data a j) i1 j) in *.
    assert (forall k, (a < k < i1)%nat -> K data k <= p) as Hlo1.
    { intros k Hk. destruct (decide (k < i)%nat); [apply Hlo; lia |].
      specialize (U3 k ltac:(lia)). rewrite (Less_K key) in U3 by lia.
      apply negb_true_iff in U3. lia. }
    assert (forall k, (j1 < k < b)%nat -> p < K data k) as Hhi1.
    { intros k Hk. destruct (decide (j < k)%nat); [apply Hhi; lia |].
      specialize (D3 k ltac:(lia)). rewrite (Less_K key) in D3 by lia. lia. }
    specialize (U2 ltac:(lia)). specialize (D2 ltac:(lia)).
    destruct (Nat.ltb_spec j1 i1) as [Hlt|Hge]; simpl.
    + split; [done |]. split; [lia |]. split; [done |].
      intros k Hk. apply Hhi1. lia.
    + specialize (U4 ltac:(lia)). specialize (D4 ltac:(lia)).
      rewrite (Less_K key) in U4, D4 by lia. apply negb_false_iff in U4.
      assert (i1 < j1)%nat as Hlt.
      { destruct (decide (i1 = j1)) as [He|]; [|lia]. rewrite He in U4. lia. }
      destruct (IH (Swap data i1 j1) (S i1) (pred j1)) as (W & R & L & H).
      * lia.
      * lia.
      * lia.
      * by rewrite Swap_length.
      * lia.
      * rewrite (K_Swap key) by lia. repeat case_decide; try lia.
      * intros k Hk. rewrite (K_Swap key) by lia. repeat case_decide; try lia.
        apply Hlo1. lia.
      * intros k Hk. rewrite (K_Swap key) by lia. repeat case_decide; try lia.
        apply Hhi1. lia.
      * split; [|done].
        eapply within_trans; [apply (within_Swap (S a) b data i1 j1); lia | done].
Qed.

Lemma partitionEqual_spec data a b pivot :
  (a <= pivot < b)%nat -> (b <= length data)%nat ->
  let r := partitionEqual ltKey data a b pivot in
  within a b data r.1 /\ (a < r.2 <= b)%nat /\
  (forall k, (a <= k < r.2)%nat -> K r.1 k <= K data pivot) /\
  (forall k, (r.2 <= k < b)%nat -> K data pivot < K r.1 k).
Proof.
  intros Hp Hb. unfold partitionEqual.
  pose proof (within_Swap a b data a pivot ltac:(lia) ltac:(lia) Hb) as W0.
  set (d0 := Swap data a pivot) in *.
  assert (length d0 = length data) as L0 by apply Swap_length.
  assert (K d0 a = K data pivot) as Hpa.
  { unfold d0. rewrite (K_Swap key) by lia. repeat case_decide; congruence. }
  destruct (partitionEqualLoop_spec (b - a) d0 a (a + 1) (b - 1) b (K data pivot))
    as (W & R & L & H); try lia; try done.
  split; [|split; [done | split; [|done]]].
  - eapply within_trans; [exact W0 |]. eapply within_weaken; [| |exact W]; lia.
  - intros k Hk. destruct (decide (k = a)) as [->|]; [|apply L; lia].
    rewrite (within_K key _ _ _ _ a W) by lia. lia.
Qed.

(** *** [reverseRange] and [breakPatterns] *)

Lemma reverseLoop_within fuel data a b i j :
  (a <= i)%nat -> (j < b)%nat -> (b <= length data)%nat ->
  within a b data (reverseLoop fuel data i j).
Proof.
  revert data i j. induction fuel as [|fuel IH]; intros data i j Hi Hj Hb; simpl; [done |].
  destruct (Nat.ltb_spec i j); [|done].
  eapply within_trans; [apply (within_Swap a b data i j); lia |].
  apply IH; [lia | lia |]. by rewrite Swap_length.
Qed.

Lemma reverseRange_within data a b :
  (a < b)%nat -> (b <= length data)%nat -> within a b data (reverseRange data a b).
Proof. intros. apply reverseLoop_within; lia. Qed.

Lemma bits_len_bound n : (0 < n)%nat -> 2 ^ Z.of_nat (bits_len n) <= 2 * Z.of_nat n.
Proof.
  intros Hn. unfold bits_len. destruct n as [|n]; [lia |].
  rewrite Nat.mul_1_r. rewrite Z2Nat.id by (pose proof (Z.log2_nonneg (Z.of_nat (S n))); lia).
  rewrite Z.pow_add_r by (try apply Z.log2_nonneg; lia).
  pose proof (Z.log2_spec (Z.of_nat (S n)) ltac:(lia)). lia.
Qed.

Lemma other_bound length random :
  (0 < length)%nat ->
  let other := Z.to_nat (Z.land random (nextPowerOfTwo length - 1)) in
  ((if (length <=? other)%nat then other - length else other) < length)%nat.
Proof.
  intros Hl. cbv zeta. unfold nextPowerOfTwo.
  rewrite Z.shiftl_1_l. change (2 ^ Z.of_nat (bits_len length) - 1)
    with (Z.pred (2 ^ Z.of_nat (bits_len length))).
  rewrite <- Z.ones_equiv, Z.land_ones by lia.
  pose proof (Z.mod_pos_bound random (2 ^ Z.of_nat (bits_len length)) ltac:(lia)).
  pose proof (bits_len_bound length Hl).
  destruct (Nat.leb_spec length (Z.to_nat (random `mod` 2 ^ Z.of_nat (bits_len length))));
    lia.
Qed.

Lemma breakPatterns_within data a b :
  (a <= b <= length data)%nat -> within a b data (breakPatterns data a b).
Proof.
  intros Hab. unfold breakPatterns.
  destruct (Nat.leb_spec 8 (b - a)) as [H8|]; [|done].
  set (step := fun (st : list A * Z) (i : nat) => _).
  assert (forall l st, Forall (fun i => (i < 3)%nat) l ->
            within a b data st.1 -> within a b data (foldl step st l).1) as Hgen.
  { induction l as [|i l IH]; intros [d r] Hl Hw; [done |].
    apply Forall_cons in Hl as [Hi Hl]. cbn [foldl]. apply IH; [done |].
    unfold step. cbn [fst snd] in *.
    eapply within_trans; [exact Hw |].
    pose proof (other_bound (b - a) (xorshift_next r) ltac:(lia)) as Ho. cbv zeta in Ho.
    assert ((b - a) / 4 * 4 <= (b - a))%nat.
    { pose proof (Nat.Div0.mul_div_le (b - a) 4). lia. }
    assert (2 <= (b - a) / 4)%nat.
    { apply (Nat.Div0.div_le_mono 8 (b - a) 4) in H8. by vm_compute in H8 |- *. }
    apply within_Swap; [lia | lia |].
    rewrite (within_length _ _ _ _ Hw). lia. }
  apply Hgen; [|done]. repeat constructor.
Qed.

(** *** [choosePivot] *)

Lemma order2_cases data x y swaps :
  (order2 ltKey data x y swaps).1 = (x, y) \/ (order2 ltKey data x y swaps).1 = (y, x).
Proof. unfold order2. destruct (Less data y x); auto. Qed.

Lemma median_cases data x y z swaps :
  (median ltKey data x y z swaps).1 = x \/ (median ltKey data x y z swaps).1 = y \/
  (median ltKey data x y z swaps).1 = z.
Proof.
  unfold median.
  destruct (order2_cases data x y swaps) as [E1|E1];
    destruct (order2 ltKey data x y swaps) as [[a1 b1] s1]; simpl in E1; simplify_eq;
    match goal with |- context [order2 ltKey data ?u ?v ?s] =>
      destruct (order2_cases data u v s) as [E2|E2];
      destruct (order2 ltKey data u v s) as [[b2 c2] s2]; simpl in E2; simplify_eq
    end;
    match goal with |- context [order2 ltKey data ?u ?v ?s] =>
      destruct (order2_cases data u v s) as [E3|E3];
      destruct (order2 ltKey data u v s) as [[a3 b3] s3]; simpl in E3; simplify_eq
    end; simpl; auto.
Qed.

Lemma choosePivot_range data a b :
  (8 <= b - a)%nat -> (a <= (choosePivot ltKey data a b).1 < b)%nat.
Proof.
  intros H8. unfold choosePivot.
  destruct (Nat.leb_spec 8 (b - a)) as [_|]; [|lia].
  assert ((b - a) / 4 * 4 <= (b - a))%nat as Hq.
  { pose proof (Nat.Div0.mul_div_le (b - a) 4). lia. }
  assert (2 <= (b - a) / 4)%nat as Hq2.
  { apply (Nat.Div0.div_le_mono 8 (b - a) 4) in H8. by vm_compute in H8 |- *. }
  set (q := ((b - a) / 4)%nat) in *.
  assert (forall i j k swaps, (a <= i < b)%nat -> (a <= j < b)%nat -> (a <= k < b)%nat ->
            (a <= (median ltKey data i j k swaps).1 < b)%nat) as Hmed.
  { intros i j k swaps Hi Hj Hk.
    destruct (median_cases data i j k swaps) as [->|[->| ->]]; done. }
  assert (forall (jp : nat * nat), (a <= jp.1 < b)%nat ->
            (a <= (if (jp.2 =? 0)%nat then (jp.1, increasingHint)
                   else if (jp.2 =? maxSwaps)%nat then (jp.1, decreasingHint)
                        else (jp.1, unknownHint)).1 < b)%nat) as Hfin.
  { intros [j s] Hj. simpl in *. destruct (s =? 0)%nat; [done |].
    by destruct (s =? maxSwaps)%nat. }
  destruct (shortestNinther <=? b - a)%nat eqn:H50.
  - apply Nat.leb_le in H50. unfold shortestNinther in H50.
    assert (12 <= q)%nat as Hq12.
    { apply (Nat.Div0.div_le_mono 50 (b - a) 4) in H50. fold q in H50.
      by vm_compute in H50 |- *. }
    unfold medianAdjacent.
    destruct (median ltKey data (a + q * 1 - 1) (a + q * 1) (a + q * 1 + 1) 0)
      as [i1 s1] eqn:E1.
    destruct (median ltKey data (a + q * 2 - 1) (a + q * 2) (a + q * 2 + 1) s1)
      as [j1 s2] eqn:E2.
    destruct (median ltKey data (a + q * 3 - 1) (a + q * 3) (a + q * 3 + 1) s2)
      as [k1 s3] eqn:E3.
    pose proof (Hmed (a + q * 1 - 1) (a + q * 1) (a + q * 1 + 1) 0 ltac:(lia) ltac:(lia)
                  ltac:(lia))%nat as M1. rewrite E1 in M1.
    pose proof (Hmed (a + q * 2 - 1) (a + q * 2) (a + q * 2 + 1) s1 ltac:(lia) ltac:(lia)
                  ltac:(lia))%nat as M2. rewrite E2 in M2.
    pose proof (Hmed (a + q * 3 - 1) (a + q * 3) (a + q * 3 + 1) s2 ltac:(lia) ltac:(lia)
                  ltac:(lia))%nat as M3. rewrite E3 in M3.
    simpl in M1, M2, M3.
    pose proof (Hmed i1 j1 k1 s3 M1 M2 M3) as M.
    destruct (median ltKey data i1 j1 k1 s3) as [j s] eqn:E. simpl in M.
    apply (Hfin (j, s)). done.
  - pose proof (Hmed (a + q * 1) (a + q * 2) (a + q * 3) 0 ltac:(lia) ltac:(lia)
                  ltac:(lia))%nat as M.
    destruct (median ltKey data (a + q * 1) (a + q * 2) (a + q * 3) 0) as [j s] eqn:E.
    simpl in M. apply (Hfin (j, s)). done.
Qed.

End Keyed.
End SortFacts2.

Module SortFacts3.
Import GoSort invariants SortFacts SortFacts2.

Section Keyed.
Context {A : Type}.
Variable key : A -> Z.

Local Abbreviation ltKey := (ltKey key).
Local Abbreviation K := (K key).
Local Abbreviation Less := (GoSort.Less ltKey).
Local Abbreviation Swap := (@GoSort.Swap A).
Local Abbreviation within := (@within A).
Local Abbreviation sortedRange := (sortedRange key).

Local Abbreviation lowBound := (lowBound key).

Lemma lowBound_within a b data data' :
  within a b data data' -> (a <= b <= length data)%nat ->
  lowBound data a b -> lowBound data' a b.
Proof.
  intros Hw Hab Hl Ha k Hk.
  rewrite (within_K key _ _ _ _ (a - 1) Hw) by lia.
  apply (within_rangeAll key (fun z => K data (a - 1) <= z) a b data data' Hw Hab); [|done].
  intros i Hi. by apply Hl.
Qed.

Lemma lowBound_shrink a b b' data :
  (b' <= b)%nat -> lowBound data a b -> lowBound data a b'.
Proof. intros Hb Hl Ha k Hk. apply Hl; lia. Qed.

(** *** [partialInsertionSort] *)

Lemma shiftLeft_insertDown a j data :
  (a <= j < length data)%nat -> lowBound data a (S j) ->
  shiftLeft ltKey j data = insertDown ltKey a j data.
Proof.
  revert data. induction j as [|j IH]; intros data Hj Hl; simpl; [done |].
  destruct (Nat.ltb_spec a (S j)) as [Ha|Ha]; simpl.
  - destruct (Less data (S j) j) eqn:Hless; [|done].
    apply IH; [rewrite Swap_length; lia |].
    intros Ha0 k Hk. rewrite !(K_Swap key) by lia.
    repeat case_decide; try lia; apply Hl; lia.
  - assert (a = S j) as -> by lia.
    rewrite (Less_K key) by lia.
    specialize (Hl ltac:(lia) (S j) ltac:(lia)).
    replace (S j - 1)%nat with j in Hl by lia.
    destruct (Z.ltb_spec (K data (S j)) (K data j)); [lia | done].
Qed.

Lemma shiftRight_within fuel j b i0 data :
  (i0 < j)%nat -> (b <= length data)%nat ->
  within i0 b data (shiftRight ltKey fuel j b data).
Proof.
  revert j data. induction fuel as [|fuel IH]; intros j data Hj Hb; simpl; [done |].
  destruct (Nat.ltb_spec j b); simpl; [|done].
  destruct (Less data j (j - 1)); [|done].
  eapply within_trans; [apply (within_Swap i0 b data j (j - 1)); lia |].
  apply IH; [lia |]. by rewrite Swap_length.
Qed.

Lemma sortedRange_extend data a i i1 :
  (a < i <= i1)%nat -> sortedRange data a i ->
  (forall k, (i <= k < i1)%nat -> K data (k - 1) <= K data k) ->
  sortedRange data a i1.
Proof.
  intros Hi Hs Hadj. induction i1 as [|i1 IH]; [lia |].
  destruct (decide (i = S i1)) as [<-|Hne]; [done |].
  assert (sortedRange data a i1) as Hs1 by (apply IH; [lia | intros; apply Hadj; lia]).
  intros p q Hp Hpq Hq.
  destruct (decide (q = i1)) as [->|]; [|apply Hs1; lia].
  destruct (decide (p = i1)) as [->|]; [lia |].
  transitivity (K data (i1 - 1)); [apply Hs1; lia | apply Hadj; lia].
Qed.

Lemma sortedRange_single data a : sortedRange data a (S a).
Proof. intros i j ? ? ?. assert (i = j) as -> by lia. lia. Qed.

Lemma partialInsertionSortLoop_spec steps data a b i :
  (a < i <= b)%nat -> (b <= length data)%nat ->
  lowBound data a b -> sortedRange data a i ->
  let r := partialInsertionSortLoop ltKey steps data a b i in
  within a b data r.1 /\ (r.2 = true -> sortedRange r.1 a b).
Proof.
  revert data i. induction steps as [|steps IH]; intros data i Hi Hb Hl Hs; simpl; [done |].
  destruct (scanUp_spec (b - i) (fun i => negb (Less data i (i - 1))) i (b - 1) ltac:(lia))
    as (U1 & U2 & U3 & U4).
  set (i1 := scanUp (b - i) _ i (b - 1)%nat) in *.
  specialize (U2 ltac:(lia)).
  assert (sortedRange data a i1) as Hs1.
  { apply (sortedRange_extend data a i i1); [lia | done |].
    intros k Hk. specialize (U3 k ltac:(lia)). rewrite (Less_K key) in U3 by lia.
    apply negb_true_iff in U3. lia. }
  destruct (Nat.eqb_spec i1 b) as [->|Hne]; [done |].
  destruct (b - a <? shortestShifting)%nat; [done |].
  set (d1 := Swap data i1 (i1 - 1)).
  assert (within a b data d1) as W1 by (apply within_Swap; lia).
  assert (length d1 = length data) as L1 by apply Swap_length.
  set (d2 := if (2 <=? i1 - a)%nat then shiftLeft ltKey (i1 - 1) d1 else d1).
  assert (within a i1 d1 d2 /\ sortedRange d2 a i1) as [W2 S2].
  { unfold d2. destruct (Nat.leb_spec 2 (i1 - a)).
    - rewrite (shiftLeft_insertDown a) by
        (first [lia | eapply lowBound_shrink; [|eapply lowBound_within; eauto]; lia]).
      destruct (insertDown_spec key a (i1 - 1) (i1 - 1) d1) as [Wd Sd]; try lia.
      + intros p q ? ? ?. unfold d1. rewrite !(K_Swap key) by lia.
        repeat case_decide; try lia. apply Hs1; lia.
      + intros p q ? ? ?. assert (p = q) as -> by lia. lia.
      + replace (S (i1 - 1)) with i1 in * by lia. done.
    - split; [done |]. assert (i1 = S a) as -> by lia. apply sortedRange_single. }
  set (d3 := if (2 <=? b - i1)%nat then shiftRight ltKey (b - i1) (i1 + 1) b d2 else d2).
  assert (within i1 b d2 d3) as W3.
  { unfold d3. destruct (2 <=? b - i1)%nat; [|done].
    apply shiftRight_within; [lia |]. rewrite (within_length _ _ _ _ W2). lia. }
  assert (within a b data d3) as W.
  { eapply within_trans; [exact W1 |].
    eapply within_trans; eapply within_weaken; try eassumption; lia. }
  destruct (IH d3 i1) as [W' S']; try lia.
  - rewrite (within_length _ _ _ _ W). lia.
  - eapply lowBound_within; [exact W | lia | done].
  - eapply sortedRange_out; [exact W3 | lia | done].
  - split; [by eapply within_trans | done].
Qed.

Lemma partialInsertionSort_spec data a b :
  (a < b <= length data)%nat -> lowBound data a b ->
  let r := partialInsertionSort ltKey data a b in
  within a b data r.1 /\ (r.2 = true -> sortedRange r.1 a b).
Proof.
  intros Hab Hl. apply partialInsertionSortLoop_spec; [lia | lia | done |].
  replace (a + 1)%nat with (S a) by lia. apply sortedRange_single.
Qed.

End Keyed.
End SortFacts3.

Module HeapFacts.
Import GoSort invariants SortFacts SortFacts2 SortFacts3.

Section Keyed.
Context {A : Type}.
Variable key : A -> Z.

Local Abbreviation ltKey := (ltKey key).
Local Abbreviation K := (K key).
Local Abbreviation Less := (GoSort.Less ltKey).
Local Abbreviation Swap := (@GoSort.Swap A).
Local Abbreviation within := (@within A).
Local Abbreviation sortedRange := (sortedRange key).

Local Abbreviation heapAt := (heapAt key).

Lemma siftDownLoop_spec fuel data root hi first lo :
  (first + hi <= length data)%nat -> (lo <= root)%nat -> (hi - root <= fuel)%nat ->
  (forall i, (lo <= i < hi)%nat -> i <> root -> heapAt data first hi i) ->
  (forall i c, (lo <= i < hi)%nat -> (root = 2 * i + 1 \/ root = 2 * i + 2)%nat ->
               (c = 2 * root + 1 \/ c = 2 * root + 2)%nat -> (c < hi)%nat ->
               K data (first + c) <= K data (first + i)) ->
  within first (first + hi) data (siftDownLoop ltKey fuel data root hi first) /\
  (forall i, (lo <= i < hi)%nat ->
             heapAt (siftDownLoop ltKey fuel data root hi first) first hi i).
Proof.
  revert data root.
  induction fuel as [|fuel IH]; intros data root Hlen Hlo Hfuel Hheap Hpar;
    cbn [siftDownLoop].
  - split; [done |]. intros i Hi. destruct (decide (i = root)) as [->|]; [lia |].
    by apply Hheap.
  - destruct (Nat.leb_spec hi (2 * root + 1)) as [Hnc|Hc].
    { split; [done |]. intros i Hi. destruct (decide (i = root)) as [->|]; [|by apply Hheap].
      split; lia. }
    set (c := if (2 * root + 1 + 1 <? hi)%nat &&
                 Less data (first + (2 * root + 1)) (first + (2 * root + 1) + 1)
              then (2 * root + 1 + 1)%nat else (2 * root + 1)%nat).
    assert ((c = 2 * root + 1 \/ c = 2 * root + 2)%nat /\ (c < hi)%nat /\
            K data (first + (2 * root + 1)) <= K data (first + c) /\
            ((2 * root + 2 < hi)%nat ->
             K data (first + (2 * root + 2)) <= K data (first + c))) as (Hc12 & Hchi & Hc1 & Hc2).
    { unfold c. destruct (Nat.ltb_spec (2 * root + 1 + 1) hi) as [H2|H2]; cbn [andb].
      - rewrite (Less_K key) by lia.
        replace (first + (2 * root + 1) + 1)%nat with (first + (2 * root + 2))%nat by lia.
        replace (2 * root + 1 + 1)%nat with (2 * root + 2)%nat by lia.
        destruct (Z.ltb_spec (K data (first + (2 * root + 1)))
                             (K data (first + (2 * root + 2)))).
        + split; [lia |]. split; [lia |]. split; lia.
        + split; [lia |]. split; [lia |]. split; lia.
      - split; [lia |]. split; [lia |]. split; lia. }
    clearbody c.
    rewrite (Less_K key) by lia.
    destruct (Z.ltb_spec (K data (first + root)) (K data (first + c))) as [Hlt|Hge];
      cbn [negb].
    + destruct (IH (Swap data (first + root) (first + c)) c) as [W Hh].
      * by rewrite Swap_length.
      * lia.
      * lia.
      * intros i Hi Hic. unfold heapAt. rewrite !(K_Swap key) by lia.
        destruct (decide (i = root)) as [->|Hir].
        -- repeat case_decide; try lia; split; intros; try lia;
             repeat match goal with
             | H : (first + _ = first + _)%nat |- _ => apply Nat.add_cancel_l in H
             end; subst; try lia.
        -- destruct (Hheap i Hi Hir) as [Hh1 Hh2].
           repeat case_decide; try lia; split; intros; try lia;
             try (apply Hh1; lia); try (apply Hh2; lia);
             apply (Hpar i c); lia.
      * intros i c' Hi Hic Hc' Hc'hi. assert (i = root) as -> by lia.
        rewrite !(K_Swap key) by lia. repeat case_decide; try lia.
        destruct (Hheap c ltac:(lia) ltac:(lia)) as [Hh1 Hh2].
        destruct Hc' as [-> | ->]; [apply Hh1 | apply Hh2]; lia.
      * split; [|done].
        eapply within_trans; [|exact W]. apply within_Swap; lia.
    + split; [done |]. intros i Hi.
      destruct (decide (i = root)) as [->|]; [|by apply Hheap].
      split; intros; [lia |]. specialize (Hc2 ltac:(lia)). lia.
Qed.

Lemma reverse_seq_S n : reverse (seq 0 (S n)) = n :: reverse (seq 0 n).
Proof. by rewrite seq_S, reverse_app. Qed.

Lemma buildHeap_spec n data hi first :
  (first + hi <= length data)%nat ->
  (forall i, (n <= i < hi)%nat -> heapAt data first hi i) ->
  let data' := foldl (fun data i => siftDown ltKey data i hi first) data
                     (reverse (seq 0 n)) in
  within first (first + hi) data data' /\
  (forall i, (i < hi)%nat -> heapAt data' first hi i).
Proof.
  revert data. induction n as [|n IH]; intros data Hlen Hheap; cbv zeta.
  - split; [done |]. intros i Hi. apply Hheap. lia.
  - rewrite reverse_seq_S. cbn [foldl].
    destruct (siftDownLoop_spec hi data n hi first n) as [W Hh]; try lia.
    + intros i Hi Hne. apply Hheap. lia.
    + fold (siftDown ltKey data n hi first) in *.
      destruct (IH (siftDown ltKey data n hi first)) as [W' Hh'].
      * rewrite (within_length _ _ _ _ W). lia.
      * done.
      * split; [by eapply within_trans | done].
Qed.

(** the root of a heap is its greatest element *)
Lemma heap_root_max data first m :
  (forall i, (i < m)%nat -> heapAt data first m i) ->
  forall j, (j < m)%nat -> K data (first + j) <= K data (first + 0).
Proof.
  intros Hheap j. induction j as [j IH] using lt_wf_ind. intros Hj.
  destruct j as [|j]; [lia |].
  pose proof (Nat.Div0.div_mod j 2) as Hdm.
  pose proof (Nat.mod_upper_bound j 2 ltac:(lia)) as Hm.
  set (p := (j / 2)%nat) in *.
  destruct (Hheap p ltac:(lia)) as [H1 H2].
  transitivity (K data (first + p)); [|apply IH; lia].
  destruct (decide (j `mod` 2 = 0)%nat).
  - replace (S j) with (2 * p + 1)%nat by lia. apply H1. lia.
  - replace (S j) with (2 * p + 2)%nat by lia. apply H2. lia.
Qed.

Lemma popHeap_spec m data hi first :
  (m <= hi)%nat -> (first + hi <= length data)%nat ->
  (forall i, (i < m)%nat -> heapAt data first m i) ->
  sortedRange data (first + m) (first + hi) ->
  (forall p q, (p < m)%nat -> (m <= q < hi)%nat ->
               K data (first + p) <= K data (first + q)) ->
  let data' := foldl (fun data i => siftDown ltKey (Swap data first (first + i)) 0 i first)
                     data (reverse (seq 0 m)) in
  within first (first + hi) data data' /\ sortedRange data' first (first + hi).
Proof.
  revert data. induction m as [|m IH]; intros data Hm Hlen Hheap Hsorted Hcross; cbv zeta.
  - split; [done |]. by replace (first + 0)%nat with first in Hsorted by lia.
  - rewrite reverse_seq_S. cbn [foldl].
    pose proof (heap_root_max data first (S m) Hheap) as Hmax.
    set (d1 := Swap data first (first + m)).
    assert (within first (first + hi) data d1) as W1 by (apply within_Swap; lia).
    assert (length d1 = length data) as L1 by apply Swap_length.
    assert (forall k, K d1 (first + k)
                      = if decide (k = m) then K data (first + 0)
                        else if decide (k = 0)%nat then K data (first + m)
                             else K data (first + k)) as Hd1.
    { intros k. unfold d1. rewrite (K_Swap key) by lia.
      replace (first + 0)%nat with first by lia.
      repeat case_decide; try lia; try done. }
    destruct (siftDownLoop_spec m d1 0 m first 0) as [W2 Hh2]; try lia.
    + intros i Hi Hne. destruct (Hheap i ltac:(lia)) as [H1 H2].
      unfold heapAt. rewrite !Hd1. repeat case_decide; try lia;
        try (split; intros; [apply H1 | apply H2]; lia).
    + fold (siftDown ltKey d1 0 m first) in *.
      set (d2 := siftDown ltKey d1 0 m first) in *.
      assert (forall k, (m <= k)%nat -> K d2 (first + k) = K d1 (first + k)) as Hd2.
      { intros k Hk. apply (within_K key _ _ _ _ _ W2). lia. }
      destruct (IH d2) as [W3 S3].
      * lia.
      * rewrite (within_length _ _ _ _ W2). lia.
      * intros i Hi. apply Hh2. lia.
      * intros p q Hp Hpq Hq.
        replace p with (first + (p - first))%nat by lia.
        replace q with (first + (q - first))%nat by lia.
        rewrite !Hd2, !Hd1 by lia. repeat case_decide; try lia.
        -- apply Hcross; lia.
        -- replace (first + (p - first))%nat with (first + S m + (p - first - S m))%nat
             by lia.
           replace (first + (q - first))%nat with (first + S m + (q - first - S m))%nat
             by lia.
           apply Hsorted; lia.
      * intros p q Hp Hq.
        assert (forall i, (first <= i < first + m)%nat -> K d1 i <= K d2 (first + q)) as Hb.
        { intros i Hi. replace i with (first + (i - first))%nat by lia.
          rewrite Hd2, !Hd1 by lia.
          repeat case_decide; try lia; first [apply Hmax; lia | apply Hcross; lia]. }
        apply (within_rangeAll key (fun z => z <= K d2 (first + q))
                 first (first + m) d1 d2 W2 ltac:(lia) Hb). lia.
      * split; [|done].
        eapply within_trans; [exact W1 |].
        eapply within_trans; [eapply within_weaken; [| |exact W2]; lia | done].
Qed.

Lemma heapSort_spec data a b :
  (a <= b <= length data)%nat ->
  within a b data (heapSort ltKey data a b) /\
  sortedRange (heapSort ltKey data a b) a b.
Proof.
  intros Hab. unfold heapSort.
  destruct (buildHeap_spec ((b - a - 1) / 2 + 1) data (b - a) a) as [W1 H1].
  - lia.
  - intros i Hi. pose proof (Nat.Div0.div_mod (b - a - 1) 2).
    pose proof (Nat.mod_upper_bound (b - a - 1) 2 ltac:(lia)).
    split; lia.
  - set (d1 := foldl _ data (reverse (seq 0 ((b - a - 1) / 2 + 1)))) in *.
    destruct (popHeap_spec (b - a) d1 (b - a) a) as [W2 S2].
    + lia.
    + rewrite (within_length _ _ _ _ W1). lia.
    + done.
    + intros p q; lia.
    + intros; lia.
    + replace (a + (b - a))%nat with b in * by lia.
      split; [by eapply within_trans | done].
Qed.

End Keyed.
End HeapFacts.

Module PdqFacts.
Import GoSort invariants SortFacts SortFacts2 SortFacts3 HeapFacts.

Section Keyed.
Context {A : Type}.
Variable key : A -> Z.

Local Abbreviation ltKey := (ltKey key).
Local Abbreviation K := (K key).
Local Abbreviation Less := (GoSort.Less ltKey).
Local Abbreviation Swap := (@GoSort.Swap A).
Local Abbreviation within := (@within A).
Local Abbreviation sortedRange := (sortedRange key).
Local Abbreviation lowBound := (lowBound key).

Lemma sorted_join data a mid b :
  sortedRange data a mid -> sortedRange data (S mid) b ->
  (forall k, (a <= k < mid)%nat -> K data k <= K data mid) ->
  (forall k, (mid < k < b)%nat -> K data mid <= K data k) ->
  sortedRange data a b.
Proof.
  intros Hl Hr Hlo Hhi i j Hi Hij Hj.
  destruct (decide (j < mid)%nat); [apply Hl; lia |].
  destruct (decide (mid < i)%nat); [apply Hr; lia |].
  destruct (decide (i = mid)) as [->|]; destruct (decide (j = mid)) as [->|]; try lia.
  - apply Hhi; lia.
  - apply Hlo; lia.
  - transitivity (K data mid); [apply Hlo | apply Hhi]; lia.
Qed.

Lemma lowBound_right a b a' b' data data' :
  within a' b' data data' -> (b <= a')%nat -> lowBound data a b -> lowBound data' a b.
Proof.
  intros Hw Hd Hl Ha k Hk. rewrite !(within_K key _ _ _ _ _ Hw) by lia. by apply Hl.
Qed.

(** [pdqsort] on a range: the range is permuted, nothing else moves, and
    the range ends up in order.  [fuel] above the length of the range is
    enough. *)
Lemma pdqsortLoop_spec fuel data a b limit wasBalanced wasPartitioned :
  (a <= b <= length data)%nat -> (b - a < fuel)%nat -> lowBound data a b ->
  within a b data (pdqsortLoop ltKey fuel data a b limit wasBalanced wasPartitioned) /\
  sortedRange (pdqsortLoop ltKey fuel data a b limit wasBalanced wasPartitioned) a b.
Proof.
  revert data a b limit wasBalanced wasPartitioned.
  induction fuel as [|fuel IH];
    intros data a b limit wasBalanced wasPartitioned Hab Hfuel Hlow; [lia |].
  cbn [pdqsortLoop].
  destruct (Nat.leb_spec (b - a) maxInsertion) as [Hsmall|Hbig].
  { by apply insertionSort_spec. }
  destruct (limit =? 0)%nat.
  { by apply heapSort_spec. }
  unfold maxInsertion in Hbig.
(* breakPatterns *)
set (dl := if negb wasBalanced then (breakPatterns data a b, pred limit)
           else (data, limit)).
assert (within a b data dl.1) as W1.
{ unfold dl. destruct wasBalanced; simpl; [done |]. by apply breakPatterns_within. }
destruct dl as [d1 limit1]. simpl in W1.
assert (length d1 = length data) as L1 by apply (within_length _ _ _ _ W1).
(* choosePivot *)
pose proof (choosePivot_range key d1 a b ltac:(lia)) as Hpiv.
destruct (choosePivot ltKey d1 a b) as [pivot hint]. simpl in Hpiv.
set (dph := if hint_eqb hint decreasingHint
            then (reverseRange d1 a b, (b - 1 - (pivot - a))%nat, increasingHint)
            else (d1, pivot, hint)).
assert (within a b d1 dph.1.1 /\ (a <= dph.1.2 < b)%nat) as [W2 Hpiv2].
{ unfold dph. destruct (hint_eqb hint decreasingHint); simpl; [|done].
  split; [apply reverseRange_within; lia | lia]. }
destruct dph as [[d2 pivot2] hint2]. simpl in W2, Hpiv2.
assert (length d2 = length data) as L2 by (rewrite (within_length _ _ _ _ W2); done).
assert (within a b data d2) as W12 by (by eapply within_trans).
(* partialInsertionSort *)
set (ds := if wasBalanced && wasPartitioned && hint_eqb hint2 increasingHint
           then partialInsertionSort ltKey d2 a b else (d2, false)).
assert (within a b d2 ds.1 /\ (ds.2 = true -> sortedRange ds.1 a b)) as [W3 S3].
{ unfold ds. destruct (_ && _); [|done].
  apply partialInsertionSort_spec; [lia |].
  eapply lowBound_within; [exact W12 | lia | done]. }
destruct ds as [d3 sorted]. simpl in W3, S3.
assert (length d3 = length data) as L3 by (rewrite (within_length _ _ _ _ W3); done).
assert (within a b data d3) as W13 by (by eapply within_trans).
assert (lowBound d3 a b) as Hlow3.
{ eapply lowBound_within; [exact W13 | lia | done]. }
destruct sorted.
{ split; [done | by apply S3]. }
destruct ((0 <? a)%nat && negb (Less d3 (a - 1) pivot2)) eqn:Heq.
- (* partitionEqual *)
  apply andb_prop in Heq as [Ha%Nat.ltb_lt Hnl%negb_true_iff].
  rewrite (Less_K key) in Hnl by lia. apply Z.ltb_ge in Hnl.
  pose proof (partitionEqual_spec key d3 a b pivot2 Hpiv2 ltac:(lia)) as HPE.
  destruct (partitionEqual ltKey d3 a b pivot2) as [d4 mid]. simpl in HPE.
  destruct HPE as (W4 & Hmid & Hle & Hgt).
  assert (forall k, (a <= k < b)%nat -> K d3 pivot2 <= K d4 k) as Hge4.
  { apply (within_rangeAll key (fun z => K d3 pivot2 <= z) a b d3 d4 W4 ltac:(lia)).
    intros i Hi. specialize (Hlow3 Ha i Hi). lia. }
  destruct (IH d4 mid b limit1 wasBalanced wasPartitioned) as [W5 S5].
  + rewrite (within_length _ _ _ _ W4). lia.
  + lia.
  + intros _ k Hk. specialize (Hle (mid - 1)%nat ltac:(lia)).
    specialize (Hgt k ltac:(lia)). lia.
  + set (d5 := pdqsortLoop _ _ d4 mid b _ _ _) in *. split.
    * eapply within_trans; [exact W13 |].
      eapply within_trans; [exact W4 |].
      eapply within_weaken; [| |exact W5]; lia.
    * assert (forall k, (mid <= k < b)%nat -> K d3 pivot2 < K d5 k) as Hgt5.
      { apply (within_rangeAll key (fun z => K d3 pivot2 < z) mid b d4 d5 W5).
        - rewrite (within_length _ _ _ _ W4). lia.
        - done. }
      intros i j Hi Hij Hj.
      destruct (decide (mid <= i)%nat); [apply S5; lia |].
      rewrite (within_K key _ _ _ _ i W5) by lia.
      pose proof (Hle i ltac:(lia)) as Hlei. pose proof (Hge4 i ltac:(lia)) as Hgei.
      destruct (decide (mid <= j)%nat).
      -- pose proof (Hgt5 j ltac:(lia)). lia.
      -- rewrite (within_K key _ _ _ _ j W5) by lia.
         pose proof (Hge4 j ltac:(lia)). pose proof (Hle j ltac:(lia)). lia.
- (* partition *)
  clear Heq.
  pose proof (partition_spec key d3 a b pivot2 Hpiv2 ltac:(lia)) as HP.
  destruct (partition ltKey d3 a b pivot2) as [[d4 mid] alreadyPartitioned].
  simpl in HP. destruct HP as (W4 & Hmid & Hmk & Hlt & Hge).
  set (p := K d3 pivot2) in *.
  assert (length d4 = length data) as L4 by (rewrite (within_length _ _ _ _ W4); done).
  assert (within a b data d4) as W14 by (by eapply within_trans).
  assert (lowBound d4 a mid) as Hlow4.
  { eapply lowBound_shrink; [|eapply lowBound_within; [exact W14 | lia | done]]. lia. }
  destruct (mid - a <? b - mid)%nat.
  + (* left part first *)
    destruct (IH d4 a mid limit1 true true) as [WL SL]; [lia | lia | done |].
    set (dL := pdqsortLoop _ _ d4 a mid _ _ _) in *.
    assert (length dL = length data) as LL by (rewrite (within_length _ _ _ _ WL); done).
    destruct (IH dL (mid + 1)%nat b limit1 ((b - a) / 8 <=? mid - a)%nat alreadyPartitioned)
      as [WR SR]; [lia | lia | |].
    { intros _ k Hk. replace (mid + 1 - 1)%nat with mid by lia.
      rewrite !(within_K key _ _ _ _ _ WL) by lia. rewrite Hmk. apply Hge. lia. }
    set (dR := pdqsortLoop _ _ dL (mid + 1)%nat b _ _ _) in *.
    split.
    * eapply within_trans; [exact W14 |].
      eapply within_trans; eapply within_weaken; try eassumption; lia.
    * replace (mid + 1)%nat with (S mid) in * by lia.
      assert (K dR mid = p) as HmR.
      { rewrite (within_K key _ _ _ _ _ WR), (within_K key _ _ _ _ _ WL) by lia. done. }
      apply (sorted_join dR a mid b).
      -- eapply sortedRange_out; [exact WR | lia | done].
      -- done.
      -- intros k Hk. rewrite HmR, (within_K key _ _ _ _ _ WR) by lia.
         pose proof (within_rangeAll key (fun z => z < p) a mid d4 dL WL ltac:(lia) Hlt k
                       ltac:(lia)). simpl in *. lia.
      -- intros k Hk. rewrite HmR.
         apply (within_rangeAll key (fun z => p <= z) (S mid) b dL dR WR ltac:(lia));
           [|lia].
         intros i Hi. rewrite (within_K key _ _ _ _ _ WL) by lia. apply Hge. lia.
  + (* right part first *)
    destruct (IH d4 (mid + 1)%nat b limit1 true true) as [WR SR]; [lia | lia | |].
    { intros _ k Hk. replace (mid + 1 - 1)%nat with mid by lia.
      rewrite Hmk. apply Hge. lia. }
    set (dR := pdqsortLoop _ _ d4 (mid + 1)%nat b _ _ _) in *.
    assert (length dR = length data) as LR by (rewrite (within_length _ _ _ _ WR); done).
    destruct (IH dR a mid limit1 ((b - a) / 8 <=? b - mid)%nat alreadyPartitioned)
      as [WL SL]; [lia | lia | |].
    { eapply lowBound_right; [exact WR | lia | done]. }
    set (dL := pdqsortLoop _ _ dR a mid _ _ _) in *.
    split.
    * eapply within_trans; [exact W14 |].
      eapply within_trans; eapply within_weaken; try eassumption; lia.
    * replace (mid + 1)%nat with (S mid) in * by lia.
      assert (K dL mid = p) as HmL.
      { rewrite (within_K key _ _ _ _ _ WL), (within_K key _ _ _ _ _ WR) by lia. done. }
      apply (sorted_join dL a mid b).
      -- done.
      -- eapply sortedRange_out; [exact WL | lia | done].
      -- intros k Hk. rewrite HmL.
         pose proof (within_rangeAll key (fun z => z < p) a mid dR dL WL ltac:(lia)) as HH.
         simpl in HH. specialize (HH ltac:(intros i Hi;
           rewrite (within_K key _ _ _ _ _ WR) by lia; apply Hlt; lia) k ltac:(lia)). lia.
      -- intros k Hk. rewrite HmL, (within_K key _ _ _ _ _ WL) by lia.
         apply (within_rangeAll key (fun z => p <= z) (S mid) b d4 dR WR ltac:(lia));
           [|lia].
         intros i Hi. apply Hge. lia.
Qed.

(** [sort.Slice] returns a permutation of the slice, in key order. *)
Theorem Slice_sorts (x : list A) :
  Slice ltKey x ≡ₚ x /\ sortedRange (Slice ltKey x) 0 (length x).
Proof.
  unfold Slice, pdqsort.
  destruct (pdqsortLoop_spec (S (length x - 0)) x 0 (length x) (bits_len (length x))
              true true) as [(_ & _ & P) S]; [lia | lia | |done].
  intros H. lia.
Qed.

(** up to twelve elements, it is an insertion sort: equal keys keep
    their order *)
Theorem Slice_stable_short (x : list A) p :
  (length x <= 12)%nat ->
  filter (fun e => key e = p) (Slice ltKey x) = filter (fun e => key e = p) x.
Proof.
  intros Hlen. unfold Slice, pdqsort. cbn [pdqsortLoop].
  destruct (Nat.leb_spec (length x - 0) maxInsertion) as [_|Hbig].
  - by apply insertionSort_stable.
  - unfold maxInsertion in Hbig. lia.
Qed.

End Keyed.
End PdqFacts.

(** The sort of the allocator: [sort.Slice] with [lessPriority]. *)

Module SliceFacts.
Import models scheduler props invariants SortFacts PdqFacts.

Lemma Slice_Permutation (requests : list CustomerRequirement) :
  GoSort.Slice lessPriority requests ≡ₚ requests.
Proof. apply (Slice_sorts Priority requests). Qed.

Lemma Slice_length (requests : list CustomerRequirement) :
  length (GoSort.Slice lessPriority requests) = length requests.
Proof. apply Permutation_length, Slice_Permutation. Qed.

Lemma Slice_byPriority (requests : list CustomerRequirement) :
  byPriority (GoSort.Slice lessPriority requests).
Proof.
  destruct (Slice_sorts Priority requests) as [_ Hs].
  intros i j x y Hij Hx Hy.
  specialize (Hs i j ltac:(lia) ltac:(lia)).
  unfold K in Hs. change (ltKey Priority) with lessPriority in Hs.
  rewrite Hx, Hy in Hs. apply Hs.
  apply lookup_lt_Some in Hy. by rewrite Slice_length in Hy.
Qed.

Lemma Slice_keepsTies_short (requests : list CustomerRequirement) p :
  (length requests <= 12)%nat ->
  filter (fun r => Priority r = p) (GoSort.Slice lessPriority requests)
  = filter (fun r => Priority r = p) requests.
Proof. apply (Slice_stable_short Priority requests p). Qed.

End SliceFacts.

(* ===================================================================== *)
(** * Finite floats stay finite                                           *)
(* ===================================================================== *)

(** The floats the scheduler computes from durations are far from the
    overflow threshold.  [below B x] says that [x] is a zero or a finite
    float below [2^B]; rounding can raise the bound by one. *)

Module FloatFacts.
Import invariants.

Lemma bounded_finite B x : below B x -> F64.is_finite x = true.
Proof. by destruct x. Qed.

Lemma bounded_mono B B' x : B <= B' -> below B x -> below B' x.
Proof. destruct x; simpl; try done. lia. Qed.

(** *** Number of binary digits *)

Lemma digits2_pos_size p : digits2_pos p = Pos.size p.
Proof. induction p; simpl; by rewrite ?IHp. Qed.

Lemma Zdigits2_bounds m : 0 < m -> 2 ^ (Zdigits2 m - 1) <= m < 2 ^ Zdigits2 m.
Proof.
  intros Hm. destruct m as [|p|p]; try lia. simpl. rewrite digits2_pos_size.
  pose proof (Pos.size_gt p) as Hgt. pose proof (Pos.size_le p) as Hle.
  apply Pos2Z.pos_lt_pos in Hgt. apply Pos2Z.pos_le_pos in Hle.
  rewrite Pos2Z.inj_pow in Hgt, Hle.
  split; [|done].
  replace (Z.pos (Pos.size p)) with (Z.succ (Z.pos (Pos.size p) - 1)) in Hle by lia.
  rewrite Z.pow_succ_r in Hle by lia. lia.
Qed.

Lemma Zdigits2_nonneg m : 0 <= Zdigits2 m.
Proof. destruct m; simpl; lia. Qed.

Lemma Zdigits2_le m k : 0 <= m -> 0 <= k -> m < 2 ^ k -> Zdigits2 m <= k.
Proof.
  intros Hm Hk Hlt. destruct (Z.eq_dec m 0) as [->|]; [simpl; lia |].
  pose proof (Zdigits2_bounds m ltac:(lia)) as [Hlo _].
  pose proof (Zdigits2_nonneg m).
  destruct (Z.le_gt_cases (Zdigits2 m) k) as [|Hgt]; [done |].
  assert (2 ^ k <= 2 ^ (Zdigits2 m - 1)) by (apply Z.pow_le_mono_r; lia). lia.
Qed.

Lemma Zdigits2_lt_pow m : 0 <= m -> m < 2 ^ Zdigits2 m.
Proof.
  intros Hm. destruct (Z.eq_dec m 0) as [->|]; [by vm_compute |].
  apply Zdigits2_bounds. lia.
Qed.

Lemma Zdigits2_opp m : Zdigits2 (- m) = Zdigits2 m.
Proof. by destruct m. Qed.

Lemma Zdigits2_succ m : 0 <= m -> Zdigits2 (m + 1) <= Zdigits2 m + 1.
Proof.
  intros Hm. pose proof (Zdigits2_nonneg m). pose proof (Zdigits2_lt_pow m Hm).
  apply Zdigits2_le; [lia | lia |]. rewrite Z.pow_add_r by lia. lia.
Qed.

Lemma Zdigits2_mono m m' : 0 <= m <= m' -> Zdigits2 m <= Zdigits2 m'.
Proof.
  intros Hm. pose proof (Zdigits2_nonneg m'). pose proof (Zdigits2_lt_pow m' ltac:(lia)).
  apply Zdigits2_le; lia.
Qed.

Lemma Zdigits2_div_pow m n :
  0 <= m -> 0 <= n -> Zdigits2 (m / 2 ^ n) <= Z.max 0 (Zdigits2 m - n).
Proof.
  intros Hm Hn. pose proof (Zdigits2_nonneg m). pose proof (Zdigits2_lt_pow m Hm) as Hlt.
  assert (0 < 2 ^ n) by (apply Z.pow_pos_nonneg; lia).
  assert (0 <= m / 2 ^ n) by (apply Z.div_pos; lia).
  apply Zdigits2_le; [done | lia |].
  apply Z.div_lt_upper_bound; [done |].
  destruct (Z.le_gt_cases n (Zdigits2 m)).
  - rewrite Z.max_r by lia. rewrite <- Z.pow_add_r by lia.
    by replace (n + (Zdigits2 m - n)) with (Zdigits2 m) by lia.
  - rewrite Z.max_l by lia. rewrite Z.mul_1_r.
    assert (2 ^ Zdigits2 m <= 2 ^ n) by (apply Z.pow_le_mono_r; lia). lia.
Qed.

Lemma Zdigits2_mul_pow m n :
  0 <= m -> 0 <= n -> Zdigits2 (m * 2 ^ n) <= Zdigits2 m + n.
Proof.
  intros Hm Hn. pose proof (Zdigits2_nonneg m). pose proof (Zdigits2_lt_pow m Hm) as Hlt.
  assert (0 < 2 ^ n) by (apply Z.pow_pos_nonneg; lia).
  apply Zdigits2_le; [nia | lia |]. rewrite Z.pow_add_r by lia. nia.
Qed.

Lemma Zdigits2_add a b :
  Zdigits2 (a + b) <= Z.max (Zdigits2 a) (Zdigits2 b) + 1.
Proof.
  assert (forall x, Z.abs x < 2 ^ Zdigits2 x) as Habs.
  { intros x. destruct (Z.abs_spec x) as [[? ->]|[? ->]].
    - by apply Zdigits2_lt_pow.
    - rewrite <- Zdigits2_opp. apply Zdigits2_lt_pow. lia. }
  pose proof (Habs a). pose proof (Habs b).
  pose proof (Zdigits2_nonneg a). pose proof (Zdigits2_nonneg b).
  set (d := Z.max (Zdigits2 a) (Zdigits2 b)).
  assert (2 ^ Zdigits2 a <= 2 ^ d) by (apply Z.pow_le_mono_r; lia).
  assert (2 ^ Zdigits2 b <= 2 ^ d) by (apply Z.pow_le_mono_r; lia).
  assert (Z.abs (a + b) < 2 ^ (d + 1)) by (rewrite Z.pow_add_r by lia; lia).
  destruct (Z.abs_spec (a + b)) as [[? Heq]|[? Heq]]; rewrite Heq in *.
  - apply Zdigits2_le; lia.
  - rewrite <- Zdigits2_opp. apply Zdigits2_le; lia.
Qed.

(** *** Rounding *)

Lemma shr_1_spec mrs :
  0 <= shr_m mrs -> 0 <= shr_m (shr_1 mrs) /\ shr_m (shr_1 mrs) = shr_m mrs / 2.
Proof.
  destruct mrs as [m r s0]. simpl. intros Hm.
  destruct m as [|[p|p|]|p]; simpl; try lia; (split; [lia |]).
  - done.
  - apply (Z.div_unique _ _ _ 1); lia.
  - apply (Z.div_unique _ _ _ 0); lia.
  - done.
Qed.

Lemma iter_shr_1_spec p : forall mrs,
  0 <= shr_m mrs ->
  0 <= shr_m (SpecFloat.iter_pos shr_1 p mrs) /\
  shr_m (SpecFloat.iter_pos shr_1 p mrs) = shr_m mrs / 2 ^ Zpos p.
Proof.
  induction p as [p IH|p IH|]; intros mrs Hm; simpl SpecFloat.iter_pos.
  - destruct (shr_1_spec mrs Hm) as [H1 E1].
    destruct (IH _ H1) as [H2 E2]. destruct (IH _ H2) as [H3 E3].
    split; [done |]. rewrite E3, E2, E1.
    assert (0 < 2 ^ Zpos p) by (apply Z.pow_pos_nonneg; lia).
    rewrite !Z.div_div by lia. f_equal.
    rewrite Pos2Z.inj_xI, Z.pow_add_r, Z.pow_mul_r, Z.pow_2_r by lia.
    change (2 ^ 1) with 2. rewrite Z.pow_mul_l. change (2 ^ 2) with 4.
    rewrite <- (Z.pow_2_r (2 ^ Zpos p)).
    replace (2 ^ Z.pos p * 2 ^ Z.pos p) with ((2 ^ Z.pos p) ^ 2) by (rewrite Z.pow_2_r; lia).
    rewrite <- !Z.pow_mul_r by lia. lia.
  - destruct (IH _ Hm) as [H2 E2]. destruct (IH _ H2) as [H3 E3].
    split; [done |]. rewrite E3, E2.
    assert (0 < 2 ^ Zpos p) by (apply Z.pow_pos_nonneg; lia).
    rewrite !Z.div_div by lia. f_equal.
    rewrite <- Z.pow_add_r by lia. f_equal. lia.
  - apply shr_1_spec in Hm. by rewrite Z.pow_1_r.
Qed.

Lemma shr_record_of_loc_m m l : shr_m (shr_record_of_loc m l) = m.
Proof. by destruct l as [|[]]. Qed.

Lemma shr_fexp_bound mx ex lx B :
  0 <= mx -> Zdigits2 mx + ex <= B -> ex <= B -> -1074 <= B ->
  0 <= shr_m (shr_fexp 53 1024 mx ex lx).1 /\
  Zdigits2 (shr_m (shr_fexp 53 1024 mx ex lx).1) + (shr_fexp 53 1024 mx ex lx).2 <= B /\
  (shr_fexp 53 1024 mx ex lx).2 <= B.
Proof.
  intros Hm HB He HB0. unfold shr_fexp, shr, fexp, emin.
  set (M := Zdigits2 mx + ex) in *.
  destruct (Z.max (M - 53) (3 - 1024 - 53) - ex) as [|n|n] eqn:En; simpl;
    rewrite ?shr_record_of_loc_m; try done.
  destruct (iter_shr_1_spec n (shr_record_of_loc mx lx)) as [H0 E];
    [by rewrite shr_record_of_loc_m |].
  rewrite shr_record_of_loc_m in E. split; [done |]. rewrite E.
  pose proof (Zdigits2_div_pow mx (Zpos n) Hm ltac:(lia)).
  pose proof (Zdigits2_nonneg mx). lia.
Qed.

Lemma round_nearest_even_cases m l :
  round_nearest_even m l = m \/ round_nearest_even m l = m + 1.
Proof. destruct l as [|[]]; simpl; try destruct (Z.even m); auto. Qed.

Lemma binary_round_aux_bounded sx mx ex lx B :
  0 <= mx -> Zdigits2 mx + ex <= B -> ex <= B -> -1074 <= B <= 971 ->
  below (B + 1) (binary_round_aux 53 1024 sx mx ex lx).
Proof.
  intros Hm HB He HB0. unfold binary_round_aux.
  destruct (shr_fexp_bound mx ex lx B Hm HB He ltac:(lia)) as (H1 & H2 & H3).
  destruct (shr_fexp 53 1024 mx ex lx) as [mrs' e']. simpl in H1, H2, H3.
  set (m1 := round_nearest_even _ _).
  assert (0 <= m1 /\ Zdigits2 m1 <= Zdigits2 (shr_m mrs') + 1) as [Hm1 Hd1].
  { subst m1. destruct (round_nearest_even_cases (shr_m mrs') (loc_of_shr_record mrs'))
      as [-> | ->]; (split; [lia |]); [lia | by apply Zdigits2_succ]. }
  destruct (shr_fexp_bound m1 e' loc_Exact (B + 1) Hm1 ltac:(lia) ltac:(lia) ltac:(lia))
    as (H4 & H5 & H6).
  destruct (shr_fexp 53 1024 m1 e' loc_Exact) as [mrs'' e'']. simpl in H4, H5, H6.
  destruct (shr_m mrs'') as [|m|m]; [done | | lia].
  assert (1 <= Zdigits2 (Z.pos m)) by (simpl; lia).
  destruct (Z.leb_spec e'' (1024 - 53)); [done | lia].
Qed.

Lemma digits2_iter_xO d m :
  digits2_pos (Pos.iter xO m d) = (digits2_pos m + d)%positive.
Proof.
  induction d as [|d IH] using Pos.peano_ind.
  - simpl. lia.
  - rewrite Pos.iter_succ. simpl. rewrite IH. lia.
Qed.

(** [shl_align] keeps the value, hence the magnitude. *)
Lemma shl_align_magnitude m e e' :
  Zdigits2 (Zpos (shl_align m e e').1) + (shl_align m e e').2 = Zdigits2 (Zpos m) + e.
Proof.
  unfold shl_align. destruct (e' - e) as [|d|d] eqn:Ed; simpl; try done.
  rewrite digits2_iter_xO. lia.
Qed.

Lemma binary_round_bounded s m e B :
  Zdigits2 (Zpos m) + e <= B -> -1074 <= B <= 971 ->
  below (B + 1) (binary_round 53 1024 s m e).
Proof.
  intros HB HB0. unfold binary_round.
  pose proof (shl_align_magnitude m e (fexp 53 1024 (Z.pos (digits2_pos m) + e))) as Hmag.
  destruct (shl_align m e _) as [mz ez]. simpl in Hmag.
  assert (1 <= Z.pos (digits2_pos mz)) by lia.
  simpl in HB. apply binary_round_aux_bounded; simpl; lia.
Qed.

Lemma binary_normalize_bounded m e sz B :
  Zdigits2 m + e <= B -> -1074 <= B <= 971 ->
  below (B + 1) (binary_normalize 53 1024 m e sz).
Proof.
  intros HB HB0. destruct m as [|m|m]; simpl; [done | |];
    by apply binary_round_bounded.
Qed.

(** *** The operations of the scheduler *)

Lemma of_int_bounded n : Int64.in_range n -> below 65 (F64.of_int n).
Proof.
  intros Hn. unfold F64.of_int. apply (binary_normalize_bounded n 0 false 64); [| lia].
  assert (Zdigits2 n <= 64); [| lia].
  unfold Int64.in_range, Int64.min_int, Int64.max_int in Hn.
  destruct (Z.le_gt_cases 0 n).
  - apply Zdigits2_le; [lia | lia |]. change (2 ^ 64) with 18446744073709551616.
    change (2 ^ 63) with 9223372036854775808 in Hn. lia.
  - rewrite <- Zdigits2_opp. apply Zdigits2_le; [lia | lia |].
    change (2 ^ 64) with 18446744073709551616.
    change (2 ^ 63) with 9223372036854775808 in Hn. lia.
Qed.

Lemma div_bounded x sy my ey B :
  below B x -> -1074 <= B - ey <= 971 ->
  below (B - ey + 1) (F64.div x (S754_finite sy my ey)).
Proof.
  intros Hx HB. destruct x as [sx| | |sx mx ex]; try done.
  unfold F64.div, SFdiv, SFdiv_core_binary. change (below B _) with
    (Zdigits2 (Z.pos mx) + ex <= B) in Hx.
  set (e' := Z.min _ _). set (sh := ex - ey - e').
  assert (e' <= ex - ey) as He' by (subst e'; lia).
  assert (sh = ex - ey - e') as Hsh by done.
  assert (1 <= Zdigits2 (Z.pos mx)) by (simpl; lia).
  clearbody e' sh.
  set (m' := match sh with 0 => Z.pos mx | Z.pos _ => Z.shiftl (Z.pos mx) sh | Z.neg _ => 0 end).
  assert (0 <= m' /\ Zdigits2 m' <= Zdigits2 (Z.pos mx) + sh) as [Hm' Hd'].
  { subst m'. destruct sh as [|p|p] eqn:Es; [lia | | lia]. rewrite <- Es.
    rewrite Z.shiftl_mul_pow2 by lia.
    split; [lia |]. apply Zdigits2_mul_pow; lia. }
  pose proof (Z_div_mod m' (Z.pos my) ltac:(lia)) as Hdm.
  destruct (Z.div_eucl m' (Z.pos my)) as [q r]. destruct Hdm as [Hq Hr].
  assert (0 <= q <= m') by nia.
  pose proof (Zdigits2_mono q m' ltac:(lia)).
  clearbody m'. apply binary_round_aux_bounded; lia.
Qed.

Lemma shl_align_snd m e e' : e' <= e -> (shl_align m e e').2 = e'.
Proof. intros He. unfold shl_align. destruct (e' - e) eqn:Ed; simpl; lia. Qed.

Lemma Zdigits2_cond_Zopp s m : Zdigits2 (cond_Zopp s m) = Zdigits2 m.
Proof. destruct s; simpl; [apply Zdigits2_opp | done]. Qed.

Lemma add_bounded x y B :
  below B x -> below B y -> -1074 <= B + 1 <= 971 ->
  below (B + 2) (F64.add x y).
Proof.
  intros Hx Hy HB.
  destruct x as [sx| | |sx mx ex], y as [sy| | |sy my ey]; try done.
  - by destruct sx, sy.
  - simpl in *. lia.
  - simpl in *. lia.
  - unfold F64.add, SFadd. cbv zeta. simpl in Hx, Hy.
    set (ez := Z.min ex ey).
    pose proof (shl_align_magnitude mx ex ez) as Hmx.
    pose proof (shl_align_magnitude my ey ez) as Hmy.
    rewrite shl_align_snd in Hmx, Hmy by lia.
    replace (B + 2) with (B + 1 + 1) by lia.
    apply binary_normalize_bounded; [| done].
    pose proof (Zdigits2_add (cond_Zopp sx (Z.pos (shl_align mx ex ez).1))
                             (cond_Zopp sy (Z.pos (shl_align my ey ez).1))) as Hadd.
    rewrite !Zdigits2_cond_Zopp in Hadd. simpl in Hmx, Hmy. simpl Zdigits2 in Hadd at 2 3.
    lia.
Qed.

Lemma Hours_bounded d : Int64.in_range d -> below 80 (GoTime.Hours d).
Proof.
  intros Hd. unfold GoTime.Hours.
  assert (Int64.in_range (Z.quot d GoTime.Hour) /\ Int64.in_range (Z.rem d GoTime.Hour))
    as [Hq Hr].
  { unfold Int64.in_range, Int64.min_int, Int64.max_int in *.
    change (2 ^ 63) with 9223372036854775808 in *.
    change GoTime.Hour with 3600000000000.
    Z.quot_rem_to_equations. lia. }
  change (F64.of_int (60 * 60 * 1000000000))
    with (S754_finite false 7372800000000000 (-11)).
  apply (add_bounded _ _ 78); [| | lia].
  - eapply bounded_mono; [| by apply of_int_bounded]. lia.
  - eapply bounded_mono; [| apply (div_bounded _ _ _ _ 65); [by apply of_int_bounded | lia]].
    lia.
Qed.

Lemma Hours_finite d : Int64.in_range d -> F64.is_finite (GoTime.Hours d) = true.
Proof. intros Hd. eapply bounded_finite. by apply Hours_bounded. Qed.

Lemma Sub_in_range t u : Int64.in_range (GoTime.Sub t u).
Proof.
  unfold GoTime.Sub, Int64.in_range, GoTime.minDuration, GoTime.maxDuration.
  assert (Int64.min_int <= Int64.max_int) by by vm_compute.
  repeat case_match; lia.
Qed.

End FloatFacts.

(* ===================================================================== *)
(** * Records without calls                                               *)
(* ===================================================================== *)

Module ZeroCallFacts.
Import models scheduler props invariants FloatFacts.

Lemma positive_is_finite x :
  F64.is_finite x = true -> F64.leb x (S754_zero false) = false ->
  exists s m e, x = S754_finite s m e.
Proof. destruct x as [[]| | |s m e]; try done. eauto. Qed.

Lemma mul_zero_l s y :
  F64.is_finite y = true -> exists s', F64.mul (S754_zero s) y = S754_zero s'.
Proof. destruct y; try done; simpl; eauto. Qed.

Lemma div_zero_l s sy my ey :
  exists s', F64.div (S754_zero s) (S754_finite sy my ey) = S754_zero s'.
Proof. simpl. eauto. Qed.

Lemma addsOnly_refl P hourly : addsOnly P hourly hourly.
Proof.
  apply Forall_Forall2_diag, Forall_forall. intros old _.
  exists []. by rewrite app_nil_r.
Qed.

Lemma addsOnly_alter P before after h r :
  addsOnly P before after -> P r ->
  addsOnly P before (alter (fun reqs => reqs ++ [r]) h after).
Proof.
  intros Hgrow Hr. apply Forall2_alter_r; [done |].
  intros old new _ _ (added & -> & Hadded).
  exists (added ++ [r]). split; [by rewrite app_assoc |].
  apply Forall_app. split; [done | by apply Forall_singleton].
Qed.

(** With no calls per hour an hour of the walk adds an entry of zero
    agents, or nothing. *)
Lemma hourStep_zero cd utilization start end_ s before hourly t :
  Int64.in_range (AverageCallDurationSeconds cd) ->
  F64.is_finite (F64.div (F64.of_int 1) utilization) = true ->
  addsOnly (fun r => AgentsNeeded r = 0) before hourly ->
  addsOnly (fun r => AgentsNeeded r = 0) before
           (hourStep cd utilization start end_ (S754_zero s) hourly t).
Proof.
  intros Havg Hu Hgrow. unfold hourStep. cbv zeta.
  set (used := GoTime.Hours _).
  destruct (F64.leb used (S754_zero false)) eqn:Hused; [done |].
  apply addsOnly_alter; [done |]. cbn [AgentsNeeded].
  assert (F64.is_finite used = true) as Hfin
    by (subst used; apply Hours_finite, Sub_in_range).
  destruct (mul_zero_l s used Hfin) as [s1 ->].
  destruct (mul_zero_l s1 (F64.of_int (AverageCallDurationSeconds cd))) as [s2 ->];
    [eapply bounded_finite; by apply of_int_bounded |].
  change (F64.of_int 3600) with (S754_finite false 7916483719987200 (-41)).
  destruct (div_zero_l s2 false 7916483719987200 (-41)) as [s3 ->].
  change (F64.to_int (F64.ceil (S754_zero s3))) with 0.
  change (F64.of_int 0) with (S754_zero false).
  by destruct (mul_zero_l false _ Hu) as [s4 ->].
Qed.

Lemma hourLoop_zero cd utilization start end_ s before endBoundary fuel :
  Int64.in_range (AverageCallDurationSeconds cd) ->
  F64.is_finite (F64.div (F64.of_int 1) utilization) = true ->
  forall hourly t,
    addsOnly (fun r => AgentsNeeded r = 0) before hourly ->
    addsOnly (fun r => AgentsNeeded r = 0) before
             (hourLoop fuel (hourStep cd utilization start end_ (S754_zero s))
                       endBoundary hourly t).
Proof.
  intros Havg Hu. induction fuel as [|fuel IH]; intros hourly t Hgrow; simpl; [done |].
  destruct (GoTime.Before t endBoundary); [| done].
  by apply IH, hourStep_zero.
Qed.

End ZeroCallFacts.

(* ===================================================================== *)
(** * Signs: a call count that is not positive                            *)
(* ===================================================================== *)

Module SignFacts.
Import models scheduler props invariants ZeroCallFacts.

Lemma round_aux_sign sx mx ex lx :
  signIs sx (binary_round_aux F64.prec F64.emax sx mx ex lx).
Proof.
  unfold binary_round_aux.
  destruct (shr_fexp _ _ mx ex lx) as [mrs' e'].
  destruct (shr_fexp _ _ _ e' loc_Exact) as [mrs'' e''].
  destruct (shr_m mrs''); [done | | done].
  by destruct (e'' <=? F64.emax - F64.prec).
Qed.

Lemma round_sign sx mx ex : signIs sx (binary_round F64.prec F64.emax sx mx ex).
Proof.
  unfold binary_round. destruct (shl_align _ _ _) as [mz ez]. apply round_aux_sign.
Qed.

Lemma normalize_notPositive m e sz :
  m <= 0 -> notPositive (binary_normalize F64.prec F64.emax m e sz).
Proof. destruct m; [done | lia |]. intros _. apply round_sign. Qed.

Lemma normalize_notNegative m e sz :
  0 <= m -> notNegative (binary_normalize F64.prec F64.emax m e sz).
Proof. destruct m; [done | | lia]. intros _. apply round_sign. Qed.

Lemma of_int_notPositive n : n <= 0 -> notPositive (F64.of_int n).
Proof. apply normalize_notPositive. Qed.

Lemma of_int_notNegative n : 0 <= n -> notNegative (F64.of_int n).
Proof. apply normalize_notNegative. Qed.

Lemma aboveZero_notNegative x : aboveZero x -> notNegative x.
Proof. by destruct x. Qed.

Lemma aboveZero_of_leb x : F64.leb x (S754_zero false) = false -> aboveZero x.
Proof. by destruct x as [[]|[]| |[] m e]. Qed.

Lemma aboveZero_of_ltb x : F64.ltb (S754_zero false) x = true -> aboveZero x.
Proof. by destruct x as [[]|[]| |[] m e]. Qed.

(** The sign of a product is the sum of the signs. *)
Lemma mul_sign s s' x y : signIs s x -> signIs s' y -> signIs (xorb s s') (F64.mul x y).
Proof.
  unfold F64.mul, SFmul.
  destruct x as [sx|sx| |sx mx ex], y as [sy|sy| |sy my ey]; simpl; try done;
    try (by intros -> ->); try (by intros -> _); try (by intros _ ->).
  intros -> ->. apply round_aux_sign.
Qed.

(** So is the sign of a quotient, when the divisor is not a zero. *)
Lemma div_sign s x y : signIs s x -> aboveZero y -> signIs s (F64.div x y).
Proof.
  unfold F64.div, SFdiv. intros Hx Hy.
  destruct x as [sx|sx| |sx mx ex], y as [sy|sy| |sy my ey]; simpl in *;
    subst; rewrite ?xorb_false_r; try done.
  destruct (SFdiv_core_binary F64.prec F64.emax (Z.pos mx) ex (Z.pos my) ey)
    as [[mz ez] lz].
  apply round_aux_sign.
Qed.

Lemma ceil_notPositive x : notPositive x -> notPositive (F64.ceil x).
Proof.
  destruct x as [sx|sx| |sx mx ex]; try done. simpl. intros ->.
  destruct (0 <=? ex); [done |].
  apply normalize_notPositive.
  pose proof (Z.shiftr_nonneg (Z.pos mx) (- ex)). lia.
Qed.

Lemma to_int_notPositive x : notPositive x -> F64.to_int x <= 0.
Proof.
  destruct x as [sx|sx| |sx mx ex]; try done. simpl. intros ->.
  set (q := if 0 <=? ex then _ else _).
  assert (0 <= q).
  { subst q. destruct (0 <=? ex).
    - by apply Z.shiftl_nonneg.
    - by apply Z.shiftr_nonneg. }
  by destruct (_ && _); [lia |].
Qed.

(** With calls per hour that are not above zero, a call duration that is
    not negative and a utilization above zero, an hour of the walk adds an
    entry that is not above zero, or nothing. *)
Lemma hourStep_notPositive cd utilization start end_ callsPerHour before hourly t :
  notPositive callsPerHour ->
  0 <= AverageCallDurationSeconds cd ->
  F64.ltb (F64.of_int 0) utilization = true ->
  addsOnly (fun r => AgentsNeeded r <= 0) before hourly ->
  addsOnly (fun r => AgentsNeeded r <= 0) before
           (hourStep cd utilization start end_ callsPerHour hourly t).
Proof.
  intros Hcalls Havg Hu Hgrow. unfold hourStep. cbv zeta.
  set (used := GoTime.Hours _).
  destruct (F64.leb used (S754_zero false)) eqn:Hused; [done |].
  apply addsOnly_alter; [done |]. cbn [AgentsNeeded].
  apply to_int_notPositive, ceil_notPositive.
  apply (mul_sign true false).
  - apply of_int_notPositive, to_int_notPositive, ceil_notPositive.
    apply (div_sign true); [| done].
    apply (mul_sign true false); [| by apply of_int_notNegative].
    apply (mul_sign true false); [done |].
    by apply aboveZero_notNegative, aboveZero_of_leb.
  - apply (div_sign false); [done |]. by apply aboveZero_of_ltb.
Qed.

Lemma hourLoop_notPositive cd utilization start end_ callsPerHour before endBoundary fuel :
  notPositive callsPerHour ->
  0 <= AverageCallDurationSeconds cd ->
  F64.ltb (F64.of_int 0) utilization = true ->
  forall hourly t,
    addsOnly (fun r => AgentsNeeded r <= 0) before hourly ->
    addsOnly (fun r => AgentsNeeded r <= 0) before
             (hourLoop fuel (hourStep cd utilization start end_ callsPerHour)
                       endBoundary hourly t).
Proof.
  intros Hcalls Havg Hu.
  induction fuel as [|fuel IH]; intros hourly t Hgrow; simpl; [done |].
  destruct (GoTime.Before t endBoundary); [| done].
  by apply IH, hourStep_notPositive.
Qed.

Lemma recordStep_notPositive cd utilization hourly :
  NumberOfCalls cd <= 0 ->
  0 <= AverageCallDurationSeconds cd ->
  F64.ltb (F64.of_int 0) utilization = true ->
  addsOnly (fun r => AgentsNeeded r <= 0) hourly (recordStep utilization hourly cd).
Proof.
  intros Hcalls Havg Hu. unfold recordStep. cbv zeta.
  set (total := GoTime.Hours _).
  destruct (F64.leb total (S754_zero false)) eqn:Htotal; [apply addsOnly_refl |].
  apply hourLoop_notPositive; [| done | done | apply addsOnly_refl].
  apply (div_sign true); [by apply of_int_notPositive | by apply aboveZero_of_leb].
Qed.

End SignFacts.

Module CallCountTheorems.
Import models scheduler props invariants examples FloatFacts ZeroCallFacts SignFacts.

(** C7, as the specification words it, fails: a record with a negative
    call count is not an error, but its hourly entry can carry a negative
    number of agents.  [negativeCalls] asks for -10 calls of an hour each
    between 10:00 and 11:00; the bucket of hour 10 receives an entry of
    -10 agents. *)
Lemma negative_calls_negative_agents :
  NumberOfCalls negativeCalls <= 0 /\
  recordStep utilization1 (replicate 24 []) negativeCalls !! 10%nat
    = Some [mkCustomerRequirement "Negative" (-10) (Some GoTime.UTC) 1] /\
  ~ addsOnly (fun r => AgentsNeeded r = 0)
      (replicate 24 []) (recordStep utilization1 (replicate 24 []) negativeCalls).
Proof.
  set (hourly := recordStep utilization1 (replicate 24 []) negativeCalls).
  assert (hourly !! 10%nat
          = Some [mkCustomerRequirement "Negative" (-10) (Some GoTime.UTC) 1]) as Hten
    by by vm_compute.
  clearbody hourly.
  split; [by vm_compute |]. split; [done |].
  unfold addsOnly. intros Hgrow.
  destruct (Forall2_lookup_r _ _ _ 10%nat _ Hgrow Hten) as (old & Hold & added & Heq & Hzero).
  apply lookup_replicate in Hold as [-> _].
  simpl in Heq. subst added. apply Forall_inv in Hzero. simpl in Hzero. lia.
Qed.

(** C7, amended.  A record with a call count of zero contributes zero
    agents to every bucket: each hourly entry [GenerateSchedule] records
    for it has [AgentsNeeded = 0], whatever the buckets held before,
    provided the call duration is an [int] and [1/utilization] is a finite
    number (a utilization of zero makes it infinite, and the entry is then
    the conversion of a NaN).  A call count that is negative is not
    clamped to zero; all that holds for it, as for zero, is that no entry
    is above zero, when the call duration is not negative and the
    utilization is above zero. *)
Theorem zero_or_negative_calls cd utilization hourly :
  (NumberOfCalls cd = 0 ->
   Int64.in_range (AverageCallDurationSeconds cd) ->
   F64.is_finite (F64.div (F64.of_int 1) utilization) = true ->
   addsOnly (fun r => AgentsNeeded r = 0) hourly (recordStep utilization hourly cd)) /\
  (NumberOfCalls cd <= 0 ->
   0 <= AverageCallDurationSeconds cd ->
   F64.ltb (F64.of_int 0) utilization = true ->
   addsOnly (fun r => AgentsNeeded r <= 0) hourly (recordStep utilization hourly cd)).
Proof.
  split; [| apply recordStep_notPositive].
  intros Hcalls Havg Hu. unfold recordStep. cbv zeta.
  set (total := GoTime.Hours _).
  destruct (F64.leb total (S754_zero false)) eqn:Htotal; [apply addsOnly_refl |].
  assert (F64.is_finite total = true) as Hfin
    by (subst total; apply Hours_finite, Sub_in_range).
  destruct (positive_is_finite total Hfin Htotal) as (s & m & e & ->).
  rewrite Hcalls. change (F64.of_int 0) with (S754_zero false).
  destruct (div_zero_l false s m e) as [s' ->].
  apply hourLoop_zero; [done | done | apply addsOnly_refl].
Qed.

Lemma zero_or_negative_calls_witness :
  addsOnly (fun r => AgentsNeeded r = 0)
           (replicate 24 []) (recordStep utilization1 (replicate 24 []) noCalls) /\
  addsOnly (fun r => AgentsNeeded r <= 0)
           (replicate 24 []) (recordStep utilization1 (replicate 24 []) negativeCalls).
Proof.
  split.
  - apply (proj1 (zero_or_negative_calls noCalls utilization1 (replicate 24 []))).
    + reflexivity.
    + by vm_compute.
    + by vm_compute.
  - apply (proj2 (zero_or_negative_calls negativeCalls utilization1 (replicate 24 []))).
    + by vm_compute.
    + by vm_compute.
    + by vm_compute.
Defined.

End CallCountTheorems.

(* ===================================================================== *)
(** * The walk over the hours of a record                                 *)
(* ===================================================================== *)

Module WalkFacts.
Import models scheduler props examples.

(** The loop ends because its condition fails: more fuel than
    [hourCount] changes nothing. *)
Lemma hourCount_step t e :
  GoTime.Before t e = true ->
  hourCount t e = S (hourCount (GoTime.Add t GoTime.Hour) e).
Proof.
  unfold GoTime.Before, hourCount, GoTime.Add, GoTime.Hour, GoTime.Second. simpl.
  intros H%Z.ltb_lt. rewrite <- Z2Nat.inj_succ by (Z.div_mod_to_equations; lia).
  f_equal. Z.div_mod_to_equations. lia.
Qed.

Lemma hourCount_done t e : GoTime.Before t e = false -> hourCount t e = 0%nat.
Proof.
  unfold GoTime.Before, hourCount, GoTime.Hour, GoTime.Second.
  intros H%Z.ltb_ge.
  assert ((GoTime.unixNano e - GoTime.unixNano t + 3600 * 1000000000 - 1)
            `div` (3600 * 1000000000) <= 0) by (Z.div_mod_to_equations; lia).
  lia.
Qed.

Lemma hourLoop_fuel fuel body e hourly t :
  (hourCount t e <= fuel)%nat ->
  hourLoop fuel body e hourly t = hourLoop (hourCount t e) body e hourly t.
Proof.
  revert hourly t. induction fuel as [|fuel IH]; intros hourly t Hf.
  - by replace (hourCount t e) with 0%nat by lia.
  - destruct (GoTime.Before t e) eqn:Hb.
    + rewrite (hourCount_step _ _ Hb) in *. simpl. rewrite Hb. apply IH. lia.
    + rewrite (hourCount_done _ _ Hb). simpl. by rewrite Hb.
Qed.

(** A bucket that no step of the walk is labelled with is left as it was. *)
Lemma hourLoop_frame fuel body e hourly t (h : nat) lo l0 :
  (forall hourly t, lo <= GoTime.unixNano t < GoTime.unixNano e ->
                    GoTime.loc t = l0 ->
                    body hourly t !! h = hourly !! h) ->
  lo <= GoTime.unixNano t -> GoTime.loc t = l0 ->
  hourLoop fuel body e hourly t !! h = hourly !! h.
Proof.
  intros Hbody. revert hourly t.
  induction fuel as [|fuel IH]; intros hourly t Hlo Hloc; simpl; [done |].
  destruct (GoTime.Before t e) eqn:Hb; [|done].
  unfold GoTime.Before in Hb. apply Z.ltb_lt in Hb.
  rewrite IH.
  - apply Hbody; [lia | done].
  - unfold GoTime.Add, GoTime.Hour, GoTime.Second. simpl. lia.
  - done.
Qed.

Lemma Hour_range t : 0 <= GoTime.Hour_ t < 24.
Proof. unfold GoTime.Hour_. Z.div_mod_to_equations. lia. Qed.

(** Within 23 hours of the instant the clocks go forward, no instant reads
    the skipped hour. *)
Lemma skipped_label l T offset t :
  springForwardAt l T offset ->
  (T - 82800) * GoTime.Second <= GoTime.unixNano t < (T + 82800) * GoTime.Second ->
  Z.to_nat (GoTime.Hour_ (GoTime.In t l)) <> skippedHour T offset.
Proof.
  intros (Hbefore & Hafter & Hhour) Ht.
  pose proof (Hour_range (GoTime.In t l)) as Hr.
  unfold skippedHour. intros Heq. apply Z2Nat.inj in Heq; [|lia|Z.div_mod_to_equations; lia].
  revert Heq. unfold GoTime.Hour_, GoTime.wallSec, GoTime.unixSec. simpl.
  unfold GoTime.Second in *.
  set (sec := GoTime.unixNano t `div` 1000000000).
  assert (T - 82800 <= sec < T + 82800) as Hsec.
  { unfold sec. Z.div_mod_to_equations. lia. }
  destruct (Z.lt_ge_cases sec T) as [Hlt|Hge].
  - rewrite (Hbefore sec ltac:(lia)). Z.div_mod_to_equations. lia.
  - rewrite (Hafter sec ltac:(lia)). Z.div_mod_to_equations. lia.
Qed.

Lemma startHourBoundary_loc cd :
  GoTime.loc (startHourBoundary cd) = GoTime.loc (StartTime cd).
Proof.
  unfold startHourBoundary, GoTime.Date, GoTime.Location_.
  destruct (GoTime.lookup _ _) as [[? ?] ?]. done.
Qed.

Lemma NewYork_2024_springForward : springForwardAt NewYork 1710054000 (-18000).
Proof.
  split; [|split; [|by vm_compute]]; intros sec Hsec;
    unfold GoTime.offsetAt, GoTime.lookup, NewYork; simpl;
    repeat match goal with |- context [sec <? ?w] => destruct (Z.ltb_spec sec w); try lia end;
    done.
Qed.

(** C8, as stated, fails: the record from 1:59AM to 1:58AM of the next day
    spans the instant the clocks of New York went forward in 2024, and its
    last step, at 2:00AM of the next day, puts an entry in the bucket of
    hour 2. *)
Lemma skipped_hour_of_the_next_day :
  springForwardAt NewYork 1710054000 (-18000) /\
  skippedHour 1710054000 (-18000) = 2%nat /\
  GoTime.unixSec (StartTime aroundTheClock) < 1710054000
    < GoTime.unixSec (normalizedEnd aroundTheClock) /\
  bucket (HourlyRequirements (GenerateSchedule [aroundTheClock] utilization1 0)) 2
  = [mkCustomerRequirement "AroundTheClock" 1 (Some NewYork) 1].
Proof.
  split; [apply NewYork_2024_springForward |].
  split; [by vm_compute | split; [by vm_compute | by vm_compute]].
Qed.

(** C8, amended.  When the walk over the hours of a record stays within 23
    hours of the instant at which the clocks of its home zone go forward,
    the record puts no entry in the bucket of the skipped hour: each step
    is one elapsed hour after the one before and is labelled with the hour
    its start instant reads in the home zone. *)
Theorem spring_forward_skip cd utilization hourly T offset :
  springForwardAt (homeZone cd) T offset ->
  (T - 82800) * GoTime.Second <= GoTime.unixNano (startHourBoundary cd) ->
  GoTime.unixNano (endHourBoundary cd) <= (T + 82800) * GoTime.Second ->
  recordStep utilization hourly cd !! skippedHour T offset
  = hourly !! skippedHour T offset.
Proof.
  intros Hsf Hstart Hend. unfold recordStep.
  destruct (F64.leb _ _); [done |].
  apply (hourLoop_frame _ _ _ _ _ _ ((T - 82800) * GoTime.Second)
           (GoTime.loc (StartTime cd))); [|done|apply startHourBoundary_loc].
  intros hourly' t Ht Hloc. unfold hourStep.
  destruct (F64.leb _ _); [done |].
  apply list_lookup_alter_ne.
  assert (match cdLocation cd with Some l => GoTime.In t l | None => t end
          = GoTime.In t (homeZone cd)) as ->.
  { unfold homeZone. destruct (cdLocation cd); simpl; [done |].
    rewrite <- Hloc. by destruct t. }
  apply skipped_label; [done | lia].
Qed.

Lemma spring_forward_skip_witness :
  recordStep utilization1 (replicate 24 []) springForward !! 2%nat = Some [].
Proof.
  apply (spring_forward_skip springForward utilization1 (replicate 24 [])
           1710054000 (-18000)).
  - apply NewYork_2024_springForward.
  - vm_compute. discriminate.
  - vm_compute. discriminate.
Defined.

End WalkFacts.

(* ===================================================================== *)
(** * The allocator and the schedule it ends up in                        *)
(* ===================================================================== *)

Module AllocatorTheorems.
Import models scheduler props invariants Int64Facts AllocFacts AssembleFacts SliceFacts.

(** The allocator alone, for a capacity that is not negative. *)
Lemma allocate_conserves requests capacity :
  needsInRange requests ->
  0 <= capacity ->
  capacity + negLoad requests <= Int64.max_int ->
  Int64.add (totalDemandOf (allocateWithConstraints requests capacity).1)
            (from_option UnmetAgents 0 (allocateWithConstraints requests capacity).2)
  = totalDemandOf requests.
Proof.
  intros Hr Hc Hb. unfold allocateWithConstraints.
  destruct requests as [|r0 requests']; [done |].
  set (requests := r0 :: requests') in *. simpl length. simpl Nat.eqb. cbv iota.
  destruct (Z.geb_spec capacity (totalDemandOf requests)) as [Hfast|Hslow].
  { simpl. unfold Int64.add. rewrite Z.add_0_r. apply wrap_id, totalDemandOf_in_range. }
  pose proof (Slice_Permutation requests) as Hperm.
  set (sorted := GoSort.Slice lessPriority requests) in *.
  assert (needsInRange sorted) as Hr'.
  { unfold needsInRange. by rewrite Hperm. }
  destruct (allocLoop_spec sorted (mkAllocState [] [] capacity) Hr' Hc) as (H0 & Hsum & Hcase).
  { simpl. by rewrite (negLoad_Permutation _ _ Hperm). }
  simpl in Hsum, Hcase.
  set (st := foldl allocStep (mkAllocState [] [] capacity) sorted) in *.
  destruct Hcase as [[Himp Hrem] | [Hlen Hrem]].
  - (* every request served in full: impossible below the total demand *)
    exfalso.
    assert (Int64.in_range (sumAgents sorted)) as Hin.
    { pose proof (sumAgents_lower sorted). pose proof (negLoad_nonneg sorted).
      rewrite (negLoad_Permutation _ _ Hperm) in *.
      unfold Int64.in_range, Int64.min_int, Int64.max_int in *. lia. }
    rewrite <- (totalDemandOf_Permutation _ _ Hperm), totalDemandOf_wrap, wrap_id in Hslow by done.
    lia.
  - destruct (Nat.ltb_spec 0 (length (impactedClients st))); [|lia]. simpl.
    rewrite totalDemandOf_wrap. unfold Int64.add, Int64.sub.
    rewrite wrap_add_l, wrap_add_r.
    replace (sumAgents (allocated st) + (totalDemandOf requests - capacity))
      with (totalDemandOf requests) by lia.
    apply wrap_id, totalDemandOf_in_range.
Qed.

(** C1, amended (conservation).  For every input, utilization and
    capacity, and every hour [h] whose negative entries cannot push the
    running remainder [remaining] past the largest [int], the agents
    allocated in hour [h] of the schedule plus the unmet agents recorded for
    [h] (0 when there is no record) equal the demand of hour [h] before any
    capacity constraint.  The entries of a bucket are Go [int]s and the
    sums are Go's; negative entries only come from negative call counts,
    and for a bucket without them the condition says no more than that the
    capacity is an [int]. *)
Theorem conservation data utilization capacityPerHour h :
  (h < 24)%nat ->
  capacityPerHour + negLoad (bucket (hourlyRequestsOf data utilization) h) <= Int64.max_int ->
  let s := GenerateSchedule data utilization capacityPerHour in
  Int64.add (totalDemandOf (bucket (HourlyRequirements s) h)) (unmetAgentsAt s h)
  = totalDemandOf (bucket (hourlyRequestsOf data utilization) h).
Proof.
  intros Hh Hb s. subst s.
  destruct (Z.lt_ge_cases 0 capacityPerHour) as [Hpos|Hnp].
  - destruct (GenerateSchedule_constrained data utilization capacityPerHour h Hpos Hh)
      as (-> & -> & _).
    apply allocate_conserves; [|lia|done].
    pose proof (hourlyRequestsOf_inRange data utilization) as Hall.
    unfold bucket. destruct (_ !! h) as [b|] eqn:Hb'; [|constructor].
    by eapply (Forall_lookup_1 _ _ _ _ Hall).
  - rewrite GenerateSchedule_unconstrained by done. simpl.
    unfold Int64.add. rewrite Z.add_0_r. apply wrap_id, totalDemandOf_in_range.
Qed.

(** C3 (fast path).  A non-empty demand list whose total does not exceed
    the capacity is returned as it is, with no [UnmetDemand]; and with
    [capacityPerHour = 0] the schedule holds the buckets as they were
    aggregated, with no [UnmetDemand] at all. *)
Theorem fast_path_idempotence :
  (forall requests capacity,
      requests <> [] -> totalDemandOf requests <= capacity ->
      allocateWithConstraints requests capacity = (requests, None)) /\
  (forall data utilization,
      GenerateSchedule data utilization 0
      = mkSchedule (hourlyRequestsOf data utilization) []).
Proof.
  split.
  - intros requests capacity Hne Hle. unfold allocateWithConstraints.
    destruct requests; [done |]. simpl length. simpl Nat.eqb. cbv iota.
    destruct (Z.geb_spec capacity (totalDemandOf (c :: requests))); [done | lia].
  - intros. by apply GenerateSchedule_unconstrained.
Qed.

Lemma allocate_unmetExact requests capacity ud :
  needsInRange requests -> 0 < capacity ->
  (allocateWithConstraints requests capacity).2 = Some ud ->
  unmetExact ud.
Proof.
  intros Hr Hc. unfold allocateWithConstraints.
  destruct (length requests =? 0)%nat; [done |].
  destruct (Z.geb_spec capacity (totalDemandOf requests)) as [|Hlt]; [done |].
  pose proof (Slice_Permutation requests) as Hperm.
  set (sorted := GoSort.Slice lessPriority requests) in *.
  destruct (0 <? length _)%nat; [|done]. simpl. intros [= <-].
  split; simpl.
  - apply sub_exact. pose proof (totalDemandOf_in_range requests).
    unfold Int64.in_range, Int64.min_int, Int64.max_int in *. lia.
  - apply allocLoop_impactedExact; [|constructor].
    unfold needsInRange. by rewrite Hperm.
Qed.

(** C4 (the guarantees to the formatter).  Every schedule has its 24 hour
    buckets; in every [UnmetDemand],
    [UnmetAgents = TotalDemand - AllocatedAgents], and in every
    [ImpactedClient] of it,
    [UnmetAgents = RequestedAgents - AllocatedAgents], as exact integers. *)
Theorem schedule_guarantees data utilization capacityPerHour :
  length (HourlyRequirements (GenerateSchedule data utilization capacityPerHour)) = 24%nat /\
  Forall unmetExact (UnmetDemands (GenerateSchedule data utilization capacityPerHour)).
Proof.
  destruct (Z.lt_ge_cases 0 capacityPerHour) as [Hpos|Hnp].
  - pose proof (hourlyRequestsOf_length data utilization) as Hlen.
    pose proof (hourlyRequestsOf_inRange data utilization) as Hall.
    split.
    + unfold GenerateSchedule, applyCapacity. destruct (Z.gtb_spec capacityPerHour 0); [|lia].
      destruct (capacityLoop_spec capacityPerHour (hourlyRequestsOf data utilization) 24
                  ltac:(lia)) as [-> _].
      rewrite length_app, length_fmap, length_take, length_drop. lia.
    + destruct (GenerateSchedule_constrained data utilization capacityPerHour 0 Hpos
                  ltac:(lia)) as (_ & _ & ->).
      apply Forall_forall. intros ud (h & _ & Hud)%list_elem_of_omap.
      unfold unmetRecord in Hud.
      destruct (allocateWithConstraints _ _).2 as [ud0|] eqn:Hal; simplify_eq/=.
      assert (unmetExact ud0) as [E1 E2].
      { eapply allocate_unmetExact; [|exact Hpos|exact Hal].
        unfold bucket. destruct (_ !! h) as [b|] eqn:Hb'; [|constructor].
        by eapply (Forall_lookup_1 _ _ _ _ Hall). }
      by split.
  - rewrite GenerateSchedule_unconstrained by done. simpl.
    split; [apply hourlyRequestsOf_length | constructor].
Qed.

(** C10 (negative capacity).  A negative [capacityPerHour] gives the
    schedule that [capacityPerHour = 0] gives: the aggregated buckets, the
    allocator never run, no [UnmetDemand]. *)
Theorem negative_capacity_unconstrained data utilization capacityPerHour :
  capacityPerHour < 0 ->
  GenerateSchedule data utilization capacityPerHour = GenerateSchedule data utilization 0 /\
  GenerateSchedule data utilization capacityPerHour
  = mkSchedule (hourlyRequestsOf data utilization) [].
Proof.
  intros Hneg. rewrite !GenerateSchedule_unconstrained by lia. done.
Qed.

End AllocatorTheorems.

Module AllocatorExamples.
Import models scheduler props invariants examples AllocatorTheorems SliceFacts.

(** C1, as stated, fails: not for every bucket and every capacity.  The
    running remainder [remaining] is an [int], and a negative entry makes
    [remaining -= req.AgentsNeeded] add to it.  Three records put the
    entries -2^62, 2^62 and 3*2^61 in bucket 10, a demand of 3*2^61; with a
    capacity of 2^62 the first entry is served and takes the remainder to
    2^63, which wraps around to -2^63, so the other two receive nothing.
    The allocated agents are -2^62 and the unmet agents 2^61: together
    -2^61, not 3*2^61. *)
Lemma conservation_wraps_around :
  let s := GenerateSchedule [credit; bulk; bulkier] utilization1 (2 ^ 62) in
  bucket (hourlyRequestsOf [credit; bulk; bulkier] utilization1) 10
  = [mkCustomerRequirement "Credit" (- 2 ^ 62) (Some GoTime.UTC) 1;
     mkCustomerRequirement "Bulk" (2 ^ 62) (Some GoTime.UTC) 2;
     mkCustomerRequirement "Bulkier" (3 * 2 ^ 61) (Some GoTime.UTC) 3] /\
  bucket (HourlyRequirements s) 10
  = [mkCustomerRequirement "Credit" (- 2 ^ 62) (Some GoTime.UTC) 1] /\
  unmetAgentsAt s 10 = 2 ^ 61 /\
  Int64.add (totalDemandOf (bucket (HourlyRequirements s) 10)) (unmetAgentsAt s 10)
  = - 2 ^ 61 /\
  totalDemandOf (bucket (hourlyRequestsOf [credit; bulk; bulkier] utilization1) 10)
  = 3 * 2 ^ 61.
Proof. repeat split; by vm_compute. Qed.

Lemma conservation_witness :
  Int64.add
    (totalDemandOf
       (bucket (HourlyRequirements
                  (GenerateSchedule [highPriority; lowPriority] utilization1 15)) 10))
    (unmetAgentsAt (GenerateSchedule [highPriority; lowPriority] utilization1 15) 10)
  = totalDemandOf (bucket (hourlyRequestsOf [highPriority; lowPriority] utilization1) 10).
Proof.
  apply (conservation [highPriority; lowPriority] utilization1 15 10); [lia |].
  vm_compute. discriminate.
Defined.

Lemma fast_path_idempotence_witness :
  allocateWithConstraints threeRequests 24 = (threeRequests, None).
Proof.
  apply (proj1 fast_path_idempotence threeRequests 24); [discriminate |].
  vm_compute. discriminate.
Defined.

Lemma negative_capacity_unconstrained_witness :
  GenerateSchedule [highPriority; lowPriority] utilization1 (-3)
  = GenerateSchedule [highPriority; lowPriority] utilization1 0 /\
  GenerateSchedule [highPriority; lowPriority] utilization1 (-3)
  = mkSchedule (hourlyRequestsOf [highPriority; lowPriority] utilization1) [].
Proof.
  apply (negative_capacity_unconstrained [highPriority; lowPriority] utilization1 (-3)). lia.
Defined.

(** C5, as stated, fails: with thirteen requests, "A" of priority 2 ahead
    of "B" to "M" of priority 1, and room for twelve, the allocator serves
    "G" first and "B" second, though "B" came before "G" in the input and
    both have priority 1. *)
Lemma sort_not_stable :
  Name <$> (allocateWithConstraints thirteenRequests 12).1
  = ["G"; "B"; "C"; "D"; "E"; "F"; "H"; "I"; "J"; "K"; "L"; "M"]%string /\
  ~ keepsTies thirteenRequests (GoSort.Slice lessPriority thirteenRequests).
Proof.
  split; [by vm_compute |].
  intros H. specialize (H 1). apply (f_equal (fmap Name)) in H.
  vm_compute in H. discriminate.
Qed.

(** C5, amended.  The sort puts the demand list in ascending order of
    priority, losing and adding nothing; entries of equal priority keep the
    order of the input as long as the list has at most twelve entries,
    which [sort.Slice] sorts by insertion. *)
Theorem sort_by_priority requests :
  GoSort.Slice lessPriority requests ≡ₚ requests /\
  byPriority (GoSort.Slice lessPriority requests) /\
  ((length requests <= 12)%nat ->
   keepsTies requests (GoSort.Slice lessPriority requests)).
Proof.
  split; [apply Slice_Permutation |]. split; [apply Slice_byPriority |].
  intros Hlen p. by apply Slice_keepsTies_short.
Qed.

Lemma sort_by_priority_witness :
  keepsTies threeRequests (GoSort.Slice lessPriority threeRequests).
Proof.
  apply (proj2 (proj2 (sort_by_priority threeRequests))). simpl. lia.
Defined.


End AllocatorExamples.

(* ===================================================================== *)
(** * Utilization                                                         *)
(* ===================================================================== *)

Module UtilizationTheorems.
Import models scheduler props examples.

(** C6, as stated, fails: 2 is outside (0, 1], and for it the core returns
    a schedule, computed with it: half the ten agents. *)
Lemma utilization_not_validated :
  F64.ltb (F64.of_int 1) (F64.of_int 2) = true /\
  GenerateSchedule [highPriority] (F64.of_int 2) 0
  = mkSchedule
      (replicate 10 [] ++
       [[mkCustomerRequirement "HighPriority" 5 (Some GoTime.UTC) 1]] ++
       replicate 13 [])
      [].
Proof. split; by vm_compute. Qed.

Lemma compare_antisym (x y : spec_float) :
  SFcompare x y = Some Lt -> SFcompare y x = Some Gt.
Proof.
  destruct x as [[]|[]| |[] m e], y as [[]|[]| |[] m' e']; simpl; try done;
    intros [= H]; f_equal; revert H;
    rewrite (Z.compare_antisym e e'); destruct (e ?= e'); simpl; try done;
    rewrite !Pos.compare_cont_spec, (Pos.compare_antisym m m'); simpl;
    destruct (m ?= m')%positive; simpl; done.
Qed.

Lemma compare_eq_sym (x y : spec_float) :
  SFcompare x y = Some Eq -> SFcompare y x = Some Eq.
Proof.
  destruct x as [[]|[]| |[] m e], y as [[]|[]| |[] m' e']; simpl; try done;
    intros [= H]; f_equal; revert H;
    rewrite (Z.compare_antisym e e'); destruct (e ?= e'); simpl; try done;
    rewrite !Pos.compare_cont_spec, (Pos.compare_antisym m m'); simpl;
    destruct (m ?= m')%positive; simpl; done.
Qed.

Lemma ltb_false_of_lt x y : F64.ltb x y = true -> F64.ltb y x = false.
Proof.
  unfold F64.ltb, SFltb. destruct (SFcompare x y) as [[]|] eqn:Hc; try done.
  by rewrite (compare_antisym _ _ Hc).
Qed.

Lemma ltb_false_of_le x y : F64.leb x y = true -> F64.ltb y x = false.
Proof.
  unfold F64.ltb, F64.leb, SFltb, SFleb. destruct (SFcompare x y) as [[]|] eqn:Hc; try done.
  - by rewrite (compare_eq_sym _ _ Hc).
  - by rewrite (compare_antisym _ _ Hc).
Qed.

(** C6, amended.  The range of the utilization is checked by the caller:
    [main] exits with status 1, before the core is called, when the
    utilization is below 0 or above 1; a utilization in (0, 1] is handed
    to [GenerateSchedule], which has no way to refuse it; and so is a
    utilization of zero, of either sign, or a NaN, which neither
    comparison of the check holds for. *)
Theorem utilization_checked_by_caller readInput input format utilization capacity :
  (F64.ltb utilization (F64.of_int 0) = true \/ F64.ltb (F64.of_int 1) utilization = true ->
   cli.main readInput input format utilization capacity = cli.Exit 1) /\
  (F64.ltb (F64.of_int 0) utilization = true -> F64.leb utilization (F64.of_int 1) = true ->
   input <> EmptyString -> cli.validFormats format = true ->
   forall data, readInput input = Some data ->
   cli.main readInput input format utilization capacity
   = cli.Printed format (GenerateSchedule data utilization capacity)) /\
  (utilization = F64.of_int 0 \/ utilization = S754_zero true \/
   F64.is_nan utilization = true ->
   input <> EmptyString -> cli.validFormats format = true ->
   forall data, readInput input = Some data ->
   cli.main readInput input format utilization capacity
   = cli.Printed format (GenerateSchedule data utilization capacity)).
Proof.
  unfold cli.main. split; [|split].
  - intros Hout. destruct (String.eqb input EmptyString); [done |].
    destruct (negb (cli.validFormats format)); [done |].
    destruct Hout as [-> | ->]; [done |]. by rewrite orb_true_r.
  - intros Hpos Hle Hin Hfmt data Hread.
    destruct (String.eqb_spec input EmptyString); [done |].
    rewrite Hfmt, Hread, (ltb_false_of_lt _ _ Hpos), (ltb_false_of_le _ _ Hle). done.
  - intros Hzero Hin Hfmt data Hread.
    destruct (String.eqb_spec input EmptyString); [done |].
    rewrite Hfmt, Hread.
    destruct Hzero as [-> | [-> | Hnan]]; [done | done |].
    destruct utilization; try done.
Qed.

Lemma utilization_checked_by_caller_witness :
  cli.main (fun _ => Some [highPriority]) "in.csv" "text" (F64.of_int 2) 0 = cli.Exit 1 /\
  cli.main (fun _ => Some [highPriority]) "in.csv" "text" (F64.of_int 1) 0
  = cli.Printed "text" (GenerateSchedule [highPriority] (F64.of_int 1) 0) /\
  cli.main (fun _ => Some [highPriority]) "in.csv" "text" (F64.of_int 0) 0
  = cli.Printed "text" (GenerateSchedule [highPriority] (F64.of_int 0) 0).
Proof.
  split; [|split].
  - apply (proj1 (utilization_checked_by_caller (fun _ => Some [highPriority])
                    "in.csv" "text" (F64.of_int 2) 0)).
    right. by vm_compute.
  - apply (proj1 (proj2 (utilization_checked_by_caller (fun _ => Some [highPriority])
                           "in.csv" "text" (F64.of_int 1) 0))); try done; by vm_compute.
  - apply (proj2 (proj2 (utilization_checked_by_caller (fun _ => Some [highPriority])
                           "in.csv" "text" (F64.of_int 0) 0))); try done. by left.
Defined.

End UtilizationTheorems.

(* ===================================================================== *)
(** * More on the allocation pass                                         *)
(* ===================================================================== *)

Module AllocationShape.
Import models scheduler props invariants Int64Facts AllocFacts AssembleFacts SliceFacts.

Lemma nonNegative_inRange l : nonNegative l -> needsInRange l.
Proof.
  intros Hl. eapply Forall_impl; [exact Hl |]. intros r [H0 H1]. split; [| done].
  assert (Int64.min_int <= 0) by by vm_compute. lia.
Qed.

Lemma nonNegative_negLoad l : nonNegative l -> negLoad l = 0.
Proof. induction 1 as [|r l [H0 _] _ IH]; simpl; lia. Qed.

Lemma nonNegative_sum l : nonNegative l -> 0 <= sumAgents l.
Proof. induction 1 as [|r l [H0 _] _ IH]; simpl; lia. Qed.

Lemma nonNegative_Permutation l k : l ≡ₚ k -> nonNegative l -> nonNegative k.
Proof. intros Hp. unfold nonNegative. by rewrite Hp. Qed.

(** The pass over a list of non-negative requests, started with a
    capacity that is not negative. *)
Lemma allocPass_nonNegative sorted capacity :
  nonNegative sorted -> 0 <= capacity <= Int64.max_int ->
  let st := foldl allocStep (mkAllocState [] [] capacity) sorted in
  0 <= remaining st /\
  sumAgents (allocated st) + remaining st = capacity /\
  ((impactedClients st = [] /\ sumAgents sorted <= capacity) \/
   (impactedClients st <> [] /\ remaining st = 0)).
Proof.
  intros Hnn Hcap st.
  pose proof (allocLoop_spec sorted (mkAllocState [] [] capacity)
                (nonNegative_inRange _ Hnn) ltac:(simpl; lia)
                ltac:(simpl; rewrite (nonNegative_negLoad _ Hnn); lia)) as (H0 & Hsum & Hcase).
  fold st in H0, Hsum, Hcase. simpl in Hsum, Hcase.
  split; [done |]. split; [lia |].
  destruct Hcase as [[Himp Hrem] | [Hlen Hrem]].
  - left. split; [done | lia].
  - right. split; [| done]. intros Heq. rewrite Heq in Hlen. simpl in Hlen. lia.
Qed.

Lemma allocate_cases requests capacity :
  allocateWithConstraints requests capacity = (requests, None) \/
  (capacity < totalDemandOf requests /\
   let st := foldl allocStep (mkAllocState [] [] capacity)
                   (GoSort.Slice lessPriority requests) in
   (allocateWithConstraints requests capacity).1 = allocated st /\
   impactedOf (allocateWithConstraints requests capacity).2 = impactedClients st /\
   (is_Some (allocateWithConstraints requests capacity).2 <-> impactedClients st <> []) /\
   forall ud, (allocateWithConstraints requests capacity).2 = Some ud ->
              TotalDemand ud = totalDemandOf requests /\ AllocatedAgents ud = capacity /\
              UnmetAgents ud = Int64.sub (totalDemandOf requests) capacity).
Proof.
  unfold allocateWithConstraints.
  destruct requests as [|r requests]; [by left |].
  change (length (r :: requests) =? 0)%nat with false. cbv iota.
  destruct (Z.geb_spec capacity (totalDemandOf (r :: requests))) as [Hge | Hlt]; [by left |].
  right. split; [lia |]. cbv zeta.
  set (st := foldl allocStep _ _).
  destruct (impactedClients st) as [|ic ics] eqn:Eimp; simpl.
  - repeat split; try done.
  - repeat split; try done; try (by eexists);
      match goal with H : Some _ = Some _ |- _ => by injection H as <- end.
Qed.

Lemma allocate_fast requests capacity :
  requests = [] \/ totalDemandOf requests <= capacity ->
  allocateWithConstraints requests capacity = (requests, None).
Proof.
  intros [-> | Hle]; [done |]. unfold allocateWithConstraints.
  destruct requests as [|r requests]; [done |].
  change (length (r :: requests) =? 0)%nat with false. cbv iota.
  by destruct (Z.geb_spec capacity (totalDemandOf (r :: requests))); [| lia].
Qed.

Lemma allocate_slow requests capacity :
  requests <> [] -> capacity < totalDemandOf requests ->
  let st := foldl allocStep (mkAllocState [] [] capacity)
                  (GoSort.Slice lessPriority requests) in
  allocateWithConstraints requests capacity
  = (allocated st,
     if decide (impactedClients st = []) then None
     else Some (mkUnmetDemand 0 (totalDemandOf requests) capacity
                  (Int64.sub (totalDemandOf requests) capacity) (impactedClients st))).
Proof.
  intros Hne Hlt st. unfold allocateWithConstraints.
  destruct requests as [|r requests]; [done |].
  change (length (r :: requests) =? 0)%nat with false. cbv iota.
  destruct (Z.geb_spec capacity (totalDemandOf (r :: requests))); [lia |].
  cbv zeta. fold st. by destruct (impactedClients st).
Qed.

Lemma allocStep_full st req :
  0 < remaining st -> AgentsNeeded req <= remaining st ->
  allocStep st req
  = mkAllocState (allocated st ++ [req]) (impactedClients st)
                 (Int64.sub (remaining st) (AgentsNeeded req)).
Proof.
  intros H0 Hfit. unfold allocStep.
  destruct (Z.leb_spec (remaining st) 0); [lia |].
  by destruct (Z.geb_spec (remaining st) (AgentsNeeded req)); [| lia].
Qed.

Lemma allocStep_partial st req :
  0 < remaining st < AgentsNeeded req ->
  allocStep st req
  = mkAllocState (allocated st ++ [partlyServed req (remaining st)])
                 (impactedClients st ++ [partlyUnmet req (remaining st)]) 0.
Proof.
  intros H0. unfold allocStep.
  destruct (Z.leb_spec (remaining st) 0); [lia |].
  by destruct (Z.geb_spec (remaining st) (AgentsNeeded req)); [lia |].
Qed.

(** The pass in general: the requests are served in order until the
    capacity runs out; the one it runs out on is served in part when
    something is left for it, and every later one gets nothing. *)
Lemma allocPass_shape l : forall st,
  exists served rest,
    l = served ++ rest /\
    ((allocated (foldl allocStep st l) = allocated st ++ served /\
      impactedClients (foldl allocStep st l)
      = impactedClients st ++ (fullyUnmet <$> rest)) \/
     (exists req rest' given,
         rest = req :: rest' /\ 0 < given < AgentsNeeded req /\
         allocated (foldl allocStep st l)
         = allocated st ++ served ++ [partlyServed req given] /\
         impactedClients (foldl allocStep st l)
         = impactedClients st ++ partlyUnmet req given :: (fullyUnmet <$> rest'))).
Proof.
  induction l as [|req l IH]; intros st.
  - exists [], []. split; [done |]. left. simpl. by rewrite !app_nil_r.
  - destruct (Z.le_gt_cases (remaining st) 0) as [Hout | Hleft].
    + (* nothing left: this request and all the others get nothing *)
      exists [], (req :: l). split; [done |]. left.
      rewrite foldl_allocStep_exhausted by done. simpl. by rewrite app_nil_r.
    + change (foldl allocStep st (req :: l)) with (foldl allocStep (allocStep st req) l).
      destruct (Z.le_gt_cases (AgentsNeeded req) (remaining st)) as [Hfits | Hshort].
      * (* served in full; the rest goes on *)
        rewrite allocStep_full by lia.
        destruct (IH (mkAllocState (allocated st ++ [req]) (impactedClients st)
                        (Int64.sub (remaining st) (AgentsNeeded req))))
          as (served & rest & -> & IH').
        exists (req :: served), rest. split; [done |]. simpl in IH'.
        destruct IH' as [[Ha Hi] | (req' & rest' & given & -> & Hg & Ha & Hi)].
        -- left. rewrite Ha, Hi. split; [| done]. by rewrite <- app_assoc.
        -- right. exists req', rest', given. rewrite Ha, Hi.
           repeat split; try done; try lia. by rewrite <- !app_assoc.
      * (* served in part; all the others get nothing *)
        rewrite allocStep_partial by lia.
        exists [], (req :: l). split; [done |]. right.
        exists req, l, (remaining st).
        rewrite foldl_allocStep_exhausted by (simpl; lia). simpl.
        repeat split; try done; try lia. by rewrite <- app_assoc.
Qed.

Lemma omap_seq_hours capacity hourly a n :
  StronglySorted (fun u1 u2 => Hour u1 < Hour u2)
                 (omap (unmetRecord capacity hourly) (seq a n)) /\
  Forall (fun ud => Z.of_nat a <= Hour ud < Z.of_nat (a + n))
         (omap (unmetRecord capacity hourly) (seq a n)).
Proof.
  revert a. induction n as [|n IH]; intros a; simpl; [by split; constructor |].
  destruct (IH (S a)) as [Hs Hf].
  destruct (unmetRecord capacity hourly a) as [ud|] eqn:Eud.
  - assert (Hour ud = Z.of_nat a) as Hh.
    { unfold unmetRecord in Eud.
      destruct (allocateWithConstraints _ _).2; simpl in Eud; [| done].
      by injection Eud as <-. }
    split.
    + constructor; [done |]. eapply Forall_impl; [exact Hf |]. simpl. lia.
    + constructor; [lia |]. eapply Forall_impl; [exact Hf |]. simpl. lia.
  - split; [done |]. eapply Forall_impl; [exact Hf |]. simpl. lia.
Qed.

Lemma UnmetDemands_sorted data utilization capacityPerHour :
  StronglySorted (fun u1 u2 => Hour u1 < Hour u2)
                 (UnmetDemands (GenerateSchedule data utilization capacityPerHour)).
Proof.
  destruct (Z.le_gt_cases capacityPerHour 0) as [Hle | Hgt].
  - rewrite GenerateSchedule_unconstrained by done. constructor.
  - destruct (GenerateSchedule_constrained data utilization capacityPerHour 0
                ltac:(lia) ltac:(lia)) as (_ & _ & ->).
    apply (omap_seq_hours capacityPerHour (hourlyRequestsOf data utilization) 0 24).
Qed.

Lemma byPriority_ext l k :
  Priority <$> l = Priority <$> k -> byPriority l -> byPriority k.
Proof.
  intros Heq Hl i j x y Hij Hx Hy.
  assert ((Priority <$> l) !! i = Some (Priority x)) as Hi
    by (by rewrite Heq, list_lookup_fmap, Hx).
  assert ((Priority <$> l) !! j = Some (Priority y)) as Hj
    by (by rewrite Heq, list_lookup_fmap, Hy).
  rewrite list_lookup_fmap in Hi, Hj.
  destruct (l !! i) as [x'|] eqn:Ei; [| done]. destruct (l !! j) as [y'|] eqn:Ej; [| done].
  simpl in Hi, Hj. injection Hi as <-. injection Hj as <-. by eapply Hl.
Qed.

Lemma byPriority_app_l l k : byPriority (l ++ k) -> byPriority l.
Proof.
  intros Hl i j x y Hij Hx Hy. eapply (Hl i j); [done | |]; by apply lookup_app_l_Some.
Qed.

End AllocationShape.

Module AllocatorProperties.
Import models scheduler props invariants Int64Facts AllocFacts AssembleFacts SliceFacts.
Import AllocationShape.


(** X2.  With a positive capacity and requests that are not negative, an
    unmet-demand record is produced exactly when the total demand, as the
    function adds it up, is above the capacity. *)
Theorem unmet_iff_over_capacity requests capacity :
  0 < capacity <= Int64.max_int -> nonNegative requests ->
  (is_Some (allocateWithConstraints requests capacity).2
   <-> capacity < totalDemandOf requests).
Proof.
  intros Hcap Hnn.
  destruct (Z.le_gt_cases (totalDemandOf requests) capacity) as [Hle | Hlt].
  - rewrite allocate_fast by auto. simpl. split; [by intros [? ?] | lia].
  - assert (requests <> []) as Hne by (intros ->; change (totalDemandOf []) with 0 in Hlt; lia).
    rewrite allocate_slow by done. cbv zeta. simpl.
    split; [done |]. intros _.
    pose proof (allocPass_nonNegative (GoSort.Slice lessPriority requests) capacity
                  (nonNegative_Permutation _ _ (symmetry (Slice_Permutation _)) Hnn)
                  ltac:(lia)) as (H0 & Hsum & Hcase).
    cbv zeta in Hcase. destruct Hcase as [[_ Hfit] | [Himp _]].
    + rewrite (sumAgents_Permutation _ _ (Slice_Permutation _)) in Hfit.
      rewrite totalDemandOf_wrap, Int64Facts.wrap_id in Hlt; [lia |].
      pose proof (nonNegative_sum _ Hnn). split; [| lia].
      assert (Int64.min_int <= 0) by (by vm_compute). lia.
    + by destruct (decide _).
Qed.

Lemma unmet_iff_over_capacity_witness :
  is_Some (allocateWithConstraints examples.threeRequests 15).2
  <-> 15 < totalDemandOf examples.threeRequests.
Proof.
  apply (unmet_iff_over_capacity examples.threeRequests 15).
  - by vm_compute.
  - repeat constructor; by vm_compute.
Defined.

(** X3.  While some client is impacted no capacity is left unused: with a
    positive capacity and requests that are not negative, the agents
    allocated in an hour that has an unmet-demand record add up to the
    capacity exactly, and the record reports that capacity and a positive
    number of unmet agents. *)
Theorem capacity_used_in_full requests capacity ud :
  0 < capacity <= Int64.max_int -> nonNegative requests ->
  (allocateWithConstraints requests capacity).2 = Some ud ->
  sumAgents (allocateWithConstraints requests capacity).1 = capacity /\
  totalDemandOf (allocateWithConstraints requests capacity).1 = capacity /\
  AllocatedAgents ud = capacity /\
  0 < UnmetAgents ud.
Proof.
  intros Hcap Hnn Hud.
  destruct (Z.le_gt_cases (totalDemandOf requests) capacity) as [Hle | Hlt];
    [by rewrite allocate_fast in Hud by auto |].
  assert (requests <> []) as Hne by (intros ->; change (totalDemandOf []) with 0 in Hlt; lia).
  rewrite allocate_slow in Hud |- * by done. cbv zeta in Hud |- *. simpl in Hud |- *.
  pose proof (allocPass_nonNegative (GoSort.Slice lessPriority requests) capacity
                (nonNegative_Permutation _ _ (symmetry (Slice_Permutation _)) Hnn)
                ltac:(lia)) as (H0 & Hsum & Hcase).
  cbv zeta in H0, Hsum, Hcase.
  destruct (decide _) as [Himp | Himp]; [done |]. injection Hud as <-. simpl.
  destruct Hcase as [[? _] | [_ Hrem]]; [done |].
  assert (Int64.min_int <= 0) by (by vm_compute).
  pose proof (totalDemandOf_in_range requests) as [? ?].
  split; [lia |]. split; [| split; [done |]].
  - rewrite totalDemandOf_wrap, Int64Facts.wrap_id; [lia | split; lia].
  - rewrite Int64Facts.sub_exact; [lia | split; lia].
Qed.

Lemma capacity_used_in_full_witness :
  sumAgents (allocateWithConstraints examples.threeRequests 15).1 = 15 /\
  totalDemandOf (allocateWithConstraints examples.threeRequests 15).1 = 15 /\
  AllocatedAgents (mkUnmetDemand 0 24 15 9
                     [mkImpactedClient "B" 10 5 5 2; mkImpactedClient "C" 4 0 4 3]) = 15 /\
  0 < UnmetAgents (mkUnmetDemand 0 24 15 9
                     [mkImpactedClient "B" 10 5 5 2; mkImpactedClient "C" 4 0 4 3]).
Proof.
  apply (capacity_used_in_full examples.threeRequests 15).
  - by vm_compute.
  - repeat constructor; by vm_compute.
  - by vm_compute.
Defined.

Lemma allocate_total_min requests capacity :
  0 < capacity <= Int64.max_int -> nonNegative requests ->
  totalDemandOf (allocateWithConstraints requests capacity).1
  = Z.min capacity (totalDemandOf requests).
Proof.
  intros Hcap Hnn.
  destruct (Z.le_gt_cases (totalDemandOf requests) capacity) as [Hle | Hlt];
    [rewrite allocate_fast by auto; simpl; lia |].
  assert (requests <> []) as Hne
    by (intros ->; change (totalDemandOf []) with 0 in Hlt; lia).
  rewrite allocate_slow by done. cbv zeta. simpl.
  pose proof (allocPass_nonNegative (GoSort.Slice lessPriority requests) capacity
                (nonNegative_Permutation _ _ (symmetry (Slice_Permutation _)) Hnn)
                ltac:(lia)) as (H0 & Hsum & Hcase).
  cbv zeta in H0, Hsum, Hcase.
  assert (Int64.min_int <= 0) by (by vm_compute).
  destruct Hcase as [[_ Hfit] | [_ Hrem]].
  - rewrite (sumAgents_Permutation _ _ (Slice_Permutation _)) in Hfit.
    pose proof (nonNegative_sum _ Hnn).
    rewrite (totalDemandOf_wrap requests), Int64Facts.wrap_id in Hlt; [lia | split; lia].
  - rewrite totalDemandOf_wrap, Int64Facts.wrap_id; [lia | split; lia].
Qed.

Lemma bucket_nonNegative data utilization h :
  Forall (fun r => 0 <= AgentsNeeded r) (bucket (hourlyRequestsOf data utilization) h) ->
  nonNegative (bucket (hourlyRequestsOf data utilization) h).
Proof.
  intros Hnn.
  assert (needsInRange (bucket (hourlyRequestsOf data utilization) h)) as Hin.
  { pose proof (hourlyRequestsOf_inRange data utilization) as Hall.
    unfold bucket. destruct (hourlyRequestsOf data utilization !! h) as [b|] eqn:Eb;
      [| constructor].
    simpl. by eapply (Forall_lookup_1 _ _ _ _ Hall). }
  unfold nonNegative. apply Forall_forall. intros r Hr.
  eapply Forall_forall in Hnn, Hin; try exact Hr. destruct Hin. lia.
Qed.

(** X4.  With a positive capacity, the agents [GenerateSchedule] schedules in
    an hour add up to the demand of the hour or to the capacity, whichever
    is less, as long as no entry of the hour asks for a negative number of
    agents: never more than the capacity, and never less than can be
    served. *)
Theorem scheduled_total_is_min data utilization capacityPerHour h :
  0 < capacityPerHour <= Int64.max_int -> (h < 24)%nat ->
  Forall (fun r => 0 <= AgentsNeeded r) (bucket (hourlyRequestsOf data utilization) h) ->
  totalDemandOf (bucket (HourlyRequirements
                           (GenerateSchedule data utilization capacityPerHour)) h)
  = Z.min capacityPerHour (totalDemandOf (bucket (hourlyRequestsOf data utilization) h)).
Proof.
  intros Hcap Hh Hnn.
  destruct (GenerateSchedule_constrained data utilization capacityPerHour h
              ltac:(lia) Hh) as (-> & _).
  apply allocate_total_min; [done |]. by apply bucket_nonNegative.
Qed.

Lemma scheduled_total_is_min_witness :
  totalDemandOf (bucket (HourlyRequirements
                    (GenerateSchedule [examples.highPriority; examples.lowPriority]
                                      examples.utilization1 15)) 10)
  = Z.min 15 (totalDemandOf
                (bucket (hourlyRequestsOf [examples.highPriority; examples.lowPriority]
                                          examples.utilization1) 10)).
Proof.
  apply (scheduled_total_is_min [examples.highPriority; examples.lowPriority]
                                examples.utilization1 15 10).
  - by vm_compute.
  - lia.
  - vm_compute. repeat constructor; discriminate.
Defined.

(** X5.  Allocating once is enough: handing the allocated list of an hour to
    [allocateWithConstraints] again, with the same capacity, returns it as
    it is, with no unmet demand. *)
Theorem allocation_is_stable requests capacity :
  0 < capacity <= Int64.max_int -> nonNegative requests ->
  allocateWithConstraints (allocateWithConstraints requests capacity).1 capacity
  = ((allocateWithConstraints requests capacity).1, None).
Proof.
  intros Hcap Hnn. apply allocate_fast. right.
  rewrite allocate_total_min by done. lia.
Qed.

Lemma allocation_is_stable_witness :
  allocateWithConstraints (allocateWithConstraints examples.threeRequests 15).1 15
  = ((allocateWithConstraints examples.threeRequests 15).1, None).
Proof.
  apply (allocation_is_stable examples.threeRequests 15).
  - by vm_compute.
  - repeat constructor; by vm_compute.
Defined.

(** X6.  The unmet-demand records of a schedule are in increasing order of
    hour, each for an hour from 0 to 23: no hour has two records. *)
Theorem unmet_hours_increasing data utilization capacityPerHour :
  StronglySorted (fun u1 u2 => Hour u1 < Hour u2)
                 (UnmetDemands (GenerateSchedule data utilization capacityPerHour)) /\
  Forall (fun ud => 0 <= Hour ud < 24)
         (UnmetDemands (GenerateSchedule data utilization capacityPerHour)).
Proof.
  split; [apply UnmetDemands_sorted |].
  destruct (Z.le_gt_cases capacityPerHour 0) as [Hle | Hgt].
  - rewrite GenerateSchedule_unconstrained by done. constructor.
  - destruct (GenerateSchedule_constrained data utilization capacityPerHour 0
                ltac:(lia) ltac:(lia)) as (_ & _ & ->).
    apply (omap_seq_hours capacityPerHour (hourlyRequestsOf data utilization) 0 24).
Qed.

(** X21.  In an hour whose demand is above the capacity the scheduled entries
    come in order of priority, whatever the order of the requests was. *)
Theorem constrained_hours_are_sorted requests capacity :
  capacity < totalDemandOf requests ->
  byPriority (allocateWithConstraints requests capacity).1.
Proof.
  intros Hlt. destruct (decide (requests = [])) as [-> | Hne].
  - rewrite allocate_fast by auto. intros i j x y _ Hx. simpl in Hx. by destruct i.
  - rewrite allocate_slow by done. cbv zeta. simpl.
    pose proof (Slice_byPriority requests) as Hsorted.
    destruct (allocPass_shape (GoSort.Slice lessPriority requests)
                              (mkAllocState [] [] capacity))
      as (served & rest & Hcut & Hshape).
    rewrite Hcut in Hsorted. simpl in Hshape.
    destruct Hshape as [[-> _] | (req & rest' & given & -> & _ & -> & _)].
    + by eapply byPriority_app_l.
    + apply (byPriority_ext (served ++ [req])); [by rewrite !fmap_app |].
      apply (byPriority_app_l _ rest'). by rewrite <- app_assoc.
Qed.

Lemma constrained_hours_are_sorted_witness :
  byPriority (allocateWithConstraints examples.threeRequests 15).1.
Proof. apply (constrained_hours_are_sorted examples.threeRequests 15). by vm_compute. Defined.

End AllocatorProperties.

(* ===================================================================== *)
(** * More on the walk over the hours of a record                         *)
(* ===================================================================== *)

Module RecordFacts.
Import models scheduler props invariants AssembleFacts ZeroCallFacts.

Lemma hourStep_entryOf cd utilization start end_ cph before hourly t :
  addsOnly (entryOf cd) before hourly ->
  addsOnly (entryOf cd) before (hourStep cd utilization start end_ cph hourly t).
Proof.
  intros Hgrow. unfold hourStep. cbv zeta.
  destruct (F64.leb _ _); [done |]. by apply addsOnly_alter.
Qed.

(** Appending to a bucket commutes with putting lists of buckets side by
    side. *)
Lemma alter_zip_with (first acc : list (list CustomerRequirement)) i r :
  alter (fun reqs => reqs ++ [r]) i (zip_with app first acc)
  = zip_with app first (alter (fun reqs => reqs ++ [r]) i acc).
Proof.
  revert acc i. induction first as [|b first IH]; intros [|c acc] [|i]; simpl; try done.
  - by rewrite <- app_assoc.
  - f_equal. apply IH.
Qed.

Lemma hourStep_zip_with cd utilization start end_ cph first acc t :
  hourStep cd utilization start end_ cph (zip_with app first acc) t
  = zip_with app first (hourStep cd utilization start end_ cph acc t).
Proof.
  unfold hourStep. cbv zeta. destruct (F64.leb _ _); [done |]. apply alter_zip_with.
Qed.

Lemma hourLoop_zip_with cd utilization start end_ cph e first fuel : forall acc t,
  hourLoop fuel (hourStep cd utilization start end_ cph) e (zip_with app first acc) t
  = zip_with app first (hourLoop fuel (hourStep cd utilization start end_ cph) e acc t).
Proof.
  induction fuel as [|fuel IH]; intros acc t; simpl; [done |].
  destruct (GoTime.Before t e); [| done]. by rewrite hourStep_zip_with, IH.
Qed.

Lemma recordStep_zip_with utilization first acc cd :
  recordStep utilization (zip_with app first acc) cd
  = zip_with app first (recordStep utilization acc cd).
Proof.
  unfold recordStep. cbv zeta. destruct (F64.leb _ _); [done |]. apply hourLoop_zip_with.
Qed.

Lemma foldl_recordStep_zip_with utilization first data : forall acc,
  foldl (recordStep utilization) (zip_with app first acc) data
  = zip_with app first (foldl (recordStep utilization) acc data).
Proof.
  induction data as [|cd data IH]; intros acc; simpl; [done |].
  by rewrite recordStep_zip_with, IH.
Qed.

Lemma zip_with_app_nil (hourly : list (list CustomerRequirement)) :
  zip_with app hourly (replicate (length hourly) []) = hourly.
Proof. induction hourly as [|b hourly IH]; simpl; [done |]. by rewrite app_nil_r, IH. Qed.

End RecordFacts.

Module RecordProperties.
Import models scheduler props invariants AssembleFacts ZeroCallFacts RecordFacts.

(** X7.  A record only adds to the buckets: what they held before stays, in
    place and in order, and every entry added bears the name, the zone and
    the priority of the record. *)
Theorem record_only_appends utilization hourly cd :
  addsOnly (entryOf cd) hourly (recordStep utilization hourly cd).
Proof.
  unfold recordStep. cbv zeta. destruct (F64.leb _ _); [apply addsOnly_refl |].
  apply (hourLoop_invariant (addsOnly (entryOf cd) hourly)); [| apply addsOnly_refl].
  intros acc t. apply hourStep_entryOf.
Qed.

(** X8.  A record whose end is the very instant of its start is left out: no
    bucket changes (and nothing is divided by its duration of zero). *)
Theorem empty_window_is_skipped utilization hourly cd :
  GoTime.unixNano (EndTime cd) = GoTime.unixNano (StartTime cd) ->
  recordStep utilization hourly cd = hourly.
Proof.
  intros Heq. unfold recordStep, normalizedEnd, GoTime.Before. cbv zeta.
  rewrite Heq, Z.ltb_irrefl.
  replace (GoTime.Sub (EndTime cd) (StartTime cd)) with 0; [done |].
  unfold GoTime.Sub. rewrite Heq, Z.sub_diag. done.
Qed.

Lemma empty_window_is_skipped_witness :
  recordStep examples.utilization1 (replicate 24 [])
    (mkCallData "Closed" 300 (StartTime examples.noCalls) (StartTime examples.noCalls)
                None 50 1)
  = replicate 24 [].
Proof. by apply empty_window_is_skipped. Defined.

(** X9.  The buckets of two inputs put one after the other are, hour by hour,
    the buckets of the first followed by the buckets of the second: a
    record's entries do not depend on the records before it. *)
Theorem schedule_of_concatenation data1 data2 utilization :
  hourlyRequestsOf (data1 ++ data2) utilization
  = zip_with app (hourlyRequestsOf data1 utilization) (hourlyRequestsOf data2 utilization).
Proof.
  unfold hourlyRequestsOf at 1. rewrite foldl_app.
  change (foldl (recordStep utilization) (replicate 24 []) data1)
    with (hourlyRequestsOf data1 utilization).
  rewrite <- (zip_with_app_nil (hourlyRequestsOf data1 utilization)) at 1.
  rewrite hourlyRequestsOf_length. apply foldl_recordStep_zip_with.
Qed.

End RecordProperties.

(* ===================================================================== *)
(** * Positive durations are positive numbers of hours                    *)
(* ===================================================================== *)

Module PositiveFacts.
Import invariants FloatFacts.

Lemma Zdigits2_ge m k : 0 <= k -> 2 ^ k <= m -> k + 1 <= Zdigits2 m.
Proof.
  intros Hk Hm. assert (0 < 2 ^ k) by (apply Z.pow_pos_nonneg; lia).
  pose proof (Zdigits2_lt_pow m ltac:(lia)) as Hlt.
  pose proof (Zdigits2_nonneg m).
  destruct (Z.le_gt_cases (k + 1) (Zdigits2 m)) as [|Hgt]; [done |].
  assert (2 ^ Zdigits2 m <= 2 ^ k) by (apply Z.pow_le_mono_r; lia). lia.
Qed.

Lemma Zdigits2_pos m : 0 < m -> 1 <= Zdigits2 m.
Proof. intros Hm. apply (Zdigits2_ge m 0); [lia |]. change (2 ^ 0) with 1. lia. Qed.

(** A quotient by a power of two that leaves digits keeps the magnitude. *)
Lemma Zdigits2_div_pow_exact m n :
  0 < m -> 0 <= n < Zdigits2 m ->
  0 < m / 2 ^ n /\ Zdigits2 (m / 2 ^ n) = Zdigits2 m - n.
Proof.
  intros Hm Hn.
  pose proof (Zdigits2_bounds m Hm) as [Hlo Hhi].
  assert (0 < 2 ^ n) by (apply Z.pow_pos_nonneg; lia).
  assert (2 ^ (Zdigits2 m - 1 - n) <= m / 2 ^ n) as Hq.
  { apply Z.div_le_lower_bound; [done |]. rewrite <- Z.pow_add_r by lia.
    by replace (n + (Zdigits2 m - 1 - n)) with (Zdigits2 m - 1) by lia. }
  assert (0 < 2 ^ (Zdigits2 m - 1 - n)) by (apply Z.pow_pos_nonneg; lia).
  split; [lia |].
  pose proof (Zdigits2_ge (m / 2 ^ n) (Zdigits2 m - 1 - n) ltac:(lia) Hq).
  pose proof (Zdigits2_div_pow m n ltac:(lia) ltac:(lia)). lia.
Qed.

Lemma shr_fexp_normal mx ex lx :
  0 < mx -> -1021 <= Zdigits2 mx + ex ->
  0 < shr_m (shr_fexp 53 1024 mx ex lx).1 /\
  Zdigits2 (shr_m (shr_fexp 53 1024 mx ex lx).1) + (shr_fexp 53 1024 mx ex lx).2
  = Zdigits2 mx + ex.
Proof.
  intros Hm HM. unfold shr_fexp, shr, fexp, emin.
  rewrite Z.max_l by lia.
  destruct (Zdigits2 mx + ex - 53 - ex) as [|n|n] eqn:En; simpl;
    rewrite ?shr_record_of_loc_m; try done.
  destruct (iter_shr_1_spec n (shr_record_of_loc mx lx)) as [_ E];
    [rewrite shr_record_of_loc_m; lia |].
  rewrite shr_record_of_loc_m in E. rewrite E.
  destruct (Zdigits2_div_pow_exact mx (Zpos n) Hm ltac:(lia)) as [Hq Hd].
  split; [done |]. lia.
Qed.

Lemma binary_round_aux_positive mx ex lx L :
  0 < mx -> -1021 <= L -> L <= Zdigits2 mx + ex ->
  positiveAbove L (binary_round_aux 53 1024 false mx ex lx).
Proof.
  intros Hm HL HM. unfold binary_round_aux.
  destruct (shr_fexp_normal mx ex lx Hm ltac:(lia)) as [H1 E1].
  destruct (shr_fexp 53 1024 mx ex lx) as [mrs' e']. simpl in H1, E1.
  set (m1 := round_nearest_even _ _).
  assert (0 < m1 /\ Zdigits2 (shr_m mrs') <= Zdigits2 m1) as [Hm1 Hd1].
  { subst m1. destruct (round_nearest_even_cases (shr_m mrs') (loc_of_shr_record mrs'))
      as [-> | ->]; (split; [lia |]); [lia | apply Zdigits2_mono; lia]. }
  destruct (shr_fexp_normal m1 e' loc_Exact Hm1 ltac:(lia)) as [H2 E2].
  destruct (shr_fexp 53 1024 m1 e' loc_Exact) as [mrs'' e'']. simpl in H2, E2.
  destruct (shr_m mrs'') as [|m|m]; [lia | | lia].
  destruct (e'' <=? 1024 - 53); [| done]. unfold positiveAbove. lia.
Qed.

Lemma binary_round_positive m e L :
  -1021 <= L -> L <= Zdigits2 (Zpos m) + e ->
  positiveAbove L (binary_round 53 1024 false m e).
Proof.
  intros HL HM. unfold binary_round.
  pose proof (shl_align_magnitude m e (fexp 53 1024 (Z.pos (digits2_pos m) + e))) as Hmag.
  destruct (shl_align m e _) as [mz ez]. simpl in Hmag.
  apply binary_round_aux_positive; [lia | done | simpl in HM |- *; lia].
Qed.

Lemma positiveAbove_below L B x :
  positiveAbove L x -> below B x ->
  exists m e, x = S754_finite false m e /\ L <= Zdigits2 (Zpos m) + e.
Proof. destruct x as [| | |[] m e]; try done. intros HL _. by exists m, e. Qed.

Lemma positiveAbove_mono L L' x : L' <= L -> positiveAbove L x -> positiveAbove L' x.
Proof. destruct x as [| [] | | [] m e]; simpl; try done. lia. Qed.

Lemma of_int_positive n :
  0 < n <= Int64.max_int -> positiveAbove 1 (F64.of_int n).
Proof.
  intros Hn. unfold F64.of_int. destruct n as [|p|p]; try lia. simpl.
  apply binary_round_positive; [lia |]. simpl. lia.
Qed.

Lemma div_positive mx ex my ey L :
  -1021 <= L -> L <= Zdigits2 (Zpos mx) + ex - (Zdigits2 (Zpos my) + ey) ->
  positiveAbove L (F64.div (S754_finite false mx ex) (S754_finite false my ey)).
Proof.
  intros HL HD. unfold F64.div, SFdiv, SFdiv_core_binary.
  set (d1 := Zdigits2 (Z.pos mx)) in *. set (d2 := Zdigits2 (Z.pos my)) in *.
  assert (1 <= d1) by (subst d1; simpl; lia).
  assert (1 <= d2) by (subst d2; simpl; lia).
  set (e' := Z.min _ _). set (sh := ex - ey - e').
  assert (e' <= ex - ey /\ e' <= d1 + ex - (d2 + ey) - 53) as [He1 He2].
  { subst e'. unfold fexp, emin. change F64.prec with 53. change F64.emax with 1024. lia. }
  assert (sh = ex - ey - e') as Hsh by done.
  clearbody e' sh.
  set (m' := match sh with 0 => Z.pos mx | Z.pos _ => Z.shiftl (Z.pos mx) sh | Z.neg _ => 0 end).
  assert (m' = Z.pos mx * 2 ^ sh) as Hm'.
  { subst m'. destruct sh as [|p|p] eqn:Es; [simpl; lia | | lia].
    rewrite <- Es. apply Z.shiftl_mul_pow2. lia. }
  clearbody m'.
  assert (0 < 2 ^ sh) by (apply Z.pow_pos_nonneg; lia).
  pose proof (Zdigits2_bounds (Z.pos mx) ltac:(lia)) as [Hxlo _]. fold d1 in Hxlo.
  pose proof (Zdigits2_bounds (Z.pos my) ltac:(lia)) as [_ Hyhi]. fold d2 in Hyhi.
(* the quotient has at least [d1 + sh - d2] digits *)
assert (2 ^ (d1 + sh - 1 - d2) <= m' / Z.pos my) as Hq.
{ apply Z.div_le_lower_bound; [lia |].
  assert (2 ^ (d1 + sh - 1 - d2) * 2 ^ d2 = 2 ^ (d1 - 1) * 2 ^ sh) as Hpow.
  { rewrite <- !Z.pow_add_r by lia. f_equal. lia. }
  assert (0 < 2 ^ (d1 + sh - 1 - d2)) by (apply Z.pow_pos_nonneg; lia).
  nia. }
assert (0 < 2 ^ (d1 + sh - 1 - d2)) by (apply Z.pow_pos_nonneg; lia).
pose proof (Zdigits2_ge (m' / Z.pos my) (d1 + sh - 1 - d2) ltac:(lia) Hq) as Hdq.
pose proof (Z_div_mod m' (Z.pos my) ltac:(lia)) as Hdm.
unfold Z.div in Hq, Hdq.
destruct (Z.div_eucl m' (Z.pos my)) as [q r].
apply binary_round_aux_positive; [lia | done | lia].
Qed.

Lemma add_positive_l x y L B :
  -1021 <= L ->
  positiveAbove L x -> below B x ->
  (y = S754_zero false \/ (positiveAbove L y /\ below B y)) ->
  positiveAbove L (F64.add x y).
Proof.
  intros HL Hx Bx Hy.
  destruct (positiveAbove_below _ _ _ Hx Bx) as (mx & ex & -> & Hmx).
  destruct Hy as [-> | [Hy By]]; [done |].
  destruct (positiveAbove_below _ _ _ Hy By) as (my & ey & -> & Hmy).
  unfold F64.add, SFadd. cbv zeta. simpl cond_Zopp.
  set (ez := Z.min ex ey).
  pose proof (shl_align_magnitude mx ex ez) as Hax.
  rewrite shl_align_snd in Hax by lia.
  set (a := (shl_align mx ex ez).1) in *. set (b := (shl_align my ey ez).1).
  change (Z.pos a + Z.pos b) with (Z.pos (a + b)). simpl binary_normalize.
  apply binary_round_positive; [done |].
  pose proof (Zdigits2_mono (Z.pos a) (Z.pos (a + b)) ltac:(lia)). lia.
Qed.

Lemma add_positive_r x y L B :
  -1021 <= L ->
  x = S754_zero false -> positiveAbove L y -> below B y ->
  positiveAbove L (F64.add x y).
Proof.
  intros HL -> Hy By.
  by destruct (positiveAbove_below _ _ _ Hy By) as (my & ey & -> & Hmy).
Qed.

(** A positive duration is a positive number of hours. *)
Lemma Hours_positive d :
  0 < d <= Int64.max_int -> F64.leb (GoTime.Hours d) (S754_zero false) = false.
Proof.
  intros Hd.
  assert (positiveAbove (-41) (GoTime.Hours d)) as Hpos.
  { unfold GoTime.Hours. cbv zeta.
    assert (0 <= Z.quot d GoTime.Hour <= Int64.max_int /\
            0 <= Z.rem d GoTime.Hour <= Int64.max_int /\
            (0 < Z.quot d GoTime.Hour \/ 0 < Z.rem d GoTime.Hour)) as (Hq & Hr & Hone).
    { unfold Int64.max_int in *. change (2 ^ 63) with 9223372036854775808 in *.
      change GoTime.Hour with 3600000000000. Z.quot_rem_to_equations. lia. }
    assert (Int64.min_int <= 0) as Hmin by (by vm_compute).
    change (F64.of_int (60 * 60 * 1000000000))
      with (S754_finite false 7372800000000000 (-11)).
    set (whole := F64.of_int (Z.quot d GoTime.Hour)).
    set (part := F64.div (F64.of_int (Z.rem d GoTime.Hour)) _).
    assert (below 78 whole) as Bw.
    { eapply bounded_mono; [| apply of_int_bounded; split; lia]. lia. }
    assert (below 78 part) as Bp.
    { subst part. eapply bounded_mono;
        [| apply (div_bounded _ _ _ _ 65); [apply of_int_bounded; split; lia | lia]]. lia. }
    assert (0 < Z.rem d GoTime.Hour -> positiveAbove (-41) part) as Hp.
    { intros Hr0. subst part.
      destruct (positiveAbove_below 1 65 (F64.of_int (Z.rem d GoTime.Hour))
                  (of_int_positive (Z.rem d GoTime.Hour) ltac:(lia))
                  (of_int_bounded (Z.rem d GoTime.Hour) ltac:(split; lia)))
        as (m & e & -> & Hm).
      apply div_positive; [lia |]. simpl in Hm |- *. lia. }
    assert (Z.rem d GoTime.Hour = 0 -> part = S754_zero false) as Hp0.
    { intros Hr0. subst part. by rewrite Hr0. }
    assert (0 < Z.quot d GoTime.Hour -> positiveAbove (-41) whole) as Hw.
    { intros Hq0. subst whole. apply (positiveAbove_mono 1); [lia |].
      apply of_int_positive. lia. }
    assert (Z.quot d GoTime.Hour = 0 -> whole = S754_zero false) as Hw0.
    { intros Hq0. subst whole. by rewrite Hq0. }
    destruct (Z.eq_dec (Z.quot d GoTime.Hour) 0) as [Hq0 | Hq0].
    - apply (add_positive_r _ _ _ 78); [lia | by apply Hw0 | apply Hp; lia | done].
    - apply (add_positive_l _ _ _ 78); [lia | apply Hw; lia | done |].
      destruct (Z.eq_dec (Z.rem d GoTime.Hour) 0) as [Hr0 | Hr0]; [left; by apply Hp0 |].
      right. split; [apply Hp; lia | done]. }
  by destruct (GoTime.Hours d) as [| [] | | [] ? ?].
Qed.

End PositiveFacts.

(* ===================================================================== *)
(** * Hour boundaries in a zone without transitions                       *)
(* ===================================================================== *)

Module BoundaryFacts.
Import models scheduler props GoTime.

(** Day number to date and back. *)
Lemma civil_round_trip z :
  days_from_civil (civil_from_days z).1.1 (civil_from_days z).1.2 (civil_from_days z).2 = z /\
  1 <= (civil_from_days z).1.2 <= 12 /\
  1 <= (civil_from_days z).2 <= 31.
Proof.
  unfold civil_from_days, days_from_civil. cbv zeta. simpl fst. simpl snd.
  set (z' := z + 719468).
  set (era := z' `div` 146097).
  set (doe := z' - era * 146097).
  assert (0 <= doe <= 146096) as Hdoe by (subst doe era; Z.div_mod_to_equations; lia).
  set (yoe := (doe - doe `div` 1460 + doe `div` 36524 - doe `div` 146096) `div` 365).
  assert (0 <= yoe <= 399 /\ 0 <= doe - (365 * yoe + yoe `div` 4 - yoe `div` 100) <= 365)
    as [Hyoe Hdoy] by (subst yoe; clearbody doe; Z.div_mod_to_equations; lia).
  set (doy := doe - (365 * yoe + yoe `div` 4 - yoe `div` 100)) in *.
  set (mp := (5 * doy + 2) `div` 153).
  assert (0 <= mp <= 11) as Hmp by (subst mp; clearbody doy; Z.div_mod_to_equations; lia).
  assert (1 <= doy - (153 * mp + 2) `div` 5 + 1 <= 31) as Hd
    by (subst mp; clearbody doy; Z.div_mod_to_equations; lia).
  set (d := doy - (153 * mp + 2) `div` 5 + 1) in *.
  assert ((yoe + era * 400) `div` 400 = era) as Hera
    by (clearbody yoe era; Z.div_mod_to_equations; lia).
  destruct (Z.ltb_spec mp 10) as [Hlt | Hge].
  - (* March to December *)
    destruct (Z.leb_spec (mp + 3) 2); [lia |].
    destruct (Z.ltb_spec 2 (mp + 3)); [| lia].
    replace (mp + 3 - 3) with mp by lia. rewrite Hera.
    replace (yoe + era * 400 - era * 400) with yoe by lia.
    split; [| lia]. unfold d, doy, doe, z'. clearbody yoe era mp. lia.
  - (* January and February, counted with the year before *)
    destruct (Z.leb_spec (mp - 9) 2); [| lia].
    destruct (Z.ltb_spec 2 (mp - 9)); [lia |].
    replace (yoe + era * 400 + 1 - 1) with (yoe + era * 400) by lia.
    replace (mp - 9 + 9) with mp by lia. rewrite Hera.
    replace (yoe + era * 400 - era * 400) with yoe by lia.
    split; [| lia]. unfold d, doy, doe, z'. clearbody yoe era mp. lia.
Qed.

Lemma days_from_civil_day y m d :
  days_from_civil y m 1 + (d - 1) = days_from_civil y m d.
Proof. unfold days_from_civil. cbv zeta. lia. Qed.

Lemma lookup_fixed l sec :
  transitions l = [] -> lookup l sec = (firstOffset l, alpha, omega).
Proof. intros Hl. unfold lookup. by rewrite Hl. Qed.

Lemma offsetAt_fixed l sec : transitions l = [] -> offsetAt l sec = firstOffset l.
Proof. intros Hl. unfold offsetAt. by rewrite lookup_fixed. Qed.

(** [time.Date] on the hour, in a zone of one offset. *)
Lemma Date_fixed year month day hour l :
  transitions l = [] -> 1 <= month <= 12 ->
  Date year month day hour 0 0 0 l
  = mkTime ((86400 * days_from_civil year month day + 3600 * hour - firstOffset l) * Second) l.
Proof.
  intros Hl Hm. unfold Date. cbv zeta.
  replace ((month - 1) `div` 12) with 0 by (Z.div_mod_to_equations; lia).
  replace ((month - 1) `mod` 12 + 1) with month by (Z.div_mod_to_equations; lia).
  rewrite Z.add_0_r, days_from_civil_day.
  set (days := days_from_civil year month day).
  replace (0 + Second * (0 + 60 * (0 + 60 * (hour + 24 * days))))
    with ((86400 * days + 3600 * hour) * Second) by lia.
  rewrite Z.div_mul, Z.mod_mul by done.
  rewrite lookup_fixed by done.
  destruct (Z.eqb_spec (firstOffset l) 0) as [-> | Hoff]; [f_equal; lia |].
  rewrite offsetAt_fixed by done.
  destruct (_ || _); f_equal; lia.
Qed.

(** The instant [t] taken down to the hour of its wall clock. *)
Lemma hour_floor t :
  transitions (loc t) = [] ->
  Date (Year t) (Month t) (Day t) (Hour_ t) 0 0 0 (Location_ t)
  = mkTime ((unixSec t - wallSec t `mod` 3600) * Second) (loc t).
Proof.
  intros Hl. unfold Year, Month, Day, Location_.
  destruct (civil_round_trip (wallSec t `div` 86400)) as (Hdays & Hm & _).
  rewrite Date_fixed by done. rewrite Hdays. f_equal. f_equal.
  unfold Hour_, wallSec. rewrite offsetAt_fixed by done.
  Z.div_mod_to_equations. lia.
Qed.

Lemma wallSec_fixed t :
  transitions (loc t) = [] -> wallSec t = unixSec t + firstOffset (loc t).
Proof. intros Hl. unfold wallSec. by rewrite offsetAt_fixed. Qed.

Lemma hour_floor_bounds t :
  transitions (loc t) = [] ->
  let b := Date (Year t) (Month t) (Day t) (Hour_ t) 0 0 0 (Location_ t) in
  loc b = loc t /\ onTheHour b /\
  unixNano b <= unixNano t < unixNano b + Hour /\
  (unixNano t = unixNano b \/ unixNano b < unixNano t).
Proof.
  intros Hl b. subst b. rewrite hour_floor by done.
  unfold onTheHour. rewrite !wallSec_fixed by done. unfold unixSec. simpl.
  change Hour with (3600 * Second). change Second with 1000000000.
  repeat split; try done; try (Z.div_mod_to_equations; lia).
Qed.

Lemma normalizedEnd_loc cd : loc (normalizedEnd cd) = loc (EndTime cd).
Proof. unfold normalizedEnd. by destruct (Before _ _). Qed.

Lemma endHourBoundary_bounds cd :
  transitions (loc (EndTime cd)) = [] ->
  loc (endHourBoundary cd) = loc (EndTime cd) /\ onTheHour (endHourBoundary cd) /\
  unixNano (normalizedEnd cd) <= unixNano (endHourBoundary cd)
    < unixNano (normalizedEnd cd) + Hour.
Proof.
  intros Hl. unfold endHourBoundary. cbv zeta.
  pose proof (hour_floor_bounds (normalizedEnd cd)) as Hb.
  rewrite normalizedEnd_loc in Hb. specialize (Hb Hl). cbv zeta in Hb.
  set (b := Date _ _ _ _ 0 0 0 _) in *. destruct Hb as (Hloc & [Hs Hw] & Hin & Hcase).
  unfold After. destruct (Z.ltb_spec (unixNano b) (unixNano (normalizedEnd cd))).
  - split; [done |]. split; [| simpl; lia].
    unfold onTheHour, wallSec, unixSec in *. simpl.
    rewrite Hloc in *. rewrite !offsetAt_fixed in * by done.
    change Hour with (3600 * Second). change Second with 1000000000 in *.
    split; Z.div_mod_to_equations; lia.
  - split; [done |]. split; [done | lia].
Qed.

End BoundaryFacts.

Module BoundaryTheorems.
Import models scheduler props GoTime BoundaryFacts.

(** X10.  In a zone whose offset never changes the walk starts on the hour
    mark at or before the start of the record and ends on the first hour
    mark at or after its end. *)
Theorem hour_boundaries_fixed_zone cd :
  fixedZone (loc (StartTime cd)) -> fixedZone (loc (EndTime cd)) ->
  onTheHour (startHourBoundary cd) /\
  unixNano (startHourBoundary cd) <= unixNano (StartTime cd)
    < unixNano (startHourBoundary cd) + Hour /\
  onTheHour (endHourBoundary cd) /\
  unixNano (normalizedEnd cd) <= unixNano (endHourBoundary cd)
    < unixNano (normalizedEnd cd) + Hour.
Proof.
  intros Hs He.
  destruct (hour_floor_bounds (StartTime cd) Hs) as (_ & Hon & Hin & _).
  destruct (endHourBoundary_bounds cd He) as (_ & Hon' & Hin').
  split; [exact Hon |]. split; [exact Hin |]. split; [exact Hon' | exact Hin'].
Qed.

Lemma hour_boundaries_fixed_zone_witness :
  onTheHour (startHourBoundary examples.noCalls) /\
  unixNano (startHourBoundary examples.noCalls) <= unixNano (StartTime examples.noCalls)
    < unixNano (startHourBoundary examples.noCalls) + Hour /\
  onTheHour (endHourBoundary examples.noCalls) /\
  unixNano (normalizedEnd examples.noCalls) <= unixNano (endHourBoundary examples.noCalls)
    < unixNano (normalizedEnd examples.noCalls) + Hour.
Proof. apply (hour_boundaries_fixed_zone examples.noCalls); reflexivity. Defined.

End BoundaryTheorems.

(* ===================================================================== *)
(** * Every hour of a window gets its entry                               *)
(* ===================================================================== *)

Module CoverageFacts.
Import models scheduler props GoTime AssembleFacts WalkFacts FloatFacts PositiveFacts
       BoundaryFacts.

Lemma Sub_positive t u :
  unixNano u < unixNano t -> 0 < Sub t u <= Int64.max_int.
Proof.
  intros Hlt. unfold Sub, minDuration, maxDuration.
  assert (Int64.min_int < 0 < Int64.max_int) by (split; by vm_compute).
  repeat case_match; lia.
Qed.

Lemma bucket_alter (hourly : list (list CustomerRequirement)) i r h :
  (i < length hourly)%nat ->
  length (bucket (alter (fun reqs => reqs ++ [r]) i hourly) h)
  = (length (bucket hourly h) + length (filter (fun x => x = h) [i]))%nat.
Proof.
  intros Hi. unfold bucket.
  destruct (decide (i = h)) as [-> | Hne].
  - destruct (lookup_lt_is_Some_2 hourly h Hi) as [b Hb].
    rewrite (list_lookup_alter_eq _ _ _ _ Hb) || rewrite list_lookup_alter.
    rewrite ?Hb. simpl. rewrite ?decide_True by done. simpl.
    rewrite length_app. simpl. rewrite filter_cons_True by done. simpl. lia.
  - rewrite list_lookup_alter_ne by done.
    rewrite filter_cons_False by done. simpl. lia.
Qed.

Lemma Hour_next (t : Time) zone :
  transitions zone = [] ->
  Hour_ (In (Add t Hour) zone) = (Hour_ (In t zone) + 1) `mod` 24.
Proof.
  intros Hz. unfold Hour_. rewrite !wallSec_fixed by done.
  unfold unixSec. simpl. change Hour with (3600 * Second).
  change Second with 1000000000.
  generalize (unixNano t), (firstOffset zone). intros n off.
  Z.div_mod_to_equations. lia.
Qed.

(** One hour of the walk that overlaps the window adds one entry, in the
    bucket of its clock hour. *)
Lemma hourStep_adds cd utilization start end_ cph hourly t h :
  length hourly = 24%nat ->
  unixNano start < unixNano end_ ->
  unixNano start < unixNano t + Hour ->
  unixNano t < unixNano end_ ->
  loc t = loc (StartTime cd) ->
  length (bucket (hourStep cd utilization start end_ cph hourly t) h)
  = (length (bucket hourly h)
     + length (filter (fun x => x = h) [Z.to_nat (Hour_ (In t (homeZone cd)))]))%nat.
Proof.
  intros Hlen Hse Hs He Hloc. unfold hourStep. cbv zeta.
  rewrite Hours_positive.
  - assert ((match cdLocation cd with Some l => In t l | None => t end)
            = In t (homeZone cd)) as ->.
    { unfold homeZone. destruct (cdLocation cd); simpl; [done |].
      rewrite <- Hloc. by destruct t. }
    apply bucket_alter. rewrite Hlen.
    pose proof (Hour_range (In t (homeZone cd))). lia.
  - apply Sub_positive. unfold After, Before, Add. simpl.
    assert (0 < Hour) by done.
    repeat case_match; simpl; lia.
Qed.

Lemma walk_adds cd utilization start end_ cph eb fuel : forall hourly t h,
  length hourly = 24%nat ->
  transitions (homeZone cd) = [] ->
  unixNano start < unixNano end_ ->
  unixNano eb < unixNano end_ + Hour ->
  unixNano start < unixNano t + Hour ->
  (unixNano eb - unixNano t) `mod` Hour = 0 ->
  loc t = loc (StartTime cd) ->
  fuel = hourCount t eb ->
  length (bucket (hourLoop fuel (hourStep cd utilization start end_ cph) eb hourly t) h)
  = (length (bucket hourly h)
     + length (filter (fun x => x = h)
                 ((fun k => Z.to_nat ((Hour_ (In t (homeZone cd)) + Z.of_nat k) `mod` 24))
                    <$> seq 0 fuel)))%nat.
Proof.
  induction fuel as [|fuel IH]; intros hourly t h Hlen Hz Hse Heb Hs Hgrid Hloc Hfuel.
  - simpl. lia.
  - assert (Before t eb = true) as Hbefore.
    { destruct (Before t eb) eqn:Hb; [done |]. by rewrite hourCount_done in Hfuel. }
    simpl hourLoop. rewrite Hbefore.
    unfold Before in Hbefore. apply Z.ltb_lt in Hbefore.
    assert (0 < Hour) as HH by done.
    assert (unixNano t + Hour <= unixNano eb) as Hfull.
    { revert Hgrid Hbefore. change Hour with 3600000000000.
      generalize (unixNano eb) (unixNano t). intros. Z.div_mod_to_equations. lia. }
    rewrite IH; try done.
    + rewrite hourStep_adds by (try done; lia).
      rewrite <- Nat.add_assoc. f_equal.
      rewrite <- length_app, <- filter_app. f_equal. f_equal.
      simpl. f_equal.
      * rewrite Z.add_0_r. pose proof (Hour_range (In t (homeZone cd))) as Hr.
        by rewrite Z.mod_small.
      * rewrite <- fmap_S_seq, <- list_fmap_compose. apply list_fmap_ext.
        intros _ k _. simpl. f_equal.
        rewrite (Hour_next t (homeZone cd) Hz).
        replace (Z.of_nat (S k)) with (Z.of_nat k + 1) by lia.
        generalize (Hour_ (In t (homeZone cd))), (Z.of_nat k). intros a j.
        Z.div_mod_to_equations. lia.
    + by rewrite hourStep_length.
    + simpl. lia.
    + simpl. replace (unixNano eb - (unixNano t + Hour))
        with (unixNano eb - unixNano t - 1 * Hour) by lia.
      revert Hgrid. change Hour with 3600000000000.
      generalize (unixNano eb - unixNano t). intros. Z.div_mod_to_equations. lia.
    + by rewrite (hourCount_step t eb) in Hfuel by (by apply Z.ltb_lt); injection Hfuel.
Qed.

(** A property kept by every hour that lies between two instants is kept
    by the walk from the first to the second, when they are a whole
    number of hours apart. *)
Lemma hourLoop_within (P : list (list CustomerRequirement) -> Prop) body eb lo fuel :
  (forall hourly t, lo <= unixNano t -> unixNano t + Hour <= unixNano eb ->
                    P hourly -> P (body hourly t)) ->
  forall hourly t,
    lo <= unixNano t -> (unixNano eb - unixNano t) `mod` Hour = 0 ->
    P hourly -> P (hourLoop fuel body eb hourly t).
Proof.
  intros Hbody. induction fuel as [|fuel IH]; intros hourly t Hlo Hgrid HP; simpl; [done |].
  destruct (Before t eb) eqn:Hb; [| done].
  unfold Before in Hb. apply Z.ltb_lt in Hb.
  assert (unixNano t + Hour <= unixNano eb) as Hfull.
  { revert Hgrid Hb. change Hour with 3600000000000.
    generalize (unixNano eb) (unixNano t). intros. Z.div_mod_to_equations. lia. }
  apply IH.
  - simpl. assert (0 < Hour) by done. lia.
  - simpl. revert Hgrid. change Hour with 3600000000000.
    generalize (unixNano eb) (unixNano t). intros. Z.div_mod_to_equations. lia.
  - by apply Hbody.
Qed.

(** An hour that lies within the window asks for what a full hour asks
    for. *)
Lemma hourStep_full cd utilization start end_ cph before hourly t :
  unixNano start <= unixNano t -> unixNano t + Hour <= unixNano end_ ->
  addsOnly (fun r => AgentsNeeded r = agentsFor cd utilization cph Hour) before hourly ->
  addsOnly (fun r => AgentsNeeded r = agentsFor cd utilization cph Hour) before
           (hourStep cd utilization start end_ cph hourly t).
Proof.
  intros Hs He Hgrow. unfold hourStep. cbv zeta.
  unfold After, Before. simpl.
  destruct (Z.ltb_spec (unixNano t) (unixNano start)); [lia |].
  destruct (Z.ltb_spec (unixNano end_) (unixNano t + Hour)); [lia |].
  replace (Sub (Add t Hour) t) with Hour.
  - change (F64.leb (Hours Hour) (S754_zero false)) with false. cbv iota.
    by apply ZeroCallFacts.addsOnly_alter.
  - unfold Sub. simpl. replace (unixNano t + Hour - unixNano t) with Hour by lia. done.
Qed.

Lemma onTheHour_floor t :
  transitions (loc t) = [] -> onTheHour t ->
  unixNano (Date (Year t) (Month t) (Day t) (Hour_ t) 0 0 0 (Location_ t)) = unixNano t.
Proof.
  intros Hl [Hs Hw]. rewrite hour_floor by done. simpl. rewrite Hw.
  unfold unixSec. revert Hs. change Second with 1000000000.
  generalize (unixNano t). intros. Z.div_mod_to_equations. lia.
Qed.

End CoverageFacts.

Module CoverageTheorems.
Import models scheduler props GoTime AssembleFacts WalkFacts FloatFacts PositiveFacts
       BoundaryFacts CoverageFacts.

(** X11.  A record whose times are in a zone of one offset, and which ends
    after it starts, puts one entry in the bucket of each clock hour its
    window touches, from the hour of its start to the hour its end falls
    in: bucket [h] grows by as many entries as [h] occurs among those
    hours (once, for a window within a day). *)
Theorem every_hour_gets_an_entry utilization hourly cd h :
  length hourly = 24%nat ->
  fixedZone (loc (StartTime cd)) -> loc (EndTime cd) = loc (StartTime cd) ->
  fixedZone (homeZone cd) ->
  unixNano (StartTime cd) < unixNano (normalizedEnd cd) ->
  length (bucket (recordStep utilization hourly cd) h)
  = (length (bucket hourly h) + length (filter (fun x => x = h) (hoursTouched cd)))%nat.
Proof.
  intros Hlen Hs He Hz Hlt. unfold recordStep. cbv zeta.
  rewrite Hours_positive by (by apply Sub_positive).
  destruct (hour_floor_bounds (StartTime cd) Hs) as (Hloc & [Hs1 Hs2] & Hin & _).
  cbv zeta in Hloc, Hs1, Hs2, Hin.
  change (Date _ _ _ _ 0 0 0 _) with (startHourBoundary cd) in Hloc, Hs1, Hs2, Hin.
  assert (transitions (loc (EndTime cd)) = []) as He' by (by rewrite He).
  destruct (endHourBoundary_bounds cd He') as (Hloc' & [He1 He2] & Hin').
  unfold hoursTouched.
  apply walk_adds; try done; try lia.
  rewrite !wallSec_fixed in Hs2, He2 by (by rewrite ?Hloc, ?Hloc', ?He).
  rewrite Hloc in Hs2. rewrite Hloc', He in He2.
  unfold unixSec in Hs2, He2. revert Hs1 Hs2 He1 He2.
  change Hour with (3600 * Second). change Second with 1000000000.
  generalize (unixNano (startHourBoundary cd)) (unixNano (endHourBoundary cd))
             (firstOffset (loc (StartTime cd))).
  intros a b off. Z.div_mod_to_equations. lia.
Qed.

Lemma every_hour_gets_an_entry_witness :
  length (bucket (recordStep examples.utilization1 (replicate 24 []) examples.noCalls) 9)
  = (length (bucket (replicate 24 []) 9)
     + length (filter (fun x => x = 9%nat) (hoursTouched examples.noCalls)))%nat.
Proof.
  apply (every_hour_gets_an_entry examples.utilization1 (replicate 24 []) examples.noCalls 9);
    try reflexivity.
Defined.

(** X20.  A record whose window starts and ends on the hour, in a zone of one
    offset, asks for the same number of agents in every hour of its
    window: each entry it adds carries what a full hour at its rate of
    calls needs. *)
Theorem same_agents_every_hour utilization hourly cd :
  fixedZone (loc (StartTime cd)) -> loc (EndTime cd) = loc (StartTime cd) ->
  onTheHour (StartTime cd) -> onTheHour (normalizedEnd cd) ->
  addsOnly (fun r => AgentsNeeded r = fullHourAgents cd utilization)
           hourly (recordStep utilization hourly cd).
Proof.
  intros Hs He Hstart Hend. unfold recordStep. cbv zeta.
  destruct (F64.leb _ _); [apply ZeroCallFacts.addsOnly_refl |].
  assert (unixNano (startHourBoundary cd) = unixNano (StartTime cd)) as Hsb
    by (by apply onTheHour_floor).
  assert (unixNano (endHourBoundary cd) = unixNano (normalizedEnd cd)) as Heb.
  { unfold endHourBoundary. cbv zeta.
    assert (transitions (loc (normalizedEnd cd)) = []) as Hl
      by (rewrite normalizedEnd_loc, He; exact Hs).
    pose proof (onTheHour_floor (normalizedEnd cd) Hl Hend) as Hfloor.
    unfold After. rewrite Hfloor, Z.ltb_irrefl. exact Hfloor. }
  apply (hourLoop_within _ _ _ (unixNano (StartTime cd))); [| lia | |].
  - intros acc t Hlo Hhi. rewrite Heb in Hhi. by apply hourStep_full.
  - rewrite Heb, Hsb. destruct Hstart as [Hs1 Hs2], Hend as [He1 He2].
    rewrite !wallSec_fixed in Hs2, He2 by (by rewrite ?normalizedEnd_loc, ?He).
    rewrite normalizedEnd_loc, He in He2.
    unfold unixSec in Hs2, He2. revert Hs1 Hs2 He1 He2.
    change Hour with (3600 * Second). change Second with 1000000000.
    generalize (unixNano (StartTime cd)) (unixNano (normalizedEnd cd))
               (firstOffset (loc (StartTime cd))).
    intros a b off. Z.div_mod_to_equations. lia.
  - apply ZeroCallFacts.addsOnly_refl.
Qed.

Lemma same_agents_every_hour_witness :
  addsOnly (fun r => AgentsNeeded r = fullHourAgents examples.highPriority examples.utilization1)
           (replicate 24 [])
           (recordStep examples.utilization1 (replicate 24 []) examples.highPriority).
Proof.
  apply (same_agents_every_hour examples.utilization1 (replicate 24 [])
                                examples.highPriority);
    try reflexivity; split; reflexivity.
Defined.

End CoverageTheorems.

(* ===================================================================== *)
(** * The data prepared for the output                                    *)
(* ===================================================================== *)

Module FormatFacts.
Import models scheduler props invariants formatter Int64Facts AllocFacts AssembleFacts.

Lemma totalDemandOf_snoc b r :
  totalDemandOf (b ++ [r]) = Int64.add (totalDemandOf b) (AgentsNeeded r).
Proof. unfold totalDemandOf. by rewrite foldl_app. Qed.

(** The group of a zone after one more entry. *)
Lemma lookup_processStep data r n :
  LocationData (processStep data r) !! n
  = if decide (n = locationString (Location r))
    then Some (mkLocationGroup
                 (Int64.add (from_option lgTotal 0 (LocationData data !! n)) (AgentsNeeded r))
                 (<[Name r := AgentsNeeded r]>
                    (from_option Customers ∅ (LocationData data !! n))))
    else LocationData data !! n.
Proof.
  unfold processStep. cbv zeta. simpl.
  set (l := locationString (Location r)).
  destruct (decide (n = l)) as [-> | Hne].
  - rewrite !lookup_alter_eq. destruct (LocationData data !! l) as [g|] eqn:Eg.
    + by rewrite Eg.
    + by rewrite lookup_insert_eq.
  - rewrite !lookup_alter_ne by done.
    destruct (LocationData data !! l); [done |]. by rewrite lookup_insert_ne.
Qed.

Lemma processStep_fields data r :
  hdHour (processStep data r) = hdHour data /\
  hdTotal (processStep data r) = Int64.add (hdTotal data) (AgentsNeeded r) /\
  hdUnmetDemand (processStep data r) = hdUnmetDemand data.
Proof. done. Qed.

Lemma processLoop_fields hour b :
  let data := foldl processStep (mkHourlyData hour 0 ∅ None) b in
  hdHour data = hour /\ hdTotal data = totalDemandOf b /\ hdUnmetDemand data = None.
Proof.
  induction b as [|r b IH] using rev_ind; [done |].
  cbv zeta in *. rewrite foldl_app. simpl foldl.
  destruct IH as (Hh & Ht & Hu).
  destruct (processStep_fields (foldl processStep (mkHourlyData hour 0 ∅ None) b) r)
    as (-> & -> & ->).
  by rewrite Hh, Ht, Hu, totalDemandOf_snoc.
Qed.

Lemma processLoop_totals hour b n :
  lgTotal <$> LocationData (foldl processStep (mkHourlyData hour 0 ∅ None) b) !! n
  = if decide (atLocation n b = []) then None else Some (totalDemandOf (atLocation n b)).
Proof.
  induction b as [|r b IH] using rev_ind; [done |].
  rewrite foldl_app. simpl foldl. rewrite lookup_processStep.
  unfold atLocation in *. rewrite filter_app.
  destruct (decide (n = locationString (Location r))) as [-> | Hne].
  - rewrite filter_cons_True by done. rewrite filter_nil.
    rewrite decide_False by (by destruct (filter _ b)).
    simpl. f_equal. rewrite totalDemandOf_snoc. f_equal.
    destruct (LocationData _ !! _) as [g|]; simpl in IH |- *.
    + destruct (decide _); [done |]. by injection IH.
    + destruct (decide _) as [-> |]; done.
  - rewrite filter_cons_False by done. rewrite filter_nil, app_nil_r. apply IH.
Qed.

Lemma last_snoc_filter {A} (P : A -> Prop) `{forall x, Decision (P x)} (l : list A) x :
  last (filter P (l ++ [x])) = if decide (P x) then Some x else last (filter P l).
Proof.
  rewrite filter_app. destruct (decide (P x)).
  - rewrite filter_cons_True by done. rewrite filter_nil. apply last_snoc.
  - rewrite filter_cons_False by done. by rewrite filter_nil, app_nil_r.
Qed.

Lemma processLoop_customers hour b n c :
  LocationData (foldl processStep (mkHourlyData hour 0 ∅ None) b) !! n
    ≫= (fun g => Customers g !! c)
  = AgentsNeeded <$> last (ofCustomer c (atLocation n b)).
Proof.
  induction b as [|r b IH] using rev_ind; [done |].
  rewrite foldl_app. simpl foldl. rewrite lookup_processStep.
  unfold ofCustomer, atLocation in *. rewrite filter_app.
  destruct (decide (n = locationString (Location r))) as [-> | Hne].
  - rewrite filter_cons_True by done. rewrite filter_nil. simpl.
    rewrite last_snoc_filter.
    destruct (decide (Name r = c)) as [-> | Hc].
    + by rewrite lookup_insert_eq.
    + rewrite lookup_insert_ne by done. rewrite <- IH.
      by destruct (LocationData _ !! _).
  - rewrite filter_cons_False by done. rewrite filter_nil, app_nil_r. apply IH.
Qed.

Lemma processHour_Some schedule hour :
  0 <= hour ->
  processHour schedule hour
  = Some (foldl processStep (mkHourlyData hour 0 ∅ None)
                (bucket (HourlyRequirements schedule) (Z.to_nat hour))).
Proof.
  intros Hh. unfold processHour, bucket. cbv zeta.
  destruct (Z.geb_spec hour (Z.of_nat (length (HourlyRequirements schedule)))) as [Hge | Hlt].
  - rewrite lookup_ge_None_2 by lia. done.
  - destruct (Z.ltb_spec hour 0); [lia |].
    destruct (lookup_lt_is_Some_2 (HourlyRequirements schedule) (Z.to_nat hour)
                ltac:(lia)) as [b ->]. done.
Qed.

Lemma unmetByHourOf_lookup schedule h :
  unmetByHourOf schedule !! h = last (unmetOfHour schedule h).
Proof.
  unfold unmetByHourOf, unmetOfHour.
  induction (UnmetDemands schedule) as [|ud l IH] using rev_ind; [done |].
  rewrite foldl_app. simpl foldl. rewrite last_snoc_filter.
  destruct (decide (Hour ud = h)) as [-> | Hne].
  - by rewrite lookup_insert_eq.
  - by rewrite lookup_insert_ne.
Qed.

Lemma hourData_Some schedule h :
  hourData schedule (unmetByHourOf schedule) h = Some (preparedHour schedule h).
Proof.
  unfold hourData, preparedHour. rewrite processHour_Some by lia. rewrite Nat2Z.id.
  rewrite unmetByHourOf_lookup.
  destruct (processLoop_fields (Z.of_nat h) (bucket (HourlyRequirements schedule) h))
    as (Hh & Ht & Hu). cbv zeta in Hh, Ht, Hu.
  destruct (last _); simpl; rewrite ?Hh, ?Ht; [done |].
  destruct (foldl processStep _ _); simpl in *. by subst.
Qed.

Lemma mapM_total {A B} (f : A -> option B) (g : A -> B) (l : list A) :
  (forall x, f x = Some (g x)) -> mapM f l = Some (g <$> l).
Proof.
  intros Hf. apply mapM_Some. induction l; constructor; auto.
Qed.

Lemma prepareScheduleData_Some schedule :
  prepareScheduleData schedule
  = Some (mkScheduleData (preparedHour schedule <$> seq 0 24) (unmetByHourOf schedule)).
Proof.
  unfold prepareScheduleData. cbv zeta.
  by rewrite (mapM_total _ _ _ (hourData_Some schedule)).
Qed.

Lemma preparedHour_lookup schedule h :
  (h < 24)%nat -> (preparedHour schedule <$> seq 0 24) !! h = Some (preparedHour schedule h).
Proof. intros Hh. by rewrite list_lookup_fmap, lookup_seq_lt. Qed.

(** Among records in increasing order of hour the last one of an hour is
    the first one. *)
Lemma last_filter_find (l : list UnmetDemand) h :
  StronglySorted (fun u1 u2 => Hour u1 < Hour u2) l ->
  last (filter (fun ud => Hour ud = h) l) = List.find (fun ud => Hour ud =? h) l.
Proof.
  induction 1 as [|ud l Hs IH Hall]; [done |]. simpl.
  destruct (Z.eqb_spec (Hour ud) h) as [Heq | Hne].
  - rewrite filter_cons_True by done.
    rewrite (filter_none (fun ud => Hour ud = h) l); [done |].
    eapply Forall_impl; [exact Hall |]. simpl. lia.
  - by rewrite filter_cons_False.
Qed.

End FormatFacts.

Module FormatterProperties.
Import models scheduler props invariants formatter Int64Facts AllocFacts AssembleFacts FormatFacts.

(** X12.  [processHour] never fails for an hour that is not negative, even one
    the schedule has no list for.  The total it reports is the sum of the
    agents of the hour, as [int] additions give it, and the total of a zone
    is the sum over the entries of that zone; a zone without entries has no
    group. *)
Theorem processHour_totals schedule hour n :
  0 <= hour ->
  exists data,
    processHour schedule hour = Some data /\
    hdHour data = hour /\
    hdTotal data = totalDemandOf (bucket (HourlyRequirements schedule) (Z.to_nat hour)) /\
    lgTotal <$> LocationData data !! n
    = let here := atLocation n (bucket (HourlyRequirements schedule) (Z.to_nat hour)) in
      if decide (here = []) then None else Some (totalDemandOf here).
Proof.
  intros Hh. eexists. split; [by apply processHour_Some |].
  destruct (processLoop_fields hour (bucket (HourlyRequirements schedule) (Z.to_nat hour)))
    as (H1 & H2 & _).
  split; [exact H1 |]. split; [exact H2 |]. apply processLoop_totals.
Qed.

Lemma processHour_totals_witness :
  exists data,
    processHour (mkSchedule [examples.threeRequests] []) 0 = Some data /\
    hdHour data = 0 /\
    hdTotal data
    = totalDemandOf (bucket (HourlyRequirements (mkSchedule [examples.threeRequests] []))
                            (Z.to_nat 0)) /\
    lgTotal <$> LocationData data !! "UTC"
    = let here := atLocation "UTC"
                    (bucket (HourlyRequirements (mkSchedule [examples.threeRequests] []))
                            (Z.to_nat 0)) in
      if decide (here = []) then None else Some (totalDemandOf here).
Proof. apply (processHour_totals (mkSchedule [examples.threeRequests] []) 0 "UTC"). lia. Defined.

(** X13.  The figure kept for a customer in a zone is that of the last entry
    of the hour with that customer name in that zone: when a customer has
    several entries in one hour, the earlier ones are overwritten, although
    the totals count them all. *)
Theorem customers_keep_last schedule hour n c :
  0 <= hour ->
  exists data,
    processHour schedule hour = Some data /\
    LocationData data !! n ≫= (fun g => Customers g !! c)
    = AgentsNeeded
        <$> last (ofCustomer c
                    (atLocation n (bucket (HourlyRequirements schedule) (Z.to_nat hour)))).
Proof.
  intros Hh. eexists. split; [by apply processHour_Some |]. apply processLoop_customers.
Qed.

Lemma customers_keep_last_witness :
  exists data,
    processHour (mkSchedule [examples.threeRequests ++ examples.threeRequests] []) 0
    = Some data /\
    LocationData data !! "UTC" ≫= (fun g => Customers g !! "B")
    = AgentsNeeded
        <$> last (ofCustomer "B"
                    (atLocation "UTC"
                       (bucket (HourlyRequirements
                                  (mkSchedule [examples.threeRequests
                                                 ++ examples.threeRequests] []))
                               (Z.to_nat 0)))).
Proof.
  apply (customers_keep_last
           (mkSchedule [examples.threeRequests ++ examples.threeRequests] []) 0 "UTC" "B").
  lia.
Defined.

(** X14.  [prepareScheduleData] never fails and always yields 24 hours, also
    for a schedule with fewer hourly lists; hour [h] carries its number, the
    total of its entries and, when the schedule has unmet-demand records
    for that hour, the figures of the last of them. *)
Theorem prepared_hours schedule :
  exists sd,
    prepareScheduleData schedule = Some sd /\
    length (Hours sd) = 24%nat /\
    forall h, (h < 24)%nat ->
      exists hd,
        Hours sd !! h = Some hd /\
        hdHour hd = Z.of_nat h /\
        hdTotal hd = totalDemandOf (bucket (HourlyRequirements schedule) h) /\
        hdUnmetDemand hd = infoOf <$> last (unmetOfHour schedule (Z.of_nat h)).
Proof.
  exists (mkScheduleData (preparedHour schedule <$> seq 0 24) (unmetByHourOf schedule)).
  split; [apply prepareScheduleData_Some |].
  split; [apply length_fmap |].
  intros h Hh. exists (preparedHour schedule h).
  split; [by apply preparedHour_lookup | done].
Qed.

(** X15.  What is prepared for the output of a generated schedule is, hour by
    hour, the total of the agents scheduled in that hour and the unmet
    agents of the record of that hour (none when there is no record). *)
Theorem output_matches_schedule data utilization capacityPerHour h :
  (h < 24)%nat ->
  let s := GenerateSchedule data utilization capacityPerHour in
  exists sd hd,
    prepareScheduleData s = Some sd /\
    Hours sd !! h = Some hd /\
    hdTotal hd = totalDemandOf (bucket (HourlyRequirements s) h) /\
    from_option udiUnmetAgents 0 (hdUnmetDemand hd) = unmetAgentsAt s h.
Proof.
  intros Hh s.
  exists (mkScheduleData (preparedHour s <$> seq 0 24) (unmetByHourOf s)),
         (preparedHour s h).
  split; [apply prepareScheduleData_Some |].
  split; [by apply preparedHour_lookup |]. split; [done |].
  unfold preparedHour, unmetOfHour, unmetAgentsAt. simpl.
  rewrite last_filter_find by apply AllocationShape.UnmetDemands_sorted.
  by destruct (List.find _ _).
Qed.

Lemma output_matches_schedule_witness :
  let s := GenerateSchedule [examples.highPriority; examples.lowPriority]
                            examples.utilization1 15 in
  exists sd hd,
    prepareScheduleData s = Some sd /\
    Hours sd !! 10%nat = Some hd /\
    hdTotal hd = totalDemandOf (bucket (HourlyRequirements s) 10) /\
    from_option udiUnmetAgents 0 (hdUnmetDemand hd) = unmetAgentsAt s 10.
Proof.
  apply (output_matches_schedule [examples.highPriority; examples.lowPriority]
                                 examples.utilization1 15 10).
  lia.
Defined.

End FormatterProperties.

(* ===================================================================== *)
(** * The parser                                                          *)
(* ===================================================================== *)

Module ParserFacts.
Import models errors parser props GoTime BoundaryFacts.

Lemma Date_loc year month day hour min sec nsec l :
  loc (Date year month day hour min sec nsec l) = l.
Proof. unfold Date. cbv zeta. by destruct (lookup l _) as [[? ?] ?]. Qed.

Lemma substring_all s : String.substring 0 (String.length s) s = s.
Proof. induction s as [|c s IH]; simpl; [done |]. by rewrite IH. Qed.

Lemma prefix_app p s : String.prefix p (p +:+ s) = true.
Proof.
  induction p as [|c p IH]; simpl; [by destruct s |].
  destruct (Ascii.ascii_dec c c); [apply IH | done].
Qed.

Lemma substring_app p s :
  String.substring (String.length p) (String.length (p +:+ s) - String.length p) (p +:+ s)
  = s.
Proof. induction p as [|c p IH]; simpl; [rewrite Nat.sub_0_r; apply substring_all | apply IH]. Qed.

Lemma TrimPrefix_app p s : TrimPrefix (p +:+ s) p = s.
Proof. unfold TrimPrefix, HasPrefix. rewrite prefix_app. apply substring_app. Qed.

(** [time.Date] in a zone of one offset, for a time of day. *)
Lemma Date_fixed_clock year month day hour min sec nsec l :
  transitions l = [] -> 1 <= month <= 12 ->
  0 <= nsec < Second ->
  Date year month day hour min sec nsec l
  = mkTime ((86400 * days_from_civil year month day + (3600 * hour + 60 * min + sec)
             - firstOffset l) * Second + nsec) l.
Proof.
  intros Hl Hm Hns. unfold Date. cbv zeta.
  replace ((month - 1) `div` 12) with 0 by (Z.div_mod_to_equations; lia).
  replace ((month - 1) `mod` 12 + 1) with month by (Z.div_mod_to_equations; lia).
  rewrite Z.add_0_r, days_from_civil_day.
  set (days := days_from_civil year month day).
  replace (nsec + Second * (sec + 60 * (min + 60 * (hour + 24 * days))))
    with ((86400 * days + (3600 * hour + 60 * min + sec)) * Second + nsec) by lia.
  set (W := 86400 * days + (3600 * hour + 60 * min + sec)).
  assert ((W * Second + nsec) `div` Second = W /\ (W * Second + nsec) `mod` Second = nsec)
    as [-> ->].
  { revert Hns. change Second with 1000000000. clearbody W. intros.
    split; Z.div_mod_to_equations; lia. }
  rewrite lookup_fixed by done.
  destruct (Z.eqb_spec (firstOffset l) 0) as [-> | Hoff]; [f_equal; lia |].
  rewrite offsetAt_fixed by done.
  destruct (_ || _); f_equal; lia.
Qed.

(** The date and the time of day such an instant shows. *)
Lemma Date_fixed_reads z hour min sec nsec l :
  transitions l = [] ->
  0 <= hour < 24 -> 0 <= min < 60 -> 0 <= sec < 60 -> 0 <= nsec < Second ->
  let t := Date (civil_from_days z).1.1 (civil_from_days z).1.2 (civil_from_days z).2
                hour min sec nsec l in
  dateOf t = ((civil_from_days z).1.1, (civil_from_days z).1.2, (civil_from_days z).2) /\
  clockOf t = (hour, min, sec, nsec).
Proof.
  intros Hl Hh Hm Hs Hns t. subst t.
  destruct (civil_round_trip z) as (Hdays & Hmonth & _).
  rewrite Date_fixed_clock by done. rewrite Hdays.
  unfold dateOf, clockOf, Year, Month, Day, Hour_, GoClock.Minute, GoClock.Second_,
    GoClock.Nanosecond.
  rewrite wallSec_fixed by done. unfold unixSec. simpl.
  set (W := 86400 * z + (3600 * hour + 60 * min + sec)).
  assert (((W - firstOffset l) * Second + nsec) `div` Second + firstOffset l = W) as ->.
  { revert Hns. change Second with 1000000000. clearbody W. intros.
    Z.div_mod_to_equations. lia. }
  assert (W `div` 86400 = z) as -> by (subst W; Z.div_mod_to_equations; lia).
  split; [done |].
  f_equal; [f_equal; [f_equal |] |].
  - subst W. Z.div_mod_to_equations. lia.
  - subst W. Z.div_mod_to_equations. lia.
  - subst W. Z.div_mod_to_equations. lia.
  - revert Hns. change Second with 1000000000. clearbody W. intros.
    Z.div_mod_to_equations. lia.
Qed.

Section Parse.
Variable libError : Type.
Variable LoadLocation : string -> libError + Location.
Variable TrimSpace : string -> string.
Variable Atoi : string -> libError + Z.
Variable ParseInLocation : string -> string -> Location -> libError + Time.
Variable Now : nat -> Time.

Local Abbreviation getTimezoneLocation := (getTimezoneLocation libError LoadLocation TrimSpace).
Local Abbreviation headerZone := (headerZone libError LoadLocation TrimSpace).
Local Abbreviation parseTimeLoop := (parseTimeLoop libError ParseInLocation).
Local Abbreviation parseTime := (parseTime libError ParseInLocation Now).
Local Abbreviation parseRow := (parseRow libError TrimSpace Atoi ParseInLocation Now).
Local Abbreviation parseLoop :=
  (parseLoop libError LoadLocation TrimSpace Atoi ParseInLocation Now).
Local Abbreviation Parse := (Parse libError LoadLocation TrimSpace Atoi ParseInLocation Now).

Lemma getTimezoneLocation_unknown code e :
  TrimSpace code ∉ zoneAbbreviations ->
  LoadLocation (TrimSpace code) = inl e ->
  getTimezoneLocation code = LoadLocation "America/Los_Angeles".
Proof.
  intros Hno Hload. unfold parser.getTimezoneLocation. cbv zeta.
  unfold zoneAbbreviations in Hno.
  repeat match goal with
         | |- context [String.eqb ?a ?b] =>
             destruct (String.eqb_spec a b) as [Heq | _];
             [exfalso; apply Hno; rewrite Heq; set_solver |]
         end.
  by rewrite Hload.
Qed.

(** A layout that fits gives a time in the zone asked for. *)
Lemma parseTimeLoop_ok value ls l now lastErr t :
  parseTimeLoop value ls l now lastErr = (t, None) ->
  (ls = [] /\ lastErr = None) \/
  exists layout t0,
    layout ∈ ls /\ ParseInLocation layout value l = inr t0 /\
    t = Date (Year now) (Month now) (Day now) (Hour_ t0) (GoClock.Minute t0)
             (GoClock.Second_ t0) (GoClock.Nanosecond t0) l.
Proof.
  revert lastErr. induction ls as [|layout ls IH]; intros lastErr; simpl.
  - intros [= <- ->]. by left.
  - destruct (ParseInLocation layout value l) as [err | t0] eqn:Ep.
    + intros Hrest. destruct (IH _ Hrest) as [[_ [=]] | (layout' & t0' & Hin & Hp & Ht)].
      right. exists layout', t0'. split; [by right | done].
    + intros [= <-]. right. exists layout, t0. split; [by left | done].
Qed.

Lemma parseTime_ok value l clock t :
  parseTime value layouts l clock = (t, None) ->
  exists layout t0,
    layout ∈ layouts /\ ParseInLocation layout value l = inr t0 /\
    t = Date (Year (In (Now clock) l)) (Month (In (Now clock) l)) (Day (In (Now clock) l))
             (Hour_ t0) (GoClock.Minute t0) (GoClock.Second_ t0)
             (GoClock.Nanosecond t0) l.
Proof.
  unfold parser.parseTime. cbv zeta. intros Hp.
  by destruct (parseTimeLoop_ok _ _ _ _ _ _ Hp) as [[[=] _] | ?].
Qed.

Lemma parseTime_loc value l clock t :
  parseTime value layouts l clock = (t, None) -> loc t = l.
Proof.
  intros Hp. destruct (parseTime_ok _ _ _ _ Hp) as (? & ? & _ & _ & ->).
  apply Date_loc.
Qed.

(** What a row that parses becomes, and what an error says of a row
    that does not. *)
Lemma parseRow_ok record l lineNum clock cd :
  parseRow record l lineNum clock = inr cd ->
  length record = 6%nat /\ inItsZone cd /\ cdLocation cd = Some l.
Proof.
  unfold parser.parseRow.
  destruct (Nat.eqb_spec (length record) 6) as [Hlen | Hlen]; simpl; [| done].
  destruct (Atoi _) as [? | duration]; [done |].
  destruct (parseTime _ _ _ clock) as [start [?|]] eqn:Es; [done |].
  destruct (parseTime _ _ _ (S clock)) as [end_ [?|]] eqn:Ee; [done |].
  destruct (Atoi _) as [? | calls]; [done |].
  destruct (Atoi _) as [? | priority]; [done |].
  intros [= <-]. split; [done |]. split; [| done].
  exists l. simpl. split; [done |].
  split; [by eapply parseTime_loc | by eapply parseTime_loc].
Qed.

Lemma parseRow_error record l lineNum clock err :
  parseRow record l lineNum clock = inl err ->
  Line err = lineNum /\ Record_ err = record /\ Err err <> ErrEmptyRecord /\
  (Err err = ErrInvalidFieldCount <-> length record <> 6%nat).
Proof.
  unfold parser.parseRow.
  destruct (Nat.eqb_spec (length record) 6) as [Hlen | Hlen]; simpl.
  - destruct (Atoi _) as [? | duration]; [by intros [= <-] |].
    destruct (parseTime _ _ _ clock) as [start [?|]]; [by intros [= <-] |].
    destruct (parseTime _ _ _ (S clock)) as [end_ [?|]]; [by intros [= <-] |].
    destruct (Atoi _) as [? | calls]; [by intros [= <-] |].
    destruct (Atoi _) as [? | priority]; [by intros [= <-] | done].
  - by intros [= <-].
Qed.

Lemma parseLoop_Parsed reads : forall l data lineNum clock data',
  parseLoop reads l data lineNum clock = Parsed libError data' ->
  exists records new,
    reads = inr <$> records /\ data' = data ++ new /\
    length new = length (filter isData records) /\
    Forall (fun record => isData record -> length record = 6%nat) records /\
    Forall inItsZone new.
Proof.
  induction reads as [|[err | record] reads IH]; intros l data lineNum clock data'; simpl.
  - intros [= <-]. exists [], []. by rewrite app_nil_r.
  - done.
  - destruct (isHeader record) eqn:Eh.
    + intros Hrest. destruct (IH _ _ _ _ _ Hrest) as (records & new & -> & -> & Hl & Hf & Hz).
      exists (record :: records), new. repeat split; try done.
      * rewrite filter_cons_False; [done |]. unfold isData. by rewrite Eh.
      * constructor; [| done]. unfold isData. by rewrite Eh.
    + destruct (parseRow record l (lineNum + 1) clock) as [? | cd] eqn:Er; [done |].
      intros Hrest. destruct (IH _ _ _ _ _ Hrest) as (records & new & -> & -> & Hl & Hf & Hz).
      destruct (parseRow_ok _ _ _ _ _ Er) as (Hlen & Hzone & _).
      exists (record :: records), (cd :: new). repeat split; try done.
      * by rewrite <- app_assoc.
      * rewrite filter_cons_True by done. simpl. by rewrite Hl.
      * by constructor.
      * by constructor.
Qed.

Lemma parseLoop_RowError reads : forall l data lineNum clock err,
  parseLoop reads l data lineNum clock = RowError libError err ->
  exists before record after,
    reads = (inr <$> before) ++ inr record :: after /\
    Line err = lineNum + Z.of_nat (length before) + 1 /\
    Record_ err = record /\ isData record /\
    Err err <> ErrEmptyRecord /\
    (Err err = ErrInvalidFieldCount <-> length record <> 6%nat).
Proof.
  induction reads as [|[e | record] reads IH]; intros l data lineNum clock err; simpl;
    [done | done |].
  destruct (isHeader record) eqn:Eh.
  - intros Hrest.
    destruct (IH _ _ _ _ _ Hrest) as (before & rec & after & -> & Hline & Hrec).
    exists (record :: before), rec, after. split; [done |]. split; [| done].
    simpl length. lia.
  - destruct (parseRow record l (lineNum + 1) clock) as [err' | cd] eqn:Er.
    + intros [= <-]. destruct (parseRow_error _ _ _ _ _ Er) as (Hline & Hrec & Hne & Hcount).
      exists [], record, reads. simpl. repeat split; try done; try lia; apply Hcount.
    + intros Hrest.
      destruct (IH _ _ _ _ _ Hrest) as (before & rec & after & -> & Hline & Hrec).
      exists (record :: before), rec, after. split; [done |]. split; [| done].
      simpl length. lia.
Qed.

End Parse.
End ParserFacts.

Module ParserProperties.
Import models errors parser props GoTime BoundaryFacts ParserFacts.

Section Parse.
Variable libError : Type.
Variable LoadLocation : string -> libError + Location.
Variable TrimSpace : string -> string.
Variable Atoi : string -> libError + Z.
Variable ParseInLocation : string -> string -> Location -> libError + Time.
Variable Now : nat -> Time.

Local Abbreviation parseTime := (parseTime libError ParseInLocation Now).
Local Abbreviation parseLoop :=
  (parseLoop libError LoadLocation TrimSpace Atoi ParseInLocation Now).
Local Abbreviation Parse := (Parse libError LoadLocation TrimSpace Atoi ParseInLocation Now).

(** X16.  A header line of four fields or more that names a zone the database
    does not know does not leave the zone as it was: the rows after it
    are read in Pacific Time.  A header line of fewer fields is not
    looked at, and the zone stays. *)
Theorem unknown_zone_resets_to_pacific record code e pacific reads l data lineNum clock :
  isHeader record = true ->
  TrimSpace (field record 2) = "StartTime" +:+ code ->
  TrimSpace code ∉ zoneAbbreviations ->
  LoadLocation (TrimSpace code) = inl e ->
  LoadLocation "America/Los_Angeles" = inr pacific ->
  parseLoop (inr record :: reads) l data lineNum clock
  = parseLoop reads (if (4 <=? length record)%nat then pacific else l)
              data (lineNum + 1) clock.
Proof.
  intros Hh Hfield Hcode Hload Hpacific. simpl parseLoop at 1. rewrite Hh.
  f_equal. unfold headerZone.
  destruct (4 <=? length record)%nat; [| done].
  rewrite Hfield. unfold HasPrefix at 1. rewrite prefix_app, TrimPrefix_app.
  rewrite (getTimezoneLocation_unknown libError LoadLocation TrimSpace Atoi ParseInLocation
             code e Hcode Hload).
  by rewrite Hpacific.
Qed.

(** X17.  When [Parse] succeeds nothing went wrong on the way: every read
    gave a record, every record that is not a comment had six fields and
    became one [CallData], in order, and the start and the end of each
    are instants in the zone recorded with it. *)
Theorem parsed_rows reads data :
  Parse reads = Parsed libError data ->
  exists records,
    reads = inr <$> records /\
    length data = length (filter isData records) /\
    Forall (fun record => isData record -> length record = 6%nat) records /\
    Forall inItsZone data.
Proof.
  unfold parser.Parse. destruct (LoadLocation _) as [? | l]; [done |].
  intros Hp. apply parseLoop_Parsed in Hp. destruct Hp
    as (records & new & -> & -> & Hlen & Hsix & Hzone).
  by exists records.
Qed.

(** X18.  A row that cannot be read stops the parse with an error that says
    where: the line number is the number of records read so far, comment
    lines counted, and the record is the one at fault.  The error is
    never [ErrEmptyRecord]; it is [ErrInvalidFieldCount] exactly when the
    record does not have six fields. *)
Theorem row_error_position reads err :
  Parse reads = RowError libError err ->
  exists before record after,
    reads = (inr <$> before) ++ inr record :: after /\
    Line err = Z.of_nat (length before) + 1 /\
    Record_ err = record /\ isData record /\
    Err err <> ErrEmptyRecord /\
    (Err err = ErrInvalidFieldCount <-> length record <> 6%nat).
Proof.
  unfold parser.Parse. destruct (LoadLocation _) as [? | l]; [done |].
  intros Hp. apply parseLoop_RowError in Hp. destruct Hp
    as (before & record & after & -> & Hline & Hrest).
  exists before, record, after. split; [done |]. split; [lia | done].
Qed.

(** X19.  In a zone of one offset, a time read from the text is the instant
    that shows, in that zone, the date of the clock reading and the time
    of day the layout found. *)
Theorem parsed_time_of_day value l clock t :
  fixedZone l ->
  parseTime value layouts l clock = (t, None) ->
  exists layout t0,
    layout ∈ layouts /\ ParseInLocation layout value l = inr t0 /\
    loc t = l /\
    dateOf t = dateOf (In (Now clock) l) /\
    clockOf t = clockOf t0.
Proof.
  intros Hl Hp. apply parseTime_ok in Hp. destruct Hp as (layout & t0 & Hin & Ht0 & ->).
  exists layout, t0. split; [done |]. split; [done |]. split; [apply Date_loc |].
  apply (Date_fixed_reads (wallSec (In (Now clock) l) `div` 86400)); [done | | | |].
  - unfold Hour_. Z.div_mod_to_equations. lia.
  - unfold GoClock.Minute. Z.div_mod_to_equations. lia.
  - unfold GoClock.Second_. Z.div_mod_to_equations. lia.
  - unfold GoClock.Nanosecond. change Second with 1000000000.
    Z.div_mod_to_equations. lia.
Qed.

End Parse.

Import examples.

Lemma unknown_zone_resets_to_pacific_witness :
  parseLoop unit onlyPacific id anyNumber noon epoch
            [inr ["# name"; "seconds"; "StartTimeMars/Olympus"; "end"]] UTC [] 0 0
  = parseLoop unit onlyPacific id anyNumber noon epoch []
              (mkLocation "America/Los_Angeles" (-28800) []) [] (0 + 1) 0 /\
  parseLoop unit onlyPacific id anyNumber noon epoch
            [inr ["# name"; "seconds"; "StartTimeMars/Olympus"]] UTC [] 0 0
  = parseLoop unit onlyPacific id anyNumber noon epoch [] UTC [] (0 + 1) 0.
Proof.
  assert ("Mars/Olympus" ∉ zoneAbbreviations) as Hcode.
  { unfold zoneAbbreviations. intros Hin.
    repeat (apply elem_of_cons in Hin as [Heq | Hin]; [discriminate |]).
    by apply elem_of_nil in Hin. }
  split.
  - exact (unknown_zone_resets_to_pacific unit onlyPacific id anyNumber noon epoch
             ["# name"; "seconds"; "StartTimeMars/Olympus"; "end"] "Mars/Olympus" tt
             (mkLocation "America/Los_Angeles" (-28800) []) [] UTC [] 0 0
             eq_refl eq_refl Hcode eq_refl eq_refl).
  - exact (unknown_zone_resets_to_pacific unit onlyPacific id anyNumber noon epoch
             ["# name"; "seconds"; "StartTimeMars/Olympus"] "Mars/Olympus" tt
             (mkLocation "America/Los_Angeles" (-28800) []) [] UTC [] 0 0
             eq_refl eq_refl Hcode eq_refl eq_refl).
Defined.

Lemma parsed_rows_witness :
  exists records,
    [inr ["# a comment"]; inr ["Acme"; "300"; "9AM"; "5PM"; "100"; "1"]]
    = (inr <$> records : list (unit + list string)) /\
    length [mkCallData "Acme" 7
              (Date 1969 12 31 12 0 0 0 (mkLocation "America/Los_Angeles" (-28800) []))
              (Date 1969 12 31 12 0 0 0 (mkLocation "America/Los_Angeles" (-28800) []))
              (Some (mkLocation "America/Los_Angeles" (-28800) [])) 7 7]
    = length (filter isData records) /\
    Forall (fun record => isData record -> length record = 6%nat) records /\
    Forall inItsZone
      [mkCallData "Acme" 7
         (Date 1969 12 31 12 0 0 0 (mkLocation "America/Los_Angeles" (-28800) []))
         (Date 1969 12 31 12 0 0 0 (mkLocation "America/Los_Angeles" (-28800) []))
         (Some (mkLocation "America/Los_Angeles" (-28800) [])) 7 7].
Proof.
  apply (parsed_rows unit onlyPacific id anyNumber noon epoch).
  reflexivity.
Defined.

Lemma row_error_position_witness :
  exists before record after,
    [inr ["# a comment"]; inr ["Acme"; "300"]]
    = ((inr <$> before) ++ inr record :: after : list (unit + list string)) /\
    Line (mkParseError 2 ["Acme"; "300"] ErrInvalidFieldCount (None : option unit))
    = Z.of_nat (length before) + 1 /\
    Record_ (mkParseError 2 ["Acme"; "300"] ErrInvalidFieldCount (None : option unit))
    = record /\
    isData record /\
    Err (mkParseError 2 ["Acme"; "300"] ErrInvalidFieldCount (None : option unit))
    <> ErrEmptyRecord /\
    (Err (mkParseError 2 ["Acme"; "300"] ErrInvalidFieldCount (None : option unit))
     = ErrInvalidFieldCount <-> length record <> 6%nat).
Proof.
  apply (row_error_position unit onlyPacific id anyNumber noon epoch).
  reflexivity.
Defined.

Lemma parsed_time_of_day_witness :
  exists layout t0,
    layout ∈ layouts /\ noon layout "9AM" UTC = inr t0 /\
    loc (Date 1970 1 1 12 0 0 0 UTC) = UTC /\
    dateOf (Date 1970 1 1 12 0 0 0 UTC) = dateOf (In (epoch 0) UTC) /\
    clockOf (Date 1970 1 1 12 0 0 0 UTC) = clockOf t0.
Proof.
  apply (parsed_time_of_day unit onlyPacific id anyNumber noon epoch "9AM" UTC 0);
    reflexivity.
Defined.

End ParserProperties.

(* ===================================================================== *)
(** * Priorities and shortfalls                                           *)
(* ===================================================================== *)

Module PriorityFacts.
Import models scheduler props invariants AllocFacts SliceFacts AllocationShape.

Lemma filter_priority_none p (l : list CustomerRequirement) :
  ~ Exists (fun r => Priority r = p) l -> filter (fun r => Priority r = p) l = [].
Proof.
  intros Hno. apply filter_none, Forall_forall. intros r Hr Hp.
  apply Hno, Exists_exists. by exists r.
Qed.

(** On one pass: when the entries of priority [p] of the allocated list
    are not the requests of priority [p], a request of priority [p] was
    reached after the capacity had run out, and is on record. *)
Lemma allocPass_shortfall p l capacity :
  let st := foldl allocStep (mkAllocState [] [] capacity) l in
  filter (fun a => Priority a = p) (allocated st) = filter (fun r => Priority r = p) l \/
  Exists (fun ic => icPriority ic = p) (impactedClients st).
Proof.
  intros st. subst st.
  destruct (allocPass_shape l (mkAllocState [] [] capacity))
    as (served & rest & -> & Hshape). simpl in Hshape.
  destruct (decide (Exists (fun r => Priority r = p) rest)) as [Hyes | Hno].
  - right. apply Exists_exists in Hyes as (r & Hr & Hp).
    destruct Hshape as [[_ ->] | (req & rest' & given & -> & _ & _ & ->)].
    + apply Exists_exists. exists (fullyUnmet r). split; [| done].
      apply list_elem_of_fmap. by exists r.
    + apply Exists_exists. apply elem_of_cons in Hr as [-> | Hr].
      * exists (partlyUnmet req given). split; [left | done].
      * exists (fullyUnmet r). split; [| done].
        right. apply list_elem_of_fmap. by exists r.
  - left. rewrite filter_app, (filter_priority_none p rest Hno), app_nil_r.
    destruct Hshape as [[-> _] | (req & rest' & given & -> & _ & -> & _)]; [done |].
    rewrite filter_app, filter_cons. simpl.
    destruct (decide (Priority req = p)) as [Hp | _]; [| by rewrite filter_nil, app_nil_r].
    exfalso. apply Hno. by left.
Qed.

(** For the allocator: a priority whose requests are not all served in
    full has a record among the impacted clients. *)
Lemma shortfall_recorded requests capacity p :
  ~ servedInFull p requests (allocateWithConstraints requests capacity).1 ->
  Exists (fun ic => icPriority ic = p)
         (impactedOf (allocateWithConstraints requests capacity).2).
Proof.
  intros Hshort.
  destruct (allocate_cases requests capacity) as [Hfast | (_ & Hslow)].
  { exfalso. apply Hshort. unfold servedInFull. by rewrite Hfast. }
  cbv zeta in Hslow. destruct Hslow as (Ha & Hi & _).
  rewrite Hi.
  destruct (allocPass_shortfall p (GoSort.Slice lessPriority requests) capacity)
    as [Hall | Hrec]; [| done].
  exfalso. apply Hshort. unfold servedInFull. rewrite Ha, Hall.
  by rewrite (Slice_Permutation requests).
Qed.

(** And the other way round: a record of priority [p] among the impacted
    clients means that the requests of priority [p] were not all served in
    full. *)
Lemma allocPass_recorded p l capacity :
  let st := foldl allocStep (mkAllocState [] [] capacity) l in
  Exists (fun ic => icPriority ic = p) (impactedClients st) ->
  ~ filter (fun a => Priority a = p) (allocated st) ≡ₚ filter (fun r => Priority r = p) l.
Proof.
  intros st. subst st.
  destruct (allocPass_shape l (mkAllocState [] [] capacity))
    as (served & rest & -> & Hshape). simpl in Hshape.
  rewrite (filter_app _ served rest).
  destruct Hshape as [[-> ->] | (req & rest' & given & -> & Hgiven & -> & ->)].
  - intros (ic & (r & -> & Hr)%list_elem_of_fmap & Hp)%Exists_exists Hsame.
    apply Permutation_length in Hsame. rewrite length_app in Hsame.
    assert (r ∈ filter (fun r => Priority r = p) rest) as Hin
      by (by apply list_elem_of_filter).
    destruct (filter _ rest); [by apply elem_of_nil in Hin | simpl in Hsame; lia].
  - intros Hrec Hsame. rewrite filter_app in Hsame.
    apply Permutation_app_inv_l in Hsame.
    rewrite !filter_cons, filter_nil in Hsame. simpl in Hsame.
    destruct (decide (Priority req = p)) as [Hp | Hp].
    + pose proof (Permutation_length Hsame) as Hlen. simpl in Hlen.
      destruct (filter _ rest'); [| simpl in Hlen; lia].
      apply Permutation_singleton_l in Hsame. injection Hsame as Hsame.
      apply (f_equal AgentsNeeded) in Hsame. simpl in Hsame. lia.
    + apply Permutation_nil_l in Hsame.
      apply Exists_cons in Hrec as [Hreq | (ic & (r & -> & Hr)%list_elem_of_fmap & Hr')%Exists_exists];
        [done |].
      assert (r ∈ filter (fun r => Priority r = p) rest') as Hin
        by (by apply list_elem_of_filter).
      rewrite <- Hsame in Hin. by apply elem_of_nil in Hin.
Qed.

(** The requests of priority [p] are short of what they asked for exactly
    when a record of priority [p] is among the impacted clients. *)
Lemma shortfall_iff_recorded requests capacity p :
  ~ servedInFull p requests (allocateWithConstraints requests capacity).1 <->
  Exists (fun ic => icPriority ic = p)
         (impactedOf (allocateWithConstraints requests capacity).2).
Proof.
  split; [apply shortfall_recorded |].
  destruct (allocate_cases requests capacity) as [Hfast | (_ & Hslow)].
  { rewrite Hfast. simpl. by intros ?%Exists_nil. }
  cbv zeta in Hslow. destruct Hslow as (Ha & Hi & _).
  rewrite Hi, Ha. intros Hrec Hsame. unfold servedInFull in Hsame.
  apply (allocPass_recorded p _ capacity Hrec).
  by rewrite Hsame, (Slice_Permutation requests).
Qed.

(** Once a record of priority [p] is among the impacted clients, nothing
    of a priority above [p] is allocated, and every request above [p] is
    on record as fully unmet. *)
Lemma recorded_blocks requests capacity ic :
  ic ∈ impactedOf (allocateWithConstraints requests capacity).2 ->
  Forall (fun a => Priority a <= icPriority ic)
         (allocateWithConstraints requests capacity).1 /\
  filter (fun ic2 => icPriority ic < icPriority ic2)
         (impactedOf (allocateWithConstraints requests capacity).2)
  ≡ₚ fullyUnmet <$> filter (fun r => icPriority ic < Priority r) requests.
Proof.
  unfold allocateWithConstraints.
  destruct (length requests =? 0)%nat; [by intros ?%elem_of_nil |].
  destruct (capacity >=? totalDemandOf requests); [by intros ?%elem_of_nil |].
  pose proof (Slice_Permutation requests) as Hperm.
  pose proof (Slice_byPriority requests) as Hsorted.
  set (sorted := GoSort.Slice lessPriority requests) in *.
  pose proof (shortfall_blocks sorted capacity ic Hsorted) as Hblock. simpl in Hblock.
  set (st := foldl allocStep (mkAllocState [] [] capacity) sorted) in *.
  destruct (0 <? length (impactedClients st))%nat; simpl; [|by intros ?%elem_of_nil].
  intros Hin. destruct (Hblock Hin) as [H1 H2]. split; [done |].
  rewrite H2. by rewrite Hperm.
Qed.

End PriorityFacts.

Module PriorityTheorems.
Import models scheduler props examples PriorityFacts.

(** C2 (priority monotonicity).  In what [allocateWithConstraints]
    returns, for every list of requests and every capacity: if a request
    of priority [p1] received less than it asked for, so that the entries
    of priority [p1] of the allocated list are not the requests of priority
    [p1] with the agents they asked for (one of them is missing, or is
    there with fewer agents), then every request of a priority [p2 > p1]
    receives nothing: no entry of the allocated list has a priority above
    [p1], and the [ImpactedClient] records of priority above [p1] are those
    of the requests of priority above [p1], one for each, with
    [AllocatedAgents = 0] and all of the demand unmet.  The shortfall at
    [p1] is on record as well; by [shortfall_iff_recorded] it is there in
    no other case. *)
Theorem priority_monotonicity requests capacity p1 :
  ~ servedInFull p1 requests (allocateWithConstraints requests capacity).1 ->
  Forall (fun a => Priority a <= p1) (allocateWithConstraints requests capacity).1 /\
  filter (fun ic2 => p1 < icPriority ic2)
         (impactedOf (allocateWithConstraints requests capacity).2)
  ≡ₚ fullyUnmet <$> filter (fun r => p1 < Priority r) requests /\
  Exists (fun ic1 => icPriority ic1 = p1)
         (impactedOf (allocateWithConstraints requests capacity).2).
Proof.
  intros Hshort. pose proof (shortfall_recorded _ _ _ Hshort) as Hrec.
  apply Exists_exists in Hrec as Hic. destruct Hic as (ic1 & Hin & <-).
  destruct (recorded_blocks requests capacity ic1 Hin) as [Hallocated Himpacted].
  done.
Qed.

(** [threeRequests] with room for 15: "B", of priority 2, asks for 10 and
    is given 5, so "C", of priority 3, gets nothing. *)
Lemma priority_monotonicity_witness :
  Forall (fun a => Priority a <= 2) (allocateWithConstraints threeRequests 15).1 /\
  filter (fun ic2 => 2 < icPriority ic2) (impactedOf (allocateWithConstraints threeRequests 15).2)
  ≡ₚ fullyUnmet <$> filter (fun r => 2 < Priority r) threeRequests /\
  Exists (fun ic1 => icPriority ic1 = 2)
         (impactedOf (allocateWithConstraints threeRequests 15).2).
Proof.
  apply (priority_monotonicity threeRequests 15 2).
  unfold servedInFull. intros Hsame.
  apply (elem_of_Permutation_proper (mkCustomerRequirement "B" 10 None 2)) in Hsame.
  vm_compute in Hsame. destruct Hsame as [_ Hsame].
  specialize (Hsame ltac:(constructor)).
  inversion Hsame as [| ? ? ? Hnil]; inversion Hnil.
Defined.

End PriorityTheorems.
